(** * Compilador: lexical scanner and semantic analyser

    A shallow embedding of [analisadores.py] (whose scanner is repeated
    verbatim in [Compilador/lexer.py]).  Python objects are rendered as
    follows.

    - An exception is a value of [excecao]; a call that may raise returns
      a [resultado].
    - The analyser instance ([self]) is an [estado] that is passed in and
      returned.  Scopes are Python dicts read only by key and are finite
      maps; the two signature tables are iterated in insertion order by
      the completeness pass and are insertion-ordered association lists.
    - Program and expression nodes are Python dicts with a ["kind"] entry.
      Each known kind is a constructor that carries the entries the code
      reads; [Outro]/[EOutro] is a dict holding nothing but its kind. *)

From Stdlib Require Import ZArith Ascii Sorting.Sorted.
From stdpp Require Import gmap strings list fin_maps.

Set Warnings "-register-all,-clear-no-such-hyp".

Open Scope string_scope.
Open Scope Z_scope.
Open Scope list_scope.

(** ** Text *)

(** A Python [str] is the sequence of its code points.  The scanner reads
    its characters, so the texts it handles are lists of code points; the
    analyser only compares names and type names with each other, and those
    are strings. *)
Abbreviation texto := (list N).

(** The code point of an ASCII character. *)
Definition cp (c : ascii) : N := N_of_ascii c.
Arguments cp : simpl never.

(** The text of an ASCII string literal. *)
Definition codigos (s : string) : texto := cp <$> String.list_ascii_of_string s.

(** ** Exceptions and results *)

(** One constructor for each [raise ErroSemantico(...)] site family; the
    arguments are the values formatted into the message. *)
Inductive erro_semantico : Type :=
| EmptyExpression
| UndeclaredVariable (nome : string)
| UnknownOperator (op : option string)
| OperandType (op : string)
| TypeMismatch (t1 t2 : string)
| InvalidExpression
| ArityMismatch (nome : string)
| ArgumentTypeMismatch (nome : string) (posicao : nat) (t esperado : string)
| ProcedureUsedAsValue (nome : string)
| UndeclaredCallee (nome : string)
| DuplicateDeclaration (nome : string)
| DuplicateSignature (nome : string)
| BodyWithoutDeclaration (nome : string)
| NonBooleanCondition (kind : string)
| MissingBody (nome : string)
| ReturnInProcedure (nome : string)
| ReturnTypeMismatch (nome t esperado : string)
| MissingReturn (nome : string)
| ReturnOutsideBody
| UnknownJump (op : option string).

Inductive excecao : Type :=
| ErroSemantico (e : erro_semantico)
| ErroLexico (txt : texto) (linha coluna : Z)
| KeyError (chave : string)
| IndexError
| ValueError.

Inductive resultado (A : Type) : Type :=
| Ok (a : A)
| Falha (e : excecao).
Arguments Ok {A} a.
Arguments Falha {A} e.

Definition ligar {A B} (m : resultado A) (f : A → resultado B) : resultado B :=
  match m with
  | Ok a => f a
  | Falha e => Falha e
  end.

#[global] Instance resultado_bind : MBind resultado := λ A B f m, ligar m f.
#[global] Instance resultado_ret : MRet resultado := λ A a, Ok a.

Definition erro {A} (e : erro_semantico) : resultado A := Falha (ErroSemantico e).

Definition sucedeu {A} (r : resultado A) : bool :=
  match r with Ok _ => true | Falha _ => false end.

(** ** Insertion-ordered dictionaries (the signature tables) *)

Module Dict.
Definition t (V : Type) : Type := list (string * V).

Fixpoint get {V} (d : t V) (k : string) : option V :=
  match d with
  | [] => None
  | (k', v) :: d' => if String.eqb k' k then Some v else get d' k
  end.

Definition contem {V} (d : t V) (k : string) : bool :=
  match get d k with Some _ => true | None => false end.

(** [d[k] = v]: an existing key keeps its position, a new key goes last. *)
Fixpoint set {V} (d : t V) (k : string) (v : V) : t V :=
  match d with
  | [] => [(k, v)]
  | (k', v') :: d' =>
      if String.eqb k' k then (k', v) :: d' else (k', v') :: set d' k v
  end.

Definition chaves {V} (d : t V) : list string := map fst d.
End Dict.

(** ** Nodes *)

(** A parameter is the tuple [(tipo, nome)]. *)
Abbreviation parametros := (list (string * string)).

Inductive valor_lit : Type :=
| VInteiro (n : Z)
| VBooleano (b : bool).

Inductive expr : Type :=
| ENone
| ELit (tipo : string) (valor : valor_lit)
| EVar (nome : string)
| EUnop (op : option string) (e : expr)
| EBinop (op : string) (left right : expr)
| ECall (nome : string) (args : list expr)
| EOutro (kind : option string).

(** [Vardecl] holds [ENone] when the node has no ["expr"] entry or holds
    [None] there; [If] holds [None] for a missing or [None] ["else"];
    missing ["params"], ["args"] and ["body"] entries read as [[]]. *)
Inductive node : Type :=
| Vardecl (tipo nome : string) (init : expr)
| Funcdecl (nome tipo : string) (params : parametros)
| Procdecl (nome : string) (params : parametros)
| Funcbody (nome : string) (params : parametros) (body : list node)
| Procbody (nome : string) (params : parametros) (body : list node)
| Assign (nome : string) (e : expr)
| Call (nome : string) (args : list expr)
| Return (e : expr)
| If (cond : expr) (body : list node) (senao : option (list node))
| While (cond : expr) (body : list node)
| Print (e : expr)
| Jump (op : option string)
| Outro (kind : option string).

(** [elem.get("kind")] *)
Definition kind_of (elem : node) : option string :=
  match elem with
  | Vardecl _ _ _ => Some "vardecl"
  | Funcdecl _ _ _ => Some "funcdecl"
  | Procdecl _ _ => Some "procdecl"
  | Funcbody _ _ _ => Some "funcbody"
  | Procbody _ _ _ => Some "procbody"
  | Assign _ _ => Some "assign"
  | Call _ _ => Some "call"
  | Return _ => Some "return"
  | If _ _ _ => Some "if"
  | While _ _ => Some "while"
  | Print _ => Some "print"
  | Jump _ => Some "jump"
  | Outro k => k
  end.

Definition kind_e (k : option string) (s : string) : bool :=
  match k with Some k' => String.eqb k' s | None => false end.

(** ** Analyser state *)

Record estado : Type := Estado {
  tabela_funcoes : Dict.t (string * parametros);
  tabela_proceds : Dict.t parametros;
  escopos : list (gmap string string)
}.

Definition com_escopos (st : estado) (es : list (gmap string string)) : estado :=
  Estado (tabela_funcoes st) (tabela_proceds st) es.

(** [AnalisadorSemantico.__init__] *)
Definition estado_inicial : estado := Estado [] [] [∅].

Module Semantico.

(** *** Scope utilities *)

Definition abrir_escopo (st : estado) : estado :=
  com_escopos st (escopos st ++ [∅]).

(** [pop] on an empty list raises [IndexError]. *)
Definition fechar_escopo (st : estado) : resultado estado :=
  if Nat.eqb (length (escopos st)) 1 then Ok st
  else match escopos st with
       | [] => Falha IndexError
       | _ => Ok (com_escopos st (removelast (escopos st)))
       end.

Definition declarar_variavel_atual (nome tipo : string) (st : estado)
  : resultado estado :=
  match last (escopos st) with
  | None => Falha IndexError
  | Some escopo_atual =>
      if decide (is_Some (escopo_atual !! nome))
      then erro (DuplicateDeclaration nome)
      else Ok (com_escopos st
                 (<[pred (length (escopos st)) := <[nome := tipo]> escopo_atual]>
                    (escopos st)))
  end.

Fixpoint buscar_em (es : list (gmap string string)) (nome : string)
  : option string :=
  match es with
  | [] => None
  | esc :: es' =>
      match esc !! nome with
      | Some t => Some t
      | None => buscar_em es' nome
      end
  end.

(** [for esc in reversed(self.escopos)] *)
Definition buscar_variavel (st : estado) (nome : string) : option string :=
  buscar_em (reverse (escopos st)) nome.

(** *** Registration *)

Definition registrar_funcao (nome tipo_retorno : string) (params : parametros)
  (st : estado) : resultado estado :=
  if Dict.contem (tabela_funcoes st) nome || Dict.contem (tabela_proceds st) nome
  then erro (DuplicateSignature nome)
  else Ok (Estado (Dict.set (tabela_funcoes st) nome (tipo_retorno, params))
             (tabela_proceds st) (escopos st)).

Definition registrar_procedimento (nome : string) (params : parametros)
  (st : estado) : resultado estado :=
  if Dict.contem (tabela_funcoes st) nome || Dict.contem (tabela_proceds st) nome
  then erro (DuplicateSignature nome)
  else Ok (Estado (tabela_funcoes st)
             (Dict.set (tabela_proceds st) nome params) (escopos st)).

(** *** Expression types *)

Definition aritmeticos : list string := ["+"; "-"; "*"; "/"].
Definition relacionais : list string := ["=="; "!="; ">"; "<"; ">="; "<="].
Definition logicos : list string := ["&&"; "||"].

Definition pertence (s : string) (l : list string) : bool :=
  existsb (String.eqb s) l.

(** The argument loop shared by the call checkers:
    [for idx, arg in enumerate(args)], reporting position [idx+1]. *)
Definition checar_args (tipo_de : expr → resultado string) (nome : string)
  (params : parametros) : nat → list expr → resultado unit :=
  fix laco (idx : nat) (args : list expr) : resultado unit :=
    match args with
    | [] => Ok tt
    | arg :: resto =>
        t ← tipo_de arg;
        match params !! idx with
        | None => Falha IndexError
        | Some (esperado, _) =>
            if String.eqb t esperado then laco (S idx) resto
            else erro (ArgumentTypeMismatch nome (S idx) t esperado)
        end
    end.

(** What [avaliar_expressao_tipo] does with a dict that has only its
    ["kind"]: the first subscript of the selected branch raises [KeyError]
    (["op"] of a [unop] is read with [get], so its first subscript is
    ["expr"]); any other kind reaches the final [raise]. *)
Definition avaliar_outro (k : option string) : resultado string :=
  if kind_e k "lit" then Falha (KeyError "tipo")
  else if kind_e k "var" then Falha (KeyError "nome")
  else if kind_e k "unop" then Falha (KeyError "expr")
  else if kind_e k "binop" then Falha (KeyError "op")
  else if kind_e k "call" then Falha (KeyError "nome")
  else erro InvalidExpression.

Section Expressoes.
Variable st : estado.

Fixpoint avaliar_expressao_tipo (e : expr) : resultado string :=
  match e with
  | ENone => erro EmptyExpression
  | ELit tipo _ => Ok tipo
  | EVar nome =>
      match buscar_variavel st nome with
      | None => erro (UndeclaredVariable nome)
      | Some tipo => Ok tipo
      end
  | EUnop op e1 =>
      t ← avaliar_expressao_tipo e1;
      if kind_e op "!"
      then if String.eqb t "boolean" then Ok "boolean" else erro (OperandType "!")
      else erro (UnknownOperator op)
  | EBinop op l r =>
      tleft ← avaliar_expressao_tipo l;
      tright ← avaliar_expressao_tipo r;
      if pertence op aritmeticos then
        if negb (String.eqb tleft "int") || negb (String.eqb tright "int")
        then erro (OperandType op) else Ok "int"
      else if pertence op relacionais then
        if String.eqb tleft tright then Ok "boolean"
        else erro (TypeMismatch tleft tright)
      else if pertence op logicos then
        if negb (String.eqb tleft "boolean") || negb (String.eqb tright "boolean")
        then erro (OperandType op) else Ok "boolean"
      else erro (UnknownOperator (Some op))
  | ECall nome args =>
      (* _checar_chamada_em_expressao *)
      match Dict.get (tabela_funcoes st) nome with
      | Some (tipo_retorno, params) =>
          if negb (Nat.eqb (length params) (length args))
          then erro (ArityMismatch nome)
          else checar_args avaliar_expressao_tipo nome params 0%nat args;;
               Ok tipo_retorno
      | None =>
          if Dict.contem (tabela_proceds st) nome
          then erro (ProcedureUsedAsValue nome)
          else erro (UndeclaredCallee nome)
      end
  | EOutro k => avaliar_outro k
  end.

Definition _checar_chamada_em_expressao (nome : string) (args : list expr)
  : resultado string :=
  avaliar_expressao_tipo (ECall nome args).
End Expressoes.

(** *** Statement helpers *)

(** [for x in xs: f(x)], threading the analyser state. *)
Definition para_cada {A} (f : A → estado → resultado estado)
  : list A → estado → resultado estado :=
  fix laco (xs : list A) (st : estado) : resultado estado :=
    match xs with
    | [] => Ok st
    | x :: xs' => st' ← f x st; laco xs' st'
    end.

Definition _checar_chamada_como_comando (nome : string) (args : list expr)
  (st : estado) : resultado unit :=
  match Dict.get (tabela_funcoes st) nome with
  | Some (_, params) =>
      if negb (Nat.eqb (length params) (length args))
      then erro (ArityMismatch nome)
      else checar_args (avaliar_expressao_tipo st) nome params 0%nat args
  | None =>
      match Dict.get (tabela_proceds st) nome with
      | Some params =>
          if negb (Nat.eqb (length params) (length args))
          then erro (ArityMismatch nome)
          else checar_args (avaliar_expressao_tipo st) nome params 0%nat args
      | None => erro (UndeclaredCallee nome)
      end
  end.

Definition _checar_assign (nome : string) (e : expr) (st : estado)
  : resultado unit :=
  match buscar_variavel st nome with
  | None => erro (UndeclaredVariable nome)
  | Some tvar =>
      texpr ← avaliar_expressao_tipo st e;
      if String.eqb tvar texpr then Ok tt else erro (TypeMismatch tvar texpr)
  end.

(** The initialiser test [if "expr" in elem and elem["expr"] is not None]. *)
Definition checar_inicializador (tipo : string) (init : expr) (st : estado)
  : resultado unit :=
  match init with
  | ENone => Ok tt
  | _ =>
      tinit ← avaliar_expressao_tipo st init;
      if String.eqb tinit tipo then Ok tt else erro (TypeMismatch tinit tipo)
  end.

(** A local [vardecl]: declare in the current scope, then check the
    initialiser. *)
Definition checar_vardecl_local (tipo nome : string) (init : expr) (st : estado)
  : resultado estado :=
  st' ← declarar_variavel_atual nome tipo st;
  checar_inicializador tipo init st';;
  Ok st'.

Definition checar_jump (op : option string) (st : estado) : resultado estado :=
  if kind_e op "break" || kind_e op "continue" then Ok st
  else erro (UnknownJump op).

(** What [checar_elemento] does with a dict that has only its ["kind"]:
    the first subscript of the selected branch raises [KeyError]. *)
Definition checar_outro (k : option string) (st : estado) : resultado estado :=
  if kind_e k "assign" then Falha (KeyError "nome")
  else if kind_e k "call" then Falha (KeyError "nome")
  else if kind_e k "vardecl" then Falha (KeyError "tipo")
  else if kind_e k "if" then Falha (KeyError "cond")
  else if kind_e k "while" then Falha (KeyError "cond")
  else if kind_e k "print" then Falha (KeyError "expr")
  else if kind_e k "jump" then checar_jump None st
  else if kind_e k "return" then erro ReturnOutsideBody
  else Ok st.

(** *** The single-statement checker *)

Fixpoint checar_elemento (elem : node) (st : estado) : resultado estado :=
  match elem with
  | Assign nome e => _checar_assign nome e st;; Ok st
  | Call nome args => _checar_chamada_como_comando nome args st;; Ok st
  | Vardecl tipo nome init => checar_vardecl_local tipo nome init st
  | If cond body senao =>
      tcond ← avaliar_expressao_tipo st cond;
      if negb (String.eqb tcond "boolean") then erro (NonBooleanCondition "if")
      else
        st1 ← para_cada checar_elemento body (abrir_escopo st);
        st2 ← fechar_escopo st1;
        match senao with
        | Some cmds =>
            st3 ← para_cada checar_elemento cmds (abrir_escopo st2);
            fechar_escopo st3
        | None => Ok st2
        end
  | While cond body =>
      tcond ← avaliar_expressao_tipo st cond;
      if negb (String.eqb tcond "boolean") then erro (NonBooleanCondition "while")
      else
        st1 ← para_cada checar_elemento body (abrir_escopo st);
        fechar_escopo st1
  | Print e => avaliar_expressao_tipo st e;; Ok st
  | Jump op => checar_jump op st
  | Return _ => erro ReturnOutsideBody
  | Funcdecl _ _ _ | Procdecl _ _ | Funcbody _ _ _ | Procbody _ _ _ => Ok st
  | Outro k => checar_outro k st
  end.

(** *** The body checker *)

(** [for tipo, pname in params: self.declarar_variavel_atual(pname, tipo)] *)
Definition declarar_parametros : parametros → estado → resultado estado :=
  para_cada (λ p, declarar_variavel_atual p.2 p.1).

(** One iteration of [for cmd in body]; the flag is [encontrou_return]. *)
Definition checar_comando_corpo (nome : string) (is_function : bool)
  (cmd : node) (ac : estado * bool) : resultado (estado * bool) :=
  let '(st, encontrou_return) := ac in
  let retorno :=
    if negb is_function then erro (ReturnInProcedure nome)
    else match Dict.get (tabela_funcoes st) nome with
         | None => Falha (KeyError nome)
         | Some (tipo_ret_esperado, _) => Ok tipo_ret_esperado
         end in
  match cmd with
  | Vardecl tipo vnome init =>
      st' ← checar_vardecl_local tipo vnome init st; Ok (st', encontrou_return)
  | Assign vnome e => _checar_assign vnome e st;; Ok (st, encontrou_return)
  | Call cnome args =>
      _checar_chamada_como_comando cnome args st;; Ok (st, encontrou_return)
  | Return e =>
      tipo_ret_esperado ← retorno;
      texpr ← avaliar_expressao_tipo st e;
      if String.eqb texpr tipo_ret_esperado then Ok (st, true)
      else erro (ReturnTypeMismatch nome texpr tipo_ret_esperado)
  | If cond corpo senao =>
      tcond ← avaliar_expressao_tipo st cond;
      if negb (String.eqb tcond "boolean") then erro (NonBooleanCondition "if")
      else
        st1 ← para_cada checar_elemento corpo (abrir_escopo st);
        st2 ← fechar_escopo st1;
        match senao with
        | Some cmds =>
            st3 ← para_cada checar_elemento cmds (abrir_escopo st2);
            st4 ← fechar_escopo st3;
            Ok (st4, encontrou_return)
        | None => Ok (st2, encontrou_return)
        end
  | While cond corpo =>
      tcond ← avaliar_expressao_tipo st cond;
      if negb (String.eqb tcond "boolean") then erro (NonBooleanCondition "while")
      else
        st1 ← para_cada checar_elemento corpo (abrir_escopo st);
        st2 ← fechar_escopo st1;
        Ok (st2, encontrou_return)
  | Print e => avaliar_expressao_tipo st e;; Ok (st, encontrou_return)
  | Jump op => st' ← checar_jump op st; Ok (st', encontrou_return)
  | Outro k =>
      if kind_e k "return"
      then retorno;; Falha (KeyError "expr")
      else st' ← checar_outro k st; Ok (st', encontrou_return)
  | _ => st' ← checar_elemento cmd st; Ok (st', encontrou_return)
  end.

Fixpoint checar_corpo (nome : string) (is_function : bool) (body : list node)
  (ac : estado * bool) : resultado (estado * bool) :=
  match body with
  | [] => Ok ac
  | cmd :: resto =>
      ac' ← checar_comando_corpo nome is_function cmd ac;
      checar_corpo nome is_function resto ac'
  end.

Definition _checar_corpo_funcional (nome : string) (params : parametros)
  (body : list node) (is_function : bool) (st : estado) : resultado estado :=
  st1 ← declarar_parametros params (abrir_escopo st);
  ac ← checar_corpo nome is_function body (st1, false);
  st2 ← fechar_escopo ac.1;
  if is_function && negb ac.2 then erro (MissingReturn nome) else Ok st2.

(** *** The program checker *)

(** First pass: global variables and signatures. *)
Definition primeiro_passe_elem (elem : node) (st : estado) : resultado estado :=
  match elem with
  | Vardecl tipo nome _ =>
      match escopos st with
      | [] => Falha IndexError
      | global :: internos =>
          if decide (is_Some (global !! nome))
          then erro (DuplicateDeclaration nome)
          else Ok (com_escopos st (<[nome := tipo]> global :: internos))
      end
  | Funcdecl nome tipo_ret params => registrar_funcao nome tipo_ret params st
  | Procdecl nome params => registrar_procedimento nome params st
  | Outro k =>
      if kind_e k "vardecl" || kind_e k "funcdecl" || kind_e k "procdecl"
      then Falha (KeyError "nome") else Ok st
  | _ => Ok st
  end.

Definition primeiro_passe : list node → estado → resultado estado :=
  para_cada primeiro_passe_elem.

(** The state of the second pass: the analyser plus the two local sets. *)
Record passe2 : Type := Passe2 {
  analisador : estado;
  funcbodies_encontrados : gset string;
  procbodies_encontrados : gset string
}.

Definition com_analisador (p : passe2) (st : estado) : passe2 :=
  Passe2 st (funcbodies_encontrados p) (procbodies_encontrados p).

Definition segundo_passe_elem (elem : node) (p : passe2) : resultado passe2 :=
  let st := analisador p in
  match elem with
  | Vardecl tipo nome init => checar_inicializador tipo init st;; Ok p
  | Assign nome e => _checar_assign nome e st;; Ok p
  | Call nome args => _checar_chamada_como_comando nome args st;; Ok p
  | Funcbody nome params body =>
      if negb (Dict.contem (tabela_funcoes st) nome)
      then erro (BodyWithoutDeclaration nome)
      else
        st' ← _checar_corpo_funcional nome params body true st;
        Ok (Passe2 st' ({[nome]} ∪ funcbodies_encontrados p)
              (procbodies_encontrados p))
  | Procbody nome params body =>
      if negb (Dict.contem (tabela_proceds st) nome)
      then erro (BodyWithoutDeclaration nome)
      else
        st' ← _checar_corpo_funcional nome params body false st;
        Ok (Passe2 st' (funcbodies_encontrados p)
              ({[nome]} ∪ procbodies_encontrados p))
  | If cond body senao =>
      tcond ← avaliar_expressao_tipo st cond;
      if negb (String.eqb tcond "boolean") then erro (NonBooleanCondition "if")
      else
        st1 ← para_cada checar_elemento body st;
        match senao with
        | Some cmds => st2 ← para_cada checar_elemento cmds st1; Ok (com_analisador p st2)
        | None => Ok (com_analisador p st1)
        end
  | While cond body =>
      tcond ← avaliar_expressao_tipo st cond;
      if negb (String.eqb tcond "boolean") then erro (NonBooleanCondition "while")
      else st1 ← para_cada checar_elemento body st; Ok (com_analisador p st1)
  | Outro k =>
      if kind_e k "vardecl" then Ok p
      else if kind_e k "funcbody" || kind_e k "procbody"
      then Falha (KeyError "nome")
      else st' ← checar_outro k st; Ok (com_analisador p st')
  | _ => st' ← checar_elemento elem st; Ok (com_analisador p st')
  end.

Fixpoint segundo_passe (elems : list node) (p : passe2) : resultado passe2 :=
  match elems with
  | [] => Ok p
  | elem :: resto => p' ← segundo_passe_elem elem p; segundo_passe resto p'
  end.

(** [for n in tabela: if n not in encontrados: raise] *)
Fixpoint exigir_corpos (nomes : list string) (encontrados : gset string)
  : resultado unit :=
  match nomes with
  | [] => Ok tt
  | n :: resto =>
      if decide (n ∈ encontrados) then exigir_corpos resto encontrados
      else erro (MissingBody n)
  end.

Definition terceiro_passe (p : passe2) : resultado unit :=
  exigir_corpos (Dict.chaves (tabela_funcoes (analisador p)))
    (funcbodies_encontrados p);;
  exigir_corpos (Dict.chaves (tabela_proceds (analisador p)))
    (procbodies_encontrados p).

(** The tables are cleared and the scope stack reset on entry, so the
    result does not depend on the analyser's earlier state; the state
    left on the instance is returned. *)
Definition checar_programa (lista_de_elementos : list node) : resultado estado :=
  st1 ← primeiro_passe lista_de_elementos (Estado [] [] [∅]);
  p ← segundo_passe lista_de_elementos (Passe2 st1 ∅ ∅);
  terceiro_passe p;;
  Ok (analisador p).

(** *** The example program of the [__main__] block *)

Definition int_lit (n : Z) : expr := ELit "int" (VInteiro n).
Definition bool_lit (b : bool) : expr := ELit "boolean" (VBooleano b).

Definition programa : list node :=
  [ Vardecl "int" "x" ENone;
    Funcdecl "soma" "int" [("int", "a"); ("int", "b")];
    Funcbody "soma" [("int", "a"); ("int", "b")]
      [Return (EBinop "+" (EVar "a") (EVar "b"))];
    Assign "x" (ECall "soma" [int_lit 3; int_lit 4]);
    Call "print" [EVar "x"] ].

(** *** Vocabulary of the properties *)

(** The kinds [checar_elemento] has a branch for. *)
Definition kinds_de_comando : list (option string) :=
  Some <$> ["assign"; "call"; "vardecl"; "if"; "while"; "print"; "jump"; "return"].

(** No name is both a function and a procedure. *)
Definition tabelas_disjuntas (st : estado) : Prop :=
  ∀ n, Dict.contem (tabela_funcoes st) n = true →
       Dict.contem (tabela_proceds st) n = false.

Definition mesmas_tabelas (st st' : estado) : Prop :=
  tabela_funcoes st' = tabela_funcoes st
  ∧ tabela_proceds st' = tabela_proceds st.

(** What a successful statement check may change: the tables not at all,
    and of a non-empty scope stack only the innermost scope, which may
    only grow. *)
Definition quadro (st st' : estado) : Prop :=
  mesmas_tabelas st st'
  ∧ ∀ base topo, escopos st = base ++ [topo] →
      ∃ topo', escopos st' = base ++ [topo'] ∧ topo ⊆ topo'.

(** A body statement that is a [return] node. *)
Definition e_return (cmd : node) : Prop := kind_of cmd = Some "return".

(** A function whose only returns sit in the two branches of an [if]. *)
Definition corpo_return_aninhado : list node :=
  [If (bool_lit true) [Return (int_lit 1)] (Some [Return (int_lit 2)])].

(** A variable declared in a branch of a top-level [if], then used after
    it. *)
Definition declara_no_ramo : node :=
  If (bool_lit true) [Vardecl "int" "y" ENone] None.

Definition programa_if_topo : list node :=
  [declara_no_ramo; Assign "y" (int_lit 1)].

(** The same two statements as the body of a function. *)
Definition programa_if_corpo : list node :=
  [Funcdecl "f" "int" [];
   Funcbody "f" [] [declara_no_ramo; Assign "y" (int_lit 1); Return (int_lit 1)]].

(** The names of the body nodes of a program. *)
Definition nomes_funcbody (elems : list node) : list string :=
  omap (λ elem, match elem with Funcbody n _ _ => Some n | _ => None end) elems.

Definition nomes_procbody (elems : list node) : list string :=
  omap (λ elem, match elem with Procbody n _ _ => Some n | _ => None end) elems.

(** No call to [nome], as an expression or as a statement. *)
Fixpoint expr_sem_chamada (nome : string) (e : expr) : bool :=
  match e with
  | EUnop _ e1 => expr_sem_chamada nome e1
  | EBinop _ l r => expr_sem_chamada nome l && expr_sem_chamada nome r
  | ECall n args =>
      negb (String.eqb n nome) && forallb (expr_sem_chamada nome) args
  | _ => true
  end.

Fixpoint node_sem_chamada (nome : string) (elem : node) : bool :=
  match elem with
  | Vardecl _ _ e | Assign _ e | Return e | Print e => expr_sem_chamada nome e
  | Call n args =>
      negb (String.eqb n nome) && forallb (expr_sem_chamada nome) args
  | If cond body senao =>
      expr_sem_chamada nome cond && forallb (node_sem_chamada nome) body
      && match senao with
         | Some cmds => forallb (node_sem_chamada nome) cmds
         | None => true
         end
  | While cond body =>
      expr_sem_chamada nome cond && forallb (node_sem_chamada nome) body
  | _ => true
  end.

(** Two analyser states that may differ only in the parameter list
    recorded for [nome]. *)
Definition concordam_fora_de (nome : string) (st st' : estado) : Prop :=
  escopos st = escopos st'
  ∧ (∀ n, n ≠ nome →
       Dict.get (tabela_funcoes st) n = Dict.get (tabela_funcoes st') n)
  ∧ (∀ n, n ≠ nome →
       Dict.get (tabela_proceds st) n = Dict.get (tabela_proceds st') n)
  ∧ fst <$> Dict.get (tabela_funcoes st) nome
    = fst <$> Dict.get (tabela_funcoes st') nome.

(** Two runs that raise the same exception or return related values. *)
Definition mesmo_resultado {A} (R : A → A → Prop) (r r' : resultado A) : Prop :=
  match r, r' with
  | Ok a, Ok a' => R a a'
  | Falha e, Falha e' => e = e'
  | _, _ => False
  end.

End Semantico.

(** * The lexical scanner

    [AnalisadorLexico] of [analisadores.py]; [Compilador/lexer.py] holds
    the same class.  The source text is a Python [str], a [texto]: the
    pattern is a [str] pattern, so [\d] is every decimal digit of the
    Unicode database and a column is a number of code points. *)

Module Token.
Inductive valor_t : Type :=
| VNum (n : Z)
| VTexto (txt : texto)
| VNone.

Record t : Type := Novo {
  tipo : texto;
  valor : valor_t;
  linha : Z;
  coluna : Z
}.
End Token.

Module Lexico.

Definition PALAVRAS_RESERVADAS : list texto :=
  codigos <$> ["int"; "boolean"; "procedure"; "if"; "else"; "while";
               "return"; "break"; "continue"; "print"; "true"; "false"].

(** The named groups of [PADROES], in the order of the alternation. *)
Inductive grupo : Type :=
| NUM | ID | OP | ATRIB | LPAREN | RPAREN | LBRACE | RBRACE | VIRG | PTO_V
| WS | NL | OUTRO.

#[global] Instance grupo_eq_dec : EqDecision grupo.
Proof. solve_decision. Defined.

(** [m.lastgroup] *)
Definition nome_grupo (g : grupo) : string :=
  match g with
  | NUM => "NUM" | ID => "ID" | OP => "OP" | ATRIB => "ATRIB"
  | LPAREN => "LPAREN" | RPAREN => "RPAREN" | LBRACE => "LBRACE"
  | RBRACE => "RBRACE" | VIRG => "VIRG" | PTO_V => "PTO_V"
  | WS => "WS" | NL => "NL" | OUTRO => "OUTRO"
  end.

Definition entre (lo hi : ascii) (c : N) : bool :=
  (cp lo <=? c)%N && (c <=? cp hi)%N.

(** The decimal digits of the Unicode database come in runs of ten, zero
    to nine; these are the code points of the zeros, for version 14.0.0
    of the database, the one of CPython 3.11: ASCII first, then
    Arabic-Indic, ..., up to the segmented digits at U+1FBF0. *)
Definition zeros_decimais : list N :=
  [48; 1632; 1776; 1984; 2406; 2534; 2662; 2790; 2918; 3046; 3174; 3302;
   3430; 3558; 3664; 3792; 3872; 4160; 4240; 6112; 6160; 6470; 6608; 6784;
   6800; 6992; 7088; 7232; 7248; 42528; 43216; 43264; 43472; 43504; 43600;
   44016; 65296; 66720; 68912; 69734; 69872; 69942; 70096; 70384; 70736;
   70864; 71248; 71360; 71472; 71904; 72016; 72784; 73040; 73120; 92768;
   92864; 93008; 120782; 120792; 120802; 120812; 120822; 123200; 123632;
   125264; 130032]%N.

(** The value of a decimal digit ([unicodedata.decimal]), [None] for any
    other character. *)
Definition valor_decimal (c : N) : option N :=
  (λ z, c - z)%N
    <$> List.find (λ z, (z <=? c)%N && (c <=? z + 9)%N) zeros_decimais.

(** [\d] *)
Definition e_digito (c : N) : bool :=
  match valor_decimal c with Some _ => true | None => false end.

(** [[A-Za-z_]] *)
Definition e_inicio_id (c : N) : bool :=
  entre "A" "Z" c || entre "a" "z" c || N.eqb c (cp "_").

(** [[A-Za-z0-9_]] *)
Definition e_resto_id (c : N) : bool :=
  entre "A" "Z" c || entre "a" "z" c || entre "0" "9" c || N.eqb c (cp "_").

(** [[+\-*/<>]] *)
Definition e_op_simples (c : N) : bool :=
  existsb (N.eqb c) [cp "+"; cp "-"; cp "*"; cp "/"; cp "<"; cp ">"].

(** [[ \t\r]] *)
Definition e_branco (c : N) : bool :=
  existsb (N.eqb c) [cp " "; cp "009"; cp "013"].

Definition nova_linha : N := cp "010".

(** The longest prefix whose characters satisfy [p], and what follows. *)
Fixpoint span (p : N → bool) (s : texto) : texto * texto :=
  match s with
  | [] => ([], [])
  | c :: r =>
      if p c then let '(a, b) := span p r in (c :: a, b) else ([], s)
  end.

(** [==|!=|>=|<=|[+\-*/<>]] at the head of [c :: r]. *)
Definition casar_op (c : N) (r : texto) : option (texto * texto) :=
  match r with
  | d :: r' =>
      if existsb (N.eqb c) [cp "="; cp "!"; cp ">"; cp "<"] && N.eqb d (cp "=")
      then Some ([c; d], r')
      else if e_op_simples c then Some ([c], r) else None
  | [] => if e_op_simples c then Some ([c], r) else None
  end.

(** One match of [REGEX] at the head of [s]: the first alternative that
    matches, its text and the rest of the input.  [None] only at the end of
    the input: [.] takes any character the others leave, except a newline,
    which [NL] takes. *)
Definition casar (s : texto) : option (grupo * texto * texto) :=
  match s with
  | [] => None
  | c :: r =>
      Some
        (if e_digito c then let '(a, b) := span e_digito r in (NUM, c :: a, b)
         else if e_inicio_id c
         then let '(a, b) := span e_resto_id r in (ID, c :: a, b)
         else match casar_op c r with
              | Some (txt, b) => (OP, txt, b)
              | None =>
                  if N.eqb c (cp "=") then (ATRIB, [c], r)
                  else if N.eqb c (cp "(") then (LPAREN, [c], r)
                  else if N.eqb c (cp ")") then (RPAREN, [c], r)
                  else if N.eqb c (cp "{") then (LBRACE, [c], r)
                  else if N.eqb c (cp "}") then (RBRACE, [c], r)
                  else if N.eqb c (cp ",") then (VIRG, [c], r)
                  else if N.eqb c (cp ";") then (PTO_V, [c], r)
                  else if e_branco c
                  then let '(a, b) := span e_branco r in (WS, c :: a, b)
                  else if N.eqb c nova_linha then (NL, [c], r)
                  else (OUTRO, [c], r)
              end)
  end.

(** [REGEX.finditer]: the successive matches, each starting where the
    previous one ended.  Every match takes at least one character, so the
    length of the input bounds their number. *)
Fixpoint finditer_ate (n : nat) (s : texto) : list (grupo * texto) :=
  match n with
  | O => []
  | S n' =>
      match casar s with
      | None => []
      | Some (g, txt, resto) => (g, txt) :: finditer_ate n' resto
      end
  end.

Definition finditer (s : texto) : list (grupo * texto) :=
  finditer_ate (length s) s.

(** [sys.int_info.default_max_str_digits]: the longest text [int] converts
    in the default configuration of the interpreter. *)
Definition int_max_str_digits : nat := 4300.

(** [int(txt)] for a text without sign, blanks or underscores, which is
    what a [NUM] match is: [ValueError] for a text longer than the
    interpreter's limit (leading zeros count), for an empty text and for
    one with a character that is no decimal digit; otherwise the number
    its digits write in base ten, whatever their scripts. *)
Definition int (txt : texto) : resultado Z :=
  if bool_decide (int_max_str_digits < length txt)%nat then Falha ValueError
  else
    match txt, mapM valor_decimal txt with
    | _ :: _, Some ds => Ok (fold_left (λ acc d, 10 * acc + Z.of_N d) ds 0)
    | _, _ => Falha ValueError
    end.

(** [txt.upper()] on the words of [PALAVRAS_RESERVADAS], the only texts
    it is applied to: the letters [a] to [z] become [A] to [Z]. *)
Definition upper (txt : texto) : texto :=
  (λ c, if entre "a" "z" c then (c - 32)%N else c) <$> txt.

(** The scanner instance: [self.tokens], [self.linha], [self.coluna]. *)
Record lexer : Type := Lexer {
  tokens : list Token.t;
  linha : Z;
  coluna : Z
}.

(** [AnalisadorLexico.__init__] *)
Definition lexer_inicial : lexer := Lexer [] 1 1.

Definition acrescentar (lx : lexer) (tipo : texto) (valor : Token.valor_t)
  : lexer :=
  Lexer (tokens lx ++ [Token.Novo tipo valor (linha lx) (coluna lx)])
    (linha lx) (coluna lx).

(** The body of the [for] loop for one match. *)
Definition passo (m : grupo * texto) (lx : lexer) : resultado lexer :=
  let '(tipo, txt) := m in
  lx1 ← match tipo with
        | NUM => n ← int txt; Ok (acrescentar lx (codigos "NUM") (Token.VNum n))
        | ID =>
            if bool_decide (txt ∈ PALAVRAS_RESERVADAS)
            then Ok (acrescentar lx (upper txt) (Token.VTexto txt))
            else Ok (acrescentar lx (codigos "ID") (Token.VTexto txt))
        | OP => Ok (acrescentar lx (codigos "OP") (Token.VTexto txt))
        | ATRIB => Ok (acrescentar lx (codigos "ATRIB") (Token.VTexto txt))
        | LPAREN | RPAREN | LBRACE | RBRACE | VIRG | PTO_V =>
            Ok (acrescentar lx (codigos (nome_grupo tipo)) (Token.VTexto txt))
        | WS => Ok lx
        | NL => Ok (Lexer (tokens lx) (linha lx + 1) 0)
        | OUTRO => Falha (ErroLexico txt (linha lx) (coluna lx))
        end;
  Ok (Lexer (tokens lx1) (linha lx1) (coluna lx1 + Z.of_nat (length txt))).

Fixpoint percorrer (ms : list (grupo * texto)) (lx : lexer)
  : resultado lexer :=
  match ms with
  | [] => Ok lx
  | m :: ms' => lx' ← passo m lx; percorrer ms' lx'
  end.

Definition analisar (codigo : texto) : resultado (list Token.t) :=
  lx ← percorrer (finditer codigo) lexer_inicial;
  Ok (tokens (acrescentar lx (codigos "EOF") Token.VNone)).

(** Line numbers never decrease along a token sequence. *)
Definition linhas_nao_decrescem (toks : list Token.t) : Prop :=
  StronglySorted (λ a b, Token.linha a ≤ Token.linha b) toks.


(** A match the loop body gets past: not the catch-all, and not a number
    longer than [int] converts. *)
Definition casamento_aceito (m : grupo * texto) : Prop :=
  m.1 ≠ OUTRO ∧ (m.1 = NUM → (length m.2 ≤ int_max_str_digits)%nat).

(** What the loop maintains: no token is the end marker, line numbers do
    not decrease, and none exceeds the current line. *)
Definition invariante (lx : lexer) : Prop :=
  Forall (λ t, Token.tipo t ≠ codigos "EOF") (tokens lx)
  ∧ linhas_nao_decrescem (tokens lx)
  ∧ Forall (λ t, Token.linha t ≤ linha lx) (tokens lx).



End Lexico.

(** * Further vocabulary

    Definitions used only by the further properties at the end. *)

Module SemanticoVoc.
Import Semantico.

(** A [return] that [checar_elemento] would meet: the node itself, or one
    in a branch of an [if] or in the body of a [while], at any depth. *)
Fixpoint contem_return (elem : node) : bool :=
  match elem with
  | Return _ => true
  | Outro k => kind_e k "return"
  | If _ body senao =>
      existsb contem_return body
      || match senao with
         | Some cmds => existsb contem_return cmds
         | None => false
         end
  | While _ body => existsb contem_return body
  | _ => false
  end.

(** The two types of the language. *)
Definition tipo_valido (t : string) : Prop := t = "int" ∨ t = "boolean".

(** Every variable in scope and every function returns one of the two
    types. *)
Definition ambiente_valido (st : estado) : Prop :=
  Forall (λ esc : gmap string string,
            ∀ n t, esc !! n = Some t → tipo_valido t) (escopos st)
  ∧ ∀ n t ps, Dict.get (tabela_funcoes st) n = Some (t, ps) → tipo_valido t.




End SemanticoVoc.

Module LexicoVoc.
Import Lexico.

(** The line and column reached by reading one more character: a line
    feed starts the next line at column 1, any other character moves one
    column to the right. *)
Definition avancar (pos : Z * Z) (c : N) : Z * Z :=
  if N.eqb c nova_linha then (pos.1 + 1, 1) else (pos.1, pos.2 + 1).

(** The one-based line and column of the character that follows [txt] in
    a text that starts with [txt]. *)
Definition posicao (txt : texto) : Z * Z := fold_left avancar txt (1, 1).


(** A character some pattern other than [OUTRO] matches on its own. *)
Definition caractere_valido (c : N) : bool :=
  e_digito c || e_inicio_id c || e_op_simples c
  || existsb (N.eqb c)
       [cp "="; cp "("; cp ")"; cp "{"; cp "}"; cp ","; cp ";"]
  || e_branco c || N.eqb c nova_linha.

Definition inicia_com_igual (r : texto) : bool :=
  match r with
  | d :: _ => N.eqb d (cp "=")
  | [] => false
  end.

(** Every character is valid on its own, except that [!] must be followed
    by [=]. *)
Fixpoint aceita (s : texto) : bool :=
  match s with
  | [] => true
  | c :: r =>
      (caractere_valido c || N.eqb c (cp "!") && inicia_com_igual r) && aceita r
  end.

(** No number of the text is longer than [int] converts. *)
Definition numeros_curtos (s : texto) : Prop :=
  Forall (λ m, m.1 = NUM → (length m.2 ≤ int_max_str_digits)%nat) (finditer s).

(** The kinds a token can have: the fixed ones and the upper-cased
    reserved words. *)
Definition tipos_de_token : list texto :=
  (codigos <$> ["NUM"; "ID"; "OP"; "ATRIB"; "LPAREN"; "RPAREN"; "LBRACE";
                "RBRACE"; "VIRG"; "PTO_V"; "EOF"])
  ++ (upper <$> PALAVRAS_RESERVADAS).

(** A token as the scanner builds it: a known kind; a number carries a
    non-negative value; an identifier carries a text that is no reserved
    word; line and column are at least 1. *)
Definition token_bem_formado (t : Token.t) : Prop :=
  Token.tipo t ∈ tipos_de_token
  ∧ (Token.tipo t = codigos "NUM" →
       ∃ n, Token.valor t = Token.VNum n ∧ 0 ≤ n)
  ∧ (Token.tipo t = codigos "ID" →
       ∃ txt, Token.valor t = Token.VTexto txt ∧ txt ∉ PALAVRAS_RESERVADAS)
  ∧ 1 ≤ Token.linha t ∧ 1 ≤ Token.coluna t.

(** The character [d] would have made a longer match of group [g] out of
    the text [txt]: one more digit, one more identifier character, one more
    blank, or the [=] that turns one of [= ! > <] into a two-character
    operator. *)
Definition continua (g : grupo) (txt : texto) (d : N) : bool :=
  match g with
  | NUM => e_digito d
  | ID => e_resto_id d
  | WS => e_branco d
  | OP | ATRIB | OUTRO =>
      match txt with
      | [c] =>
          existsb (N.eqb c) [cp "="; cp "!"; cp ">"; cp "<"] && N.eqb d (cp "=")
      | _ => false
      end
  | _ => false
  end.

(** The scanner between two matches: well-formed tokens, and a line and a
    column that are at least 1. *)
Definition estado_bem_formado (lx : lexer) : Prop :=
  Forall token_bem_formado (tokens lx) ∧ 1 ≤ linha lx ∧ 1 ≤ coluna lx.

End LexicoVoc.

(** * Facts about results *)

Lemma ligar_ok {A B} (m : resultado A) (f : A → resultado B) (b : B) :
  m ≫= f = Ok b ↔ ∃ a, m = Ok a ∧ f a = Ok b.
Proof.
  destruct m as [a|e]; simpl; split.
  - intros H. by exists a.
  - by intros (a' & [= <-] & H).
  - discriminate.
  - by intros (a' & [=] & _).
Qed.

Lemma ligar_Ok_l {A B} (a : A) (f : A → resultado B) : Ok a ≫= f = f a.
Proof. reflexivity. Qed.

Lemma ligar_Falha_l {A B} (e : excecao) (f : A → resultado B) :
  Falha e ≫= f = Falha e.
Proof. reflexivity. Qed.

(** * Properties of the semantic analyser *)

Module SemanticoProps.
Import Semantico.

(** Settle a closed decidable proposition by evaluation. *)
Ltac decidir := apply (bool_decide_unpack _); vm_compute; exact I.

(** ** Auxiliary facts *)

Lemma avaliar_binop_eq (st : estado) (op : string) (l r : expr) :
  avaliar_expressao_tipo st (EBinop op l r) =
    tleft ← avaliar_expressao_tipo st l;
    tright ← avaliar_expressao_tipo st r;
    if pertence op aritmeticos then
      if negb (String.eqb tleft "int") || negb (String.eqb tright "int")
      then erro (OperandType op) else Ok "int"
    else if pertence op relacionais then
      if String.eqb tleft tright then Ok "boolean"
      else erro (TypeMismatch tleft tright)
    else if pertence op logicos then
      if negb (String.eqb tleft "boolean") || negb (String.eqb tright "boolean")
      then erro (OperandType op) else Ok "boolean"
    else erro (UnknownOperator (Some op)).
Proof. reflexivity. Qed.

Lemma pertence_elem_of (s : string) (l : list string) :
  pertence s l = true ↔ s ∈ l.
Proof.
  unfold pertence. rewrite existsb_exists. split.
  - intros (x & Hin & Heq). apply String.eqb_eq in Heq as ->.
    by apply list_elem_of_In.
  - intros Hin. exists s. split; [by apply list_elem_of_In|].
    apply String.eqb_refl.
Qed.

(** A dict with nothing but its kind never evaluates to a type. *)
Lemma avaliar_outro_falha (k : option string) (t : string) :
  avaliar_outro k ≠ Ok t.
Proof. unfold avaliar_outro. by repeat case_match. Qed.

Lemma kind_e_false (k : option string) (s : string) :
  k ≠ Some s → kind_e k s = false.
Proof.
  destruct k as [k'|]; simpl; [|done].
  intros Hne. apply String.eqb_neq. congruence.
Qed.

(** ** C1: the example program *)

(** C1 (as stated): the five-node example program, whose last node is a
    call statement naming [print], is accepted.  It is not: the call is
    rejected. *)
Lemma C1_programa_nao_aceito :
  ¬ ∃ st, checar_programa programa = Ok st.
Proof. intros [st H]. vm_compute in H. discriminate. Qed.

(** C1 (amended): on the example program [checar_programa] fails with
    [UndeclaredCallee "print"], raised by the call-statement checker at the
    last node because [print] is in neither signature table; the first four
    nodes alone are accepted, and so is the program whose last node is the
    print statement [print(x)] instead of the call. *)
Theorem C1_programa_chamada_print :
  checar_programa programa = erro (UndeclaredCallee "print")
  ∧ sucedeu (checar_programa (take 4 programa)) = true
  ∧ sucedeu (checar_programa (take 4 programa ++ [Print (EVar "x")])) = true.
Proof. repeat split; vm_compute; reflexivity. Qed.

(** ** C4: binary operators *)

(** C4: once both operands have a type, an arithmetic operator yields
    [int] exactly when both are [int] and fails otherwise, and a relational
    operator yields [boolean] exactly when the two types are equal and fails
    with [TypeMismatch] otherwise; a failing operand makes the whole
    expression fail, the left one first. *)
Theorem C4_tipo_binop (st : estado) (op : string) (l r : expr) (tl tr : string) :
  avaliar_expressao_tipo st l = Ok tl →
  avaliar_expressao_tipo st r = Ok tr →
  (op ∈ aritmeticos →
     avaliar_expressao_tipo st (EBinop op l r) =
       if decide (tl = "int" ∧ tr = "int") then Ok "int"
       else erro (OperandType op))
  ∧ (op ∈ relacionais →
     avaliar_expressao_tipo st (EBinop op l r) =
       if decide (tl = tr) then Ok "boolean" else erro (TypeMismatch tl tr)).
Proof.
  intros Hl Hr. split; intros Hop.
  - apply pertence_elem_of in Hop.
    rewrite avaliar_binop_eq, Hl, ligar_Ok_l, Hr, ligar_Ok_l, Hop.
    destruct (String.eqb_spec tl "int"), (String.eqb_spec tr "int"),
      (decide (tl = "int" ∧ tr = "int")); simpl;
      try reflexivity; exfalso; tauto.
  - assert (pertence op aritmeticos = false) as Hn.
    { unfold relacionais in Hop. set_unfold in Hop.
      destruct Hop as [->|[->|[->|[->|[->|[->|[]]]]]]]; reflexivity. }
    apply pertence_elem_of in Hop.
    rewrite avaliar_binop_eq, Hl, ligar_Ok_l, Hr, ligar_Ok_l, Hn, Hop.
    destruct (String.eqb_spec tl tr), (decide (tl = tr));
      try reflexivity; contradiction.
Qed.

Lemma C4_tipo_binop_operando_falha (st : estado) (op : string) (l r : expr) :
  (∀ e, avaliar_expressao_tipo st l = Falha e →
        avaliar_expressao_tipo st (EBinop op l r) = Falha e)
  ∧ (∀ tl e, avaliar_expressao_tipo st l = Ok tl →
        avaliar_expressao_tipo st r = Falha e →
        avaliar_expressao_tipo st (EBinop op l r) = Falha e).
Proof.
  split.
  - intros e H. by rewrite avaliar_binop_eq, H.
  - intros tl e Hl Hr. by rewrite avaliar_binop_eq, Hl, ligar_Ok_l, Hr.
Qed.

(** The four instances named by the specification. *)
Lemma C4_tipo_binop_exemplos :
  avaliar_expressao_tipo estado_inicial (EBinop "+" (int_lit 1) (int_lit 2)) = Ok "int"
  ∧ avaliar_expressao_tipo estado_inicial (EBinop "+" (int_lit 1) (bool_lit true))
    = erro (OperandType "+")
  ∧ avaliar_expressao_tipo estado_inicial (EBinop "==" (int_lit 1) (int_lit 2))
    = Ok "boolean"
  ∧ avaliar_expressao_tipo estado_inicial (EBinop "==" (int_lit 1) (bool_lit true))
    = erro (TypeMismatch "int" "boolean").
Proof.
  pose proof (C4_tipo_binop estado_inicial "+" (int_lit 1) (int_lit 2)
                "int" "int" eq_refl eq_refl) as [H1 _].
  pose proof (C4_tipo_binop estado_inicial "+" (int_lit 1) (bool_lit true)
                "int" "boolean" eq_refl eq_refl) as [H2 _].
  pose proof (C4_tipo_binop estado_inicial "==" (int_lit 1) (int_lit 2)
                "int" "int" eq_refl eq_refl) as [_ H3].
  pose proof (C4_tipo_binop estado_inicial "==" (int_lit 1) (bool_lit true)
                "int" "boolean" eq_refl eq_refl) as [_ H4].
  split; [|split; [|split]].
  - apply H1. decidir.
  - apply H2. decidir.
  - apply H3. decidir.
  - apply H4. decidir.
Defined.

(** ** C7: declaration and lookup in the scope stack *)

Lemma declarar_variavel_atual_topo (st : estado)
  (externos : list (gmap string string)) (atual : gmap string string)
  (nome tipo : string) :
  escopos st = externos ++ [atual] →
  declarar_variavel_atual nome tipo st =
    if decide (is_Some (atual !! nome)) then erro (DuplicateDeclaration nome)
    else Ok (com_escopos st (externos ++ [<[nome := tipo]> atual])).
Proof.
  intros Hes. unfold declarar_variavel_atual. rewrite Hes, last_snoc.
  destruct (decide (is_Some (atual !! nome))); [done|].
  do 2 f_equal. rewrite length_app. simpl.
  replace (pred (length externos + 1)) with (length externos) by lia.
  rewrite insert_app_r_alt by lia. by rewrite Nat.sub_diag.
Qed.

Lemma buscar_em_app (l1 l2 : list (gmap string string)) (nome : string) :
  Forall (λ e, e !! nome = None) l1 →
  buscar_em (l1 ++ l2) nome = buscar_em l2 nome.
Proof.
  induction 1 as [|e l1 He _ IH]; simpl; [done|]. by rewrite He.
Qed.

(** C7: with [atual] the innermost scope, declaring a name bound in
    [atual] fails with [DuplicateDeclaration]; declaring a name not bound
    in [atual] succeeds whatever the outer scopes bind, updates only
    [atual], and the new binding is the one lookup then finds (shadowing);
    lookup returns the type held by the innermost scope that binds the
    name, and nothing when no scope binds it. *)
Theorem C7_declaracao_e_busca (st : estado)
  (externos : list (gmap string string)) (atual : gmap string string)
  (nome tipo : string) :
  escopos st = externos ++ [atual] →
  (is_Some (atual !! nome) →
     declarar_variavel_atual nome tipo st = erro (DuplicateDeclaration nome))
  ∧ (atual !! nome = None →
     declarar_variavel_atual nome tipo st =
       Ok (com_escopos st (externos ++ [<[nome := tipo]> atual]))
     ∧ buscar_variavel (com_escopos st (externos ++ [<[nome := tipo]> atual])) nome
       = Some tipo)
  ∧ (∀ fora esc dentro t,
       escopos st = fora ++ esc :: dentro →
       Forall (λ e, e !! nome = None) dentro →
       esc !! nome = Some t →
       buscar_variavel st nome = Some t)
  ∧ (Forall (λ e, e !! nome = None) (escopos st) →
     buscar_variavel st nome = None).
Proof.
  intros Hes. split; [|split; [|split]].
  - intros Hin. rewrite (declarar_variavel_atual_topo st externos atual) by done.
    by rewrite decide_True.
  - intros Hnone. split.
    + rewrite (declarar_variavel_atual_topo st externos atual) by done.
      rewrite decide_False; [done|]. rewrite Hnone. by intros [? ?].
    + unfold buscar_variavel. simpl. rewrite reverse_snoc. simpl.
      by rewrite lookup_insert_eq.
  - intros fora esc dentro t Hsplit Hdentro Hesc.
    unfold buscar_variavel. rewrite Hsplit, reverse_app, reverse_cons, <- app_assoc.
    rewrite buscar_em_app by by apply Forall_reverse.
    simpl. by rewrite Hesc.
  - intros Hall. unfold buscar_variavel.
    rewrite <- (app_nil_r (reverse (escopos st))).
    rewrite buscar_em_app by by apply Forall_reverse. done.
Qed.

(** An inner scope that does not bind [x] over a global scope that does:
    re-declaring [x] succeeds and shadows the global binding. *)
Lemma C7_declaracao_e_busca_exemplo :
  let st := Estado [] [] [{["x" := "int"]}; ∅] in
  buscar_variavel st "x" = Some "int"
  ∧ declarar_variavel_atual "x" "boolean" st
    = Ok (Estado [] [] [{["x" := "int"]}; {["x" := "boolean"]}])
  ∧ buscar_variavel (Estado [] [] [{["x" := "int"]}; {["x" := "boolean"]}]) "x"
    = Some "boolean"
  ∧ declarar_variavel_atual "x" "int"
      (Estado [] [] [{["x" := "int"]}; {["x" := "boolean"]}])
    = erro (DuplicateDeclaration "x").
Proof.
  intros st.
  destruct (C7_declaracao_e_busca st [{["x" := "int"]}] ∅ "x" "boolean" eq_refl)
    as (_ & Hdecl & Hbusca & _).
  destruct (C7_declaracao_e_busca
              (Estado [] [] [{["x" := "int"]}; {["x" := "boolean"]}])
              [{["x" := "int"]}] {["x" := "boolean"]} "x" "int" eq_refl)
    as (Hdup & _).
  split; [|split; [|split]].
  - apply (Hbusca [] {["x" := "int"]} [∅] "int" eq_refl).
    + repeat constructor.
    + reflexivity.
  - apply Hdecl. reflexivity.
  - apply Hdecl. reflexivity.
  - apply Hdup. eexists. reflexivity.
Defined.

(** ** C10: kinds the single-statement checker does not know *)

(** C10: a node whose kind is none of assign, call, vardecl, if, while,
    print, jump, return is accepted by [checar_elemento], which returns the
    state it was given (scope stack and both tables untouched); the same
    holds when the node is a direct statement of a function or procedure
    body, where the return flag is left as it was too. *)
Theorem C10_kind_desconhecido_aceito (elem : node) (st : estado) :
  kind_of elem ∉ kinds_de_comando →
  checar_elemento elem st = Ok st
  ∧ ∀ nome is_function encontrou,
      checar_comando_corpo nome is_function elem (st, encontrou)
        = Ok (st, encontrou).
Proof.
  unfold kinds_de_comando. intros Hk.
  repeat (apply not_elem_of_cons in Hk as [? Hk]).
  destruct elem; simpl in *; try congruence; try (split; [done|by intros]).
  assert (checar_outro kind st = Ok st) as Ho.
  { unfold checar_outro. by rewrite !kind_e_false. }
  split; [done|]. intros nome isf enc.
  rewrite (kind_e_false kind "return") by done. by rewrite Ho.
Qed.

Lemma C10_kind_desconhecido_aceito_exemplo :
  checar_elemento (Outro (Some "for")) estado_inicial = Ok estado_inicial
  ∧ checar_elemento (Funcdecl "f" "int" []) estado_inicial = Ok estado_inicial
  ∧ checar_elemento (Outro None) estado_inicial = Ok estado_inicial.
Proof.
  split; [|split].
  - apply (C10_kind_desconhecido_aceito (Outro (Some "for")) estado_inicial).
    decidir.
  - apply (C10_kind_desconhecido_aceito (Funcdecl "f" "int" []) estado_inicial).
    decidir.
  - apply (C10_kind_desconhecido_aceito (Outro None) estado_inicial).
    decidir.
Defined.

(** ** C6: calls inside expressions *)

Lemma avaliar_call_eq (st : estado) (nome : string) (args : list expr) :
  avaliar_expressao_tipo st (ECall nome args) =
    match Dict.get (tabela_funcoes st) nome with
    | Some (tipo_retorno, params) =>
        if negb (Nat.eqb (length params) (length args))
        then erro (ArityMismatch nome)
        else checar_args (avaliar_expressao_tipo st) nome params 0%nat args;;
             Ok tipo_retorno
    | None =>
        if Dict.contem (tabela_proceds st) nome
        then erro (ProcedureUsedAsValue nome)
        else erro (UndeclaredCallee nome)
    end.
Proof. reflexivity. Qed.

Lemma checar_args_cons (f : expr → resultado string) (nome : string)
  (params : parametros) (idx : nat) (arg : expr) (resto : list expr) :
  checar_args f nome params idx (arg :: resto) =
    t ← f arg;
    match params !! idx with
    | None => Falha IndexError
    | Some (esperado, _) =>
        if String.eqb t esperado then checar_args f nome params (S idx) resto
        else erro (ArgumentTypeMismatch nome (S idx) t esperado)
    end.
Proof. reflexivity. Qed.

(** The argument loop succeeds exactly when every argument has the type of
    the parameter at its position; with as many arguments left as
    parameters, no subscript is out of range. *)
Lemma checar_args_ok (f : expr → resultado string) (nome : string)
  (params : parametros) (args : list expr) (idx : nat) :
  (length args + idx = length params)%nat →
  checar_args f nome params idx args = Ok tt
  ↔ Forall2 (λ arg p, f arg = Ok p.1) args (drop idx params).
Proof.
  revert idx. induction args as [|arg resto IH]; intros idx Hlen; simpl in Hlen.
  - rewrite drop_ge by lia. split; [constructor|done].
  - destruct (lookup_lt_is_Some_2 params idx) as [[esperado pn] Hp]; [lia|].
    rewrite (drop_S _ _ _ Hp), checar_args_cons.
    destruct (f arg) as [t|e] eqn:Hfa;
      [rewrite ligar_Ok_l, Hp|rewrite ligar_Falha_l].
    + destruct (String.eqb_spec t esperado) as [->|Hne].
      * rewrite IH by lia. split.
        -- intros Hresto. by constructor.
        -- by inversion 1.
      * split; [done|]. inversion 1; simplify_eq/=. congruence.
    + split; [done|]. inversion 1; simplify_eq/=. congruence.
Qed.

(** The first argument that has a type other than its parameter's is the
    one reported, by its one-based position. *)
Lemma checar_args_primeiro_errado (f : expr → resultado string) (nome : string)
  (params : parametros) (antes : list expr) (arg : expr) (depois : list expr)
  (idx : nat) (t : string) (p : string * string) :
  Forall2 (λ a q, f a = Ok q.1) antes (take (length antes) (drop idx params)) →
  params !! (idx + length antes)%nat = Some p →
  f arg = Ok t → t ≠ p.1 →
  checar_args f nome params idx (antes ++ arg :: depois)
  = erro (ArgumentTypeMismatch nome (S (idx + length antes)) t p.1).
Proof.
  revert idx. induction antes as [|a antes IH]; intros idx Hantes Hp Harg Hne;
    simpl app; rewrite checar_args_cons; simpl length in *.
  - rewrite Nat.add_0_r in *. rewrite Harg, ligar_Ok_l, Hp. destruct p as [esp pn].
    simpl in *. by destruct (String.eqb_spec t esp).
  - destruct (drop idx params) as [|q qs] eqn:Hd; [inversion Hantes|].
    simpl in Hantes. apply Forall2_cons in Hantes as [Ha Hantes].
    assert (params !! idx = Some q) as Hq.
    { rewrite <- (Nat.add_0_r idx), <- lookup_drop, Hd. done. }
    assert (drop (S idx) params = qs) as Hqs.
    { by rewrite (drop_S _ _ _ Hq) in Hd; simplify_eq. }
    rewrite Ha, ligar_Ok_l, Hq. destruct q as [esp pn]. simpl fst.
    rewrite String.eqb_refl.
    replace (S (idx + S (length antes))) with (S (S idx + length antes)) by lia.
    apply IH; try done.
    + by rewrite Hqs.
    + by replace (S idx + length antes)%nat with (idx + S (length antes))%nat by lia.
Qed.

(** C6: a call inside an expression.  A procedure name fails with
    [ProcedureUsedAsValue].  A function name fails with [ArityMismatch]
    when the argument count is not the parameter count, whatever the
    arguments are; with equal counts it returns the declared return type
    exactly when every argument has its parameter's type, so an argument
    of any other type makes it fail.  A name in neither table fails with
    [UndeclaredCallee]. *)
Theorem C6_chamada_em_expressao (st : estado) (nome : string) (args : list expr) :
  tabelas_disjuntas st →
  (Dict.contem (tabela_proceds st) nome = true →
     avaliar_expressao_tipo st (ECall nome args) = erro (ProcedureUsedAsValue nome))
  ∧ (∀ tipo_retorno params,
       Dict.get (tabela_funcoes st) nome = Some (tipo_retorno, params) →
       (length params ≠ length args →
          avaliar_expressao_tipo st (ECall nome args) = erro (ArityMismatch nome))
       ∧ (length params = length args →
          (Forall2 (λ arg p, avaliar_expressao_tipo st arg = Ok p.1) args params →
             avaliar_expressao_tipo st (ECall nome args) = Ok tipo_retorno)
          ∧ (∀ i arg p t,
               args !! i = Some arg → params !! i = Some p →
               avaliar_expressao_tipo st arg = Ok t → t ≠ p.1 →
               sucedeu (avaliar_expressao_tipo st (ECall nome args)) = false)
          ∧ (∀ t, avaliar_expressao_tipo st (ECall nome args) = Ok t →
               t = tipo_retorno
               ∧ Forall2 (λ arg p, avaliar_expressao_tipo st arg = Ok p.1)
                   args params)))
  ∧ (Dict.contem (tabela_funcoes st) nome = false →
     Dict.contem (tabela_proceds st) nome = false →
     avaliar_expressao_tipo st (ECall nome args) = erro (UndeclaredCallee nome)).
Proof.
  intros Hdisj. rewrite avaliar_call_eq. split; [|split].
  - intros Hproc. destruct (Dict.get (tabela_funcoes st) nome) as [[tr ps]|] eqn:Hf.
    + assert (Dict.contem (tabela_funcoes st) nome = true) as Hc.
      { unfold Dict.contem. by rewrite Hf. }
      apply Hdisj in Hc. congruence.
    + by rewrite Hproc.
  - intros tr params ->. split.
    + intros Hne. apply Nat.eqb_neq in Hne. by rewrite Hne.
    + intros Heq. rewrite (proj2 (Nat.eqb_eq _ _) Heq). simpl.
      pose proof (checar_args_ok (avaliar_expressao_tipo st) nome params args 0) as Hok.
      rewrite drop_0 in Hok. specialize (Hok ltac:(lia)).
      assert (∀ t, checar_args (avaliar_expressao_tipo st) nome params 0 args
                   ≫= (λ _, Ok tr) = Ok t →
                   t = tr ∧ Forall2 (λ arg p, avaliar_expressao_tipo st arg = Ok p.1)
                              args params) as Hinv.
      { intros t Hr. apply ligar_ok in Hr as ([] & Hr & [= <-]).
        split; [done|]. by apply Hok. }
      split; [|split].
      * intros Hall. apply Hok in Hall. by rewrite Hall.
      * intros i arg p t Hi Hp Harg Hne.
        destruct (checar_args _ _ _ _ _ ≫= _) as [t'|e] eqn:Hr; [|done].
        destruct (Hinv t' eq_refl) as [_ Hall].
        pose proof (Forall2_lookup_lr _ _ _ _ _ _ Hall Hi Hp). congruence.
      * done.
  - intros Hf Hp. unfold Dict.contem in Hf.
    destruct (Dict.get (tabela_funcoes st) nome); [done|]. by rewrite Hp.
Qed.

(** ** C6 (continued): an instance *)

Lemma C6_chamada_em_expressao_exemplo :
  let st := Estado [("soma", ("int", [("int", "a"); ("int", "b")]))] [("p", [])] [∅] in
  avaliar_expressao_tipo st (ECall "p" []) = erro (ProcedureUsedAsValue "p")
  ∧ avaliar_expressao_tipo st (ECall "soma" [bool_lit true]) = erro (ArityMismatch "soma")
  ∧ avaliar_expressao_tipo st (ECall "soma" [int_lit 3; int_lit 4]) = Ok "int"
  ∧ sucedeu (avaliar_expressao_tipo st (ECall "soma" [int_lit 3; bool_lit true])) = false
  ∧ avaliar_expressao_tipo st (ECall "g" []) = erro (UndeclaredCallee "g").
Proof.
  intros st.
  assert (tabelas_disjuntas st) as Hd.
  { intros n Hn. subst st. unfold Dict.contem in *. cbn -[String.eqb] in *.
    destruct (String.eqb_spec "soma" n) as [Heq|]; [|discriminate].
    rewrite <- Heq. reflexivity. }
  split; [|split; [|split; [|split]]].
  - apply (C6_chamada_em_expressao st "p" [] Hd). reflexivity.
  - destruct (C6_chamada_em_expressao st "soma" [bool_lit true] Hd) as (_ & Hf & _).
    destruct (Hf "int" [("int", "a"); ("int", "b")] eq_refl) as [Har _].
    apply Har. simpl. lia.
  - destruct (C6_chamada_em_expressao st "soma" [int_lit 3; int_lit 4] Hd)
      as (_ & Hf & _).
    destruct (Hf "int" [("int", "a"); ("int", "b")] eq_refl) as [_ Hty].
    destruct (Hty eq_refl) as [Hok _]. apply Hok. repeat constructor.
  - destruct (C6_chamada_em_expressao st "soma" [int_lit 3; bool_lit true] Hd)
      as (_ & Hf & _).
    destruct (Hf "int" [("int", "a"); ("int", "b")] eq_refl) as [_ Hty].
    destruct (Hty eq_refl) as (_ & Hbad & _).
    apply (Hbad 1%nat (bool_lit true) ("int", "b") "boolean");
      [reflexivity|reflexivity|reflexivity|discriminate].
  - apply (C6_chamada_em_expressao st "g" [] Hd); reflexivity.
Defined.

(** ** The tables after the first pass *)

Lemma dict_get_set {V} (d : Dict.t V) (k n : string) (v : V) :
  Dict.get (Dict.set d k v) n = if String.eqb k n then Some v else Dict.get d n.
Proof.
  induction d as [|[k' v'] d IH]; simpl.
  - done.
  - destruct (String.eqb_spec k' k) as [->|Hne]; simpl.
    + by destruct (String.eqb k n).
    + rewrite IH. destruct (String.eqb_spec k' n) as [->|]; [|done].
      destruct (String.eqb_spec k n); congruence.
Qed.

Lemma dict_contem_set {V} (d : Dict.t V) (k n : string) (v : V) :
  Dict.contem (Dict.set d k v) n = String.eqb k n || Dict.contem d n.
Proof.
  unfold Dict.contem. rewrite dict_get_set. by destruct (String.eqb k n).
Qed.

Lemma dict_contem_chaves {V} (d : Dict.t V) (n : string) :
  Dict.contem d n = true ↔ n ∈ Dict.chaves d.
Proof.
  unfold Dict.contem, Dict.chaves. induction d as [|[k v] d IH]; simpl.
  - split; [done|]. by intros ?%elem_of_nil.
  - rewrite elem_of_cons. destruct (String.eqb_spec k n) as [->|Hne].
    + naive_solver.
    + rewrite IH. naive_solver.
Qed.

Lemma primeiro_passe_elem_disjuntas (elem : node) (st st' : estado) :
  tabelas_disjuntas st →
  primeiro_passe_elem elem st = Ok st' →
  tabelas_disjuntas st'.
Proof.
  intros Hd. destruct elem; simpl; try by intros [= <-].
  - destruct (escopos st); [done|]. case_decide; [done|]. by intros [= <-].
  - unfold registrar_funcao.
    destruct (Dict.contem (tabela_funcoes st) nome) eqn:Hf; [done|].
    destruct (Dict.contem (tabela_proceds st) nome) eqn:Hp; [done|].
    intros [= <-] n. simpl. rewrite dict_contem_set.
    destruct (String.eqb_spec nome n) as [<-|]; [done|]. apply Hd.
  - unfold registrar_procedimento.
    destruct (Dict.contem (tabela_funcoes st) nome) eqn:Hf; [done|].
    destruct (Dict.contem (tabela_proceds st) nome) eqn:Hp; [done|].
    intros [= <-] n. simpl. rewrite dict_contem_set.
    destruct (String.eqb_spec nome n) as [<-|]; [congruence|]. apply Hd.
  - destruct (_ || _); [done|]. by intros [= <-].
Qed.

(** Registration keeps the two tables disjoint, so every state the second
    pass runs in satisfies the hypothesis of C6. *)
Lemma primeiro_passe_disjuntas (elems : list node) (st st' : estado) :
  tabelas_disjuntas st →
  primeiro_passe elems st = Ok st' →
  tabelas_disjuntas st'.
Proof.
  revert st. induction elems as [|elem elems IH]; intros st Hd; simpl.
  - by intros [= <-].
  - intros (st1 & H1 & H2)%ligar_ok.
    eapply IH; [|exact H2]. by eapply primeiro_passe_elem_disjuntas.
Qed.

(** ** What a statement check leaves unchanged *)

(** Induction on nodes that reaches the statements of bodies and
    branches. *)
Lemma node_ind_aninhada (P : node → Prop) :
  (∀ tipo nome init, P (Vardecl tipo nome init)) →
  (∀ nome tipo params, P (Funcdecl nome tipo params)) →
  (∀ nome params, P (Procdecl nome params)) →
  (∀ nome params body, Forall P body → P (Funcbody nome params body)) →
  (∀ nome params body, Forall P body → P (Procbody nome params body)) →
  (∀ nome e, P (Assign nome e)) →
  (∀ nome args, P (Call nome args)) →
  (∀ e, P (Return e)) →
  (∀ cond body senao,
     Forall P body → (∀ cmds, senao = Some cmds → Forall P cmds) →
     P (If cond body senao)) →
  (∀ cond body, Forall P body → P (While cond body)) →
  (∀ e, P (Print e)) →
  (∀ op, P (Jump op)) →
  (∀ k, P (Outro k)) →
  ∀ elem, P elem.
Proof.
  intros Hv Hfd Hpd Hfb Hpb Ha Hc Hr Hi Hw Hp Hj Ho.
  fix IH 1. intros elem.
  destruct elem as
    [tipo nome init|nome tipo params|nome params|nome params body
    |nome params body|nome e|nome args|e|cond body senao|cond body|e|op|k].
  - apply Hv.
  - apply Hfd.
  - apply Hpd.
  - apply Hfb. induction body as [|x l IHl]; constructor; [apply IH|exact IHl].
  - apply Hpb. induction body as [|x l IHl]; constructor; [apply IH|exact IHl].
  - apply Ha.
  - apply Hc.
  - apply Hr.
  - apply Hi.
    + induction body as [|x l IHl]; constructor; [apply IH|exact IHl].
    + destruct senao as [cmds|]; intros cmds' [=]. subst cmds'.
      induction cmds as [|x l IHl]; constructor; [apply IH|exact IHl].
  - apply Hw. induction body as [|x l IHl]; constructor; [apply IH|exact IHl].
  - apply Hp.
  - apply Hj.
  - apply Ho.
Qed.

Lemma fechar_escopo_tabelas (st st' : estado) :
  fechar_escopo st = Ok st' → mesmas_tabelas st st'.
Proof.
  unfold fechar_escopo. destruct (_ =? _)%nat; [by intros [= <-]|].
  destruct (escopos st); [done|]. by intros [= <-].
Qed.

Lemma declarar_variavel_atual_tabelas (nome tipo : string) (st st' : estado) :
  declarar_variavel_atual nome tipo st = Ok st' → mesmas_tabelas st st'.
Proof.
  unfold declarar_variavel_atual. destruct (last _); [|done].
  case_decide; [done|]. by intros [= <-].
Qed.

Lemma mesmas_tabelas_trans (st1 st2 st3 : estado) :
  mesmas_tabelas st1 st2 → mesmas_tabelas st2 st3 → mesmas_tabelas st1 st3.
Proof. intros [? ?] [? ?]. split; congruence. Qed.

Lemma para_cada_tabelas {A} (f : A → estado → resultado estado) (xs : list A) :
  Forall (λ x, ∀ st st', f x st = Ok st' → mesmas_tabelas st st') xs →
  ∀ st st', para_cada f xs st = Ok st' → mesmas_tabelas st st'.
Proof.
  induction 1 as [|x xs Hx _ IH]; intros st st'; simpl.
  - by intros [= <-].
  - intros (st1 & H1 & H2)%ligar_ok.
    eapply mesmas_tabelas_trans; [by apply Hx|by apply IH].
Qed.

Lemma bloco_tabelas (cmds : list node) (st st1 st2 : estado) :
  Forall (λ x, ∀ st st', checar_elemento x st = Ok st' → mesmas_tabelas st st') cmds →
  para_cada checar_elemento cmds (abrir_escopo st) = Ok st1 →
  fechar_escopo st1 = Ok st2 →
  mesmas_tabelas st st2.
Proof.
  intros Hall Hc Hf. apply (para_cada_tabelas _ _ Hall) in Hc.
  apply fechar_escopo_tabelas in Hf.
  eapply mesmas_tabelas_trans; [exact Hc|exact Hf].
Qed.

Lemma checar_elemento_tabelas (elem : node) :
  ∀ st st', checar_elemento elem st = Ok st' → mesmas_tabelas st st'.
Proof.
  induction elem as
    [tipo nome init| | | | |nome e|nome args|e|cond body senao Hbody Hsenao
    |cond body Hbody|e|op|k] using node_ind_aninhada; intros st st'; simpl;
    try (by intros [= <-]).
  - unfold checar_vardecl_local.
    intros (st1 & Hd & (? & _ & [= <-])%ligar_ok)%ligar_ok.
    by eapply declarar_variavel_atual_tabelas.
  - by intros (? & _ & [= <-])%ligar_ok.
  - by intros (? & _ & [= <-])%ligar_ok.
  - intros (tcond & _ & H)%ligar_ok. destruct (negb _); [done|].
    apply ligar_ok in H as (st1 & Hb & (st2 & Hf & H)%ligar_ok).
    pose proof (bloco_tabelas _ _ _ _ Hbody Hb Hf) as H12.
    destruct senao as [cmds|].
    + apply ligar_ok in H as (st3 & Hb' & Hf').
      eapply mesmas_tabelas_trans; [exact H12|].
      by eapply bloco_tabelas; [apply Hsenao| |].
    + by injection H as <-.
  - intros (tcond & _ & H)%ligar_ok. destruct (negb _); [done|].
    apply ligar_ok in H as (st1 & Hb & Hf). by eapply bloco_tabelas.
  - by intros (? & _ & [= <-])%ligar_ok.
  - unfold checar_jump. destruct (_ || _); [|done]. by intros [= <-].
  - unfold checar_outro, checar_jump.
    repeat (destruct (kind_e k _); [done|]). by intros [= <-].
Qed.

Lemma quadro_refl (st : estado) : quadro st st.
Proof. repeat split. intros base topo ->. by exists topo. Qed.

Lemma quadro_trans (st1 st2 st3 : estado) :
  quadro st1 st2 → quadro st2 st3 → quadro st1 st3.
Proof.
  intros [Ht1 He1] [Ht2 He2]. split; [by eapply mesmas_tabelas_trans|].
  intros base topo Hes. destruct (He1 _ _ Hes) as (t2 & Hes2 & Hsub2).
  destruct (He2 _ _ Hes2) as (t3 & Hes3 & Hsub3).
  exists t3. split; [done|]. by etrans.
Qed.

Lemma declarar_variavel_atual_quadro (nome tipo : string) (st st' : estado) :
  declarar_variavel_atual nome tipo st = Ok st' → quadro st st'.
Proof.
  intros Hd. split; [by eapply declarar_variavel_atual_tabelas|].
  intros base topo Hes.
  rewrite (declarar_variavel_atual_topo st base topo) in Hd by done.
  case_decide as Hin; [done|]. injection Hd as <-.
  eexists. split; [done|]. apply insert_subseteq.
  by apply eq_None_not_Some.
Qed.

Lemma para_cada_quadro {A} (f : A → estado → resultado estado) (xs : list A) :
  Forall (λ x, ∀ st st', f x st = Ok st' → quadro st st') xs →
  ∀ st st', para_cada f xs st = Ok st' → quadro st st'.
Proof.
  induction 1 as [|x xs Hx _ IH]; intros st st'; simpl.
  - intros [= <-]. apply quadro_refl.
  - intros (st1 & H1 & H2)%ligar_ok.
    eapply quadro_trans; [by apply Hx|by apply IH].
Qed.

Lemma estado_eq (st st' : estado) :
  mesmas_tabelas st st' → escopos st' = escopos st → st' = st.
Proof. intros [? ?]. destruct st, st'; simpl in *; congruence. Qed.

(** Popping a stack of at least two scopes removes the innermost one. *)
Lemma fechar_escopo_interno (st : estado) (base : list (gmap string string))
  (topo : gmap string string) :
  base ≠ [] →
  escopos st = base ++ [topo] →
  fechar_escopo st = Ok (com_escopos st base).
Proof.
  intros Hne Hes. unfold fechar_escopo. rewrite Hes, length_app.
  replace (length base + length [topo] =? 1)%nat with false.
  - destruct (base ++ [topo]) as [|x l] eqn:E.
    + by apply app_eq_nil in E as [_ ?].
    + by rewrite <- E, removelast_last.
  - symmetry. apply Nat.eqb_neq. destruct base; [done|]. simpl. lia.
Qed.

(** A branch checked between [abrir_escopo] and [fechar_escopo] leaves a
    non-empty scope stack exactly as it was. *)
Lemma bloco_restaura (cmds : list node) (st st1 st2 : estado) :
  Forall (λ x, ∀ st st', checar_elemento x st = Ok st' → quadro st st') cmds →
  escopos st ≠ [] →
  para_cada checar_elemento cmds (abrir_escopo st) = Ok st1 →
  fechar_escopo st1 = Ok st2 →
  st2 = st.
Proof.
  intros Hall Hne Hcmds Hfechar.
  destruct (para_cada_quadro _ cmds Hall _ _ Hcmds) as [Ht He].
  destruct (He (escopos st) ∅ eq_refl) as (topo' & Hes1 & _).
  rewrite (fechar_escopo_interno st1 (escopos st) topo') in Hfechar by done.
  injection Hfechar as <-. by apply estado_eq.
Qed.

Lemma checar_elemento_quadro (elem : node) :
  ∀ st st', checar_elemento elem st = Ok st' → quadro st st'.
Proof.
  intros st st' Hc. split; [by eapply checar_elemento_tabelas|].
  revert st st' Hc.
  induction elem as
    [tipo nome init| | | | |nome e|nome args|e|cond body senao Hbody Hsenao
    |cond body Hbody|e|op|k] using node_ind_aninhada; intros st st'; simpl;
    try (intros [= <-] base topo Hes; by exists topo); try done.
  - unfold checar_vardecl_local.
    intros (st1 & Hd & (? & _ & [= <-])%ligar_ok)%ligar_ok.
    by apply (declarar_variavel_atual_quadro _ _ _ _ Hd).
  - intros (? & _ & [= <-])%ligar_ok base topo Hes. by exists topo.
  - intros (? & _ & [= <-])%ligar_ok base topo Hes. by exists topo.
  - intros (tcond & _ & H)%ligar_ok base topo Hes.
    destruct (negb _); [done|].
    apply ligar_ok in H as (st1 & Hb & (st2 & Hf & H)%ligar_ok).
    assert (escopos st ≠ []) as Hne by (rewrite Hes; by destruct base).
    assert (st2 = st) as ->.
    { eapply bloco_restaura; [|done|exact Hb|exact Hf].
      eapply Forall_impl; [exact Hbody|]. intros x Hx s s' Hs.
      split; [by eapply checar_elemento_tabelas|by apply Hx]. }
    destruct senao as [cmds|].
    + apply ligar_ok in H as (st3 & Hb' & Hf').
      assert (st' = st) as ->.
      { eapply bloco_restaura; [|done|exact Hb'|exact Hf'].
        eapply Forall_impl; [exact (Hsenao cmds eq_refl)|]. intros x Hx s s' Hs.
        split; [by eapply checar_elemento_tabelas|by apply Hx]. }
      by exists topo.
    + injection H as <-. by exists topo.
  - intros (tcond & _ & H)%ligar_ok base topo Hes.
    destruct (negb _); [done|].
    apply ligar_ok in H as (st1 & Hb & Hf).
    assert (escopos st ≠ []) as Hne by (rewrite Hes; by destruct base).
    assert (st' = st) as ->.
    { eapply bloco_restaura; [|done|exact Hb|exact Hf].
      eapply Forall_impl; [exact Hbody|]. intros x Hx s s' Hs.
      split; [by eapply checar_elemento_tabelas|by apply Hx]. }
    by exists topo.
  - intros (? & _ & [= <-])%ligar_ok base topo Hes. by exists topo.
  - unfold checar_jump. destruct (_ || _); [|done].
    intros [= <-] base topo Hes. by exists topo.
  - unfold checar_outro, checar_jump.
    repeat (destruct (kind_e k _); [done|]).
    intros [= <-] base topo Hes. by exists topo.
Qed.

(** ** C2: function bodies without a direct return *)

(** Unfold the exception monad and split on every call result. *)
Ltac por_casos :=
  unfold mbind, resultado_bind, ligar, erro in *;
  repeat case_match; simplify_eq/=; try done.

(** On a statement that is not a [return] node the body checker does what
    the single-statement checker does, and keeps the return flag. *)
Lemma checar_comando_corpo_nao_return (nome : string) (is_function : bool)
  (cmd : node) (st : estado) (encontrou : bool) :
  ¬ e_return cmd →
  checar_comando_corpo nome is_function cmd (st, encontrou)
  = st' ← checar_elemento cmd st; Ok (st', encontrou).
Proof.
  unfold e_return. intros Hk.
  destruct cmd; simpl in *; try done; try (by rewrite kind_e_false);
    por_casos.
Qed.

Lemma checar_corpo_sem_return (nome : string) (is_function : bool)
  (body : list node) :
  Forall (λ cmd, ¬ e_return cmd) body →
  ∀ st encontrou st' encontrou',
    checar_corpo nome is_function body (st, encontrou) = Ok (st', encontrou') →
    encontrou' = encontrou ∧ quadro st st'.
Proof.
  induction 1 as [|cmd body Hcmd _ IH]; intros st enc st' enc';
    cbn [checar_corpo].
  - intros [= <- <-]. split; [done|apply quadro_refl].
  - rewrite checar_comando_corpo_nao_return by done.
    intros ([st1 enc1] & (st1' & Hc & [= <- <-])%ligar_ok & Hresto)%ligar_ok.
    destruct (IH _ _ _ _ Hresto) as [-> Hq]. split; [done|].
    eapply quadro_trans; [|exact Hq]. by eapply checar_elemento_quadro.
Qed.

Lemma declarar_parametros_quadro (params : parametros) (st st' : estado) :
  declarar_parametros params st = Ok st' → quadro st st'.
Proof.
  apply para_cada_quadro. apply Forall_forall. intros [tipo pname] _ s s'.
  apply declarar_variavel_atual_quadro.
Qed.

Lemma fechar_escopo_sucede (st : estado) :
  escopos st ≠ [] → ∃ st', fechar_escopo st = Ok st'.
Proof.
  intros Hne. unfold fechar_escopo. destruct (_ =? _)%nat; [by eexists|].
  destruct (escopos st); [done|]. by eexists.
Qed.

(** C2 (as stated): every function body without a direct [return] fails
    with [MissingReturn].  A body whose returns sit inside both branches
    of an [if] fails with another error. *)
Lemma C2_return_aninhado_outro_erro :
  Forall (λ cmd, ¬ e_return cmd) corpo_return_aninhado
  ∧ _checar_corpo_funcional "f" [] corpo_return_aninhado true
      (Estado [("f", ("int", []))] [] [∅])
    = erro ReturnOutsideBody
  ∧ ¬ ∀ (st : estado) (nome : string) (params : parametros) (body : list node),
        Forall (λ cmd, ¬ e_return cmd) body →
        _checar_corpo_funcional nome params body true st
        = erro (MissingReturn nome).
Proof.
  assert (Forall (λ cmd, ¬ e_return cmd) corpo_return_aninhado) as Hsem.
  { repeat constructor. unfold e_return. simpl. discriminate. }
  split; [exact Hsem|]. split; [reflexivity|].
  intros Htodos.
  specialize (Htodos (Estado [("f", ("int", []))] [] [∅]) "f" []
                corpo_return_aninhado Hsem).
  vm_compute in Htodos. discriminate.
Qed.

(** C2 (amended): a function body with no [return] node among its direct
    statements is never accepted, and it fails with [MissingReturn] whenever
    binding its parameters and checking each of its statements raise
    nothing. *)
Theorem C2_corpo_sem_return_direto (st : estado) (nome : string)
  (params : parametros) (body : list node) :
  Forall (λ cmd, ¬ e_return cmd) body →
  sucedeu (_checar_corpo_funcional nome params body true st) = false
  ∧ ∀ st1 ac,
      declarar_parametros params (abrir_escopo st) = Ok st1 →
      checar_corpo nome true body (st1, false) = Ok ac →
      _checar_corpo_funcional nome params body true st
      = erro (MissingReturn nome).
Proof.
  intros Hsem. unfold _checar_corpo_funcional.
  assert (∀ st1 ac,
            declarar_parametros params (abrir_escopo st) = Ok st1 →
            checar_corpo nome true body (st1, false) = Ok ac →
            ac.2 = false ∧ ∃ st2, fechar_escopo ac.1 = Ok st2) as Hpassos.
  { intros st1 [st2 enc] Hp Hc.
    destruct (checar_corpo_sem_return _ _ _ Hsem _ _ _ _ Hc) as [-> [_ Hq]].
    split; [done|]. apply fechar_escopo_sucede. simpl.
    destruct (declarar_parametros_quadro _ _ _ Hp) as [_ Hq1].
    destruct (Hq1 (escopos st) ∅ eq_refl) as (t1 & Hes1 & _).
    destruct (Hq _ _ Hes1) as (t2 & -> & _). by destruct (escopos st). }
  split.
  - destruct (declarar_parametros params (abrir_escopo st)) as [st1|] eqn:Hp;
      [rewrite ligar_Ok_l|done].
    destruct (checar_corpo nome true body (st1, false)) as [ac|] eqn:Hc;
      [rewrite ligar_Ok_l|done].
    destruct (Hpassos _ _ eq_refl Hc) as [Henc [st2 Hf]].
    by rewrite Hf, ligar_Ok_l, Henc.
  - intros st1 ac Hp Hc. destruct (Hpassos _ _ Hp Hc) as [Henc [st2 Hf]].
    by rewrite Hp, ligar_Ok_l, Hc, ligar_Ok_l, Hf, ligar_Ok_l, Henc.
Qed.

(** A body with no statement at all, and a body whose statements all
    check. *)
Lemma C2_corpo_sem_return_direto_exemplo :
  let st := Estado [("f", ("int", []))] [] [{["x" := "int"]}] in
  _checar_corpo_funcional "f" [("int", "a")] [Assign "x" (EVar "a")] true st
  = erro (MissingReturn "f").
Proof.
  intros st.
  destruct (C2_corpo_sem_return_direto st "f" [("int", "a")]
              [Assign "x" (EVar "a")]) as [_ H].
  - repeat constructor. unfold e_return. simpl. discriminate.
  - eapply H; vm_compute; reflexivity.
Defined.

(** ** C3: [if] and [while] at program top level *)

(** At top level the condition must be boolean, as in the other two
    places that check an [if] or a [while]. *)
Lemma segundo_passe_condicao (p : passe2) (cond : expr) (body : list node)
  (senao : option (list node)) (t : string) :
  avaliar_expressao_tipo (analisador p) cond = Ok t → t ≠ "boolean" →
  segundo_passe_elem (If cond body senao) p = erro (NonBooleanCondition "if")
  ∧ segundo_passe_elem (While cond body) p = erro (NonBooleanCondition "while").
Proof.
  intros Hc Hne. simpl. rewrite Hc. simpl.
  by destruct (String.eqb_spec t "boolean").
Qed.

(** At top level the branches are checked in the scope that is current,
    with no scope pushed or popped. *)
Lemma segundo_passe_ramos (p : passe2) (cond : expr) (body : list node)
  (senao : option (list node)) :
  avaliar_expressao_tipo (analisador p) cond = Ok "boolean" →
  segundo_passe_elem (If cond body senao) p
  = (st1 ← para_cada checar_elemento body (analisador p);
     st2 ← para_cada checar_elemento (default [] senao) st1;
     Ok (com_analisador p st2))
  ∧ segundo_passe_elem (While cond body) p
    = (st1 ← para_cada checar_elemento body (analisador p);
       Ok (com_analisador p st1)).
Proof.
  intros Hc. simpl. rewrite Hc. simpl. split; [|done].
  destruct (para_cada checar_elemento body (analisador p)); [|done].
  simpl. destruct senao; simpl; [done|]. done.
Qed.

(** C3 (the code at the failing input): a variable declared inside the
    branch of a top-level [if] or [while] is bound in the global scope
    when the check ends, and a later top-level statement may use it; the
    single-statement checker, given the same [if] node, leaves the scope
    stack as it was, and the same statements inside a function body are
    rejected because the variable is gone after the branch. *)
Theorem C3_ramo_no_topo_sem_escopo :
  (∃ st, checar_programa [declara_no_ramo] = Ok st
         ∧ escopos st = [{["y" := "int"]}])
  ∧ (∃ st, checar_programa [While (bool_lit true) [Vardecl "int" "y" ENone]] = Ok st
           ∧ escopos st = [{["y" := "int"]}])
  ∧ sucedeu (checar_programa programa_if_topo) = true
  ∧ checar_elemento declara_no_ramo estado_inicial = Ok estado_inicial
  ∧ checar_programa programa_if_corpo = erro (UndeclaredVariable "y").
Proof.
  split; [|split; [|split; [|split]]].
  - eexists. split; vm_compute; reflexivity.
  - eexists. split; vm_compute; reflexivity.
  - vm_compute. reflexivity.
  - vm_compute. reflexivity.
  - vm_compute. reflexivity.
Qed.

(** ** C5: signatures without a body *)

Lemma exigir_corpos_ok (nomes : list string) (encontrados : gset string) :
  exigir_corpos nomes encontrados = Ok tt ↔ Forall (λ n, n ∈ encontrados) nomes.
Proof.
  induction nomes as [|n nomes IH]; simpl.
  - split; [constructor|done].
  - case_decide as Hn.
    + rewrite IH. split; [by constructor|by inversion 1].
    + split; [done|]. by inversion 1.
Qed.

Lemma exigir_corpos_falha (nomes : list string) (encontrados : gset string)
  (e : excecao) :
  exigir_corpos nomes encontrados = Falha e →
  ∃ n, e = ErroSemantico (MissingBody n) ∧ n ∈ nomes ∧ n ∉ encontrados.
Proof.
  induction nomes as [|n nomes IH]; simpl; [done|].
  case_decide as Hn.
  - intros (m & ? & ? & ?)%IH. exists m. by rewrite elem_of_cons; auto.
  - intros [= <-]. exists n. by rewrite elem_of_cons; auto.
Qed.

(** The third pass fails exactly when a table has a name outside its set
    of bodies found, and then with [MissingBody]. *)
Lemma terceiro_passe_spec (p : passe2) :
  ((∃ n, terceiro_passe p = erro (MissingBody n))
   ↔ (∃ n, n ∈ Dict.chaves (tabela_funcoes (analisador p))
           ∧ n ∉ funcbodies_encontrados p)
     ∨ (∃ n, n ∈ Dict.chaves (tabela_proceds (analisador p))
             ∧ n ∉ procbodies_encontrados p))
  ∧ (terceiro_passe p = Ok tt ∨ ∃ n, terceiro_passe p = erro (MissingBody n)).
Proof.
  unfold terceiro_passe.
  destruct (exigir_corpos (Dict.chaves (tabela_funcoes (analisador p))) _)
    as [[]|e] eqn:Hf; simpl.
  - destruct (exigir_corpos (Dict.chaves (tabela_proceds (analisador p))) _)
      as [[]|e] eqn:Hp; simpl.
    + apply exigir_corpos_ok in Hf, Hp. rewrite Forall_forall in Hf, Hp.
      split; [|by left]. split; [by intros [? ?]|].
      intros [(n & Hn & Hnot)|(n & Hn & Hnot)]; exfalso; naive_solver.
    + apply exigir_corpos_falha in Hp as (n & -> & Hn & Hnot).
      split; [|right; by exists n]. split; [|by exists n].
      intros _. right. by exists n.
  - apply exigir_corpos_falha in Hf as (n & -> & Hn & Hnot).
    split; [|right; by exists n]. split; [|by exists n].
    intros _. left. by exists n.
Qed.

Lemma checar_comando_corpo_quadro (nome : string) (is_function : bool)
  (cmd : node) (st st' : estado) (enc enc' : bool) :
  checar_comando_corpo nome is_function cmd (st, enc) = Ok (st', enc') →
  quadro st st'.
Proof.
  destruct (decide (e_return cmd)) as [Hr|Hr].
  - unfold e_return in Hr. destruct cmd; simplify_eq/=.
    + intros (? & _ & (? & _ & H)%ligar_ok)%ligar_ok.
      destruct (_ =? _)%string; [|done]. injection H as <- <-.
      apply quadro_refl.
    + by intros (? & _ & ?)%ligar_ok.
  - rewrite checar_comando_corpo_nao_return by done.
    intros (st1 & Hc & [= <- <-])%ligar_ok. by eapply checar_elemento_quadro.
Qed.

Lemma checar_corpo_quadro (nome : string) (is_function : bool)
  (body : list node) :
  ∀ st enc st' enc',
    checar_corpo nome is_function body (st, enc) = Ok (st', enc') →
    quadro st st'.
Proof.
  induction body as [|cmd body IH]; intros st enc st' enc'; cbn [checar_corpo].
  - intros [= <- <-]. apply quadro_refl.
  - intros ([st1 enc1] & Hc & Hresto)%ligar_ok.
    eapply quadro_trans; [by eapply checar_comando_corpo_quadro|by eapply IH].
Qed.

Lemma _checar_corpo_funcional_tabelas (nome : string) (params : parametros)
  (body : list node) (is_function : bool) (st st' : estado) :
  _checar_corpo_funcional nome params body is_function st = Ok st' →
  mesmas_tabelas st st'.
Proof.
  unfold _checar_corpo_funcional.
  intros (st1 & Hp & ([st2 enc] & Hc & (st3 & Hf & H)%ligar_ok)%ligar_ok)%ligar_ok.
  destruct (_ && _); [done|]. injection H as <-.
  apply declarar_parametros_quadro in Hp as [Hp _].
  apply checar_corpo_quadro in Hc as [Hc _].
  apply fechar_escopo_tabelas in Hf.
  eapply mesmas_tabelas_trans; [|exact Hf].
  eapply mesmas_tabelas_trans; [|exact Hc]. exact Hp.
Qed.

(** One step of the second pass leaves the tables alone and adds to the
    two sets exactly the name of a body node. *)
Lemma segundo_passe_elem_efeito (elem : node) (p p' : passe2) :
  segundo_passe_elem elem p = Ok p' →
  mesmas_tabelas (analisador p) (analisador p')
  ∧ funcbodies_encontrados p'
    = list_to_set (nomes_funcbody [elem]) ∪ funcbodies_encontrados p
  ∧ procbodies_encontrados p'
    = list_to_set (nomes_procbody [elem]) ∪ procbodies_encontrados p.
Proof.
  assert (∀ X : gset string, X = ∅ ∪ X) as Hvazio by (intros; set_solver).
  destruct elem; simpl.
  - intros (? & _ & [= <-])%ligar_ok. by repeat split.
  - intros [= <-]. by repeat split.
  - intros [= <-]. by repeat split.
  - destruct (negb _); [done|]. intros (st' & Hc & [= <-])%ligar_ok. simpl.
    split; [by eapply _checar_corpo_funcional_tabelas|].
    split; [set_solver|done].
  - destruct (negb _); [done|]. intros (st' & Hc & [= <-])%ligar_ok. simpl.
    split; [by eapply _checar_corpo_funcional_tabelas|].
    split; [done|set_solver].
  - intros (? & _ & [= <-])%ligar_ok. by repeat split.
  - intros (? & _ & [= <-])%ligar_ok. by repeat split.
  - done.
  - intros (t & _ & H)%ligar_ok. destruct (negb _); [done|].
    apply ligar_ok in H as (st1 & H1 & H).
    pose proof (para_cada_tabelas _ _
      (proj2 (Forall_forall _ _) (λ x _, checar_elemento_tabelas x)) _ _ H1) as T1.
    destruct senao as [cmds|].
    + apply ligar_ok in H as (st2 & H2 & [= <-]).
      pose proof (para_cada_tabelas _ _
        (proj2 (Forall_forall _ _) (λ x _, checar_elemento_tabelas x)) _ _ H2) as T2.
      simpl. split; [by eapply mesmas_tabelas_trans|done].
    + injection H as <-. simpl. split; [exact T1|done].
  - intros (t & _ & H)%ligar_ok. destruct (negb _); [done|].
    apply ligar_ok in H as (st1 & H1 & [= <-]).
    pose proof (para_cada_tabelas _ _
      (proj2 (Forall_forall _ _) (λ x _, checar_elemento_tabelas x)) _ _ H1) as T1.
    simpl. split; [exact T1|done].
  - intros (? & (? & _ & [= <-])%ligar_ok & [= <-])%ligar_ok. by repeat split.
  - intros (st' & Hj & [= <-])%ligar_ok.
    apply (checar_elemento_tabelas (Jump op)) in Hj. simpl. split; [exact Hj|done].
  - destruct (kind_e kind "vardecl"); [intros [= <-]; by repeat split|].
    destruct (_ || _); [done|]. intros (st' & Ho & [= <-])%ligar_ok.
    apply (checar_elemento_tabelas (Outro kind)) in Ho. simpl.
    split; [exact Ho|done].
Qed.

Lemma segundo_passe_efeito (elems : list node) :
  ∀ p p', segundo_passe elems p = Ok p' →
    mesmas_tabelas (analisador p) (analisador p')
    ∧ funcbodies_encontrados p'
      = list_to_set (nomes_funcbody elems) ∪ funcbodies_encontrados p
    ∧ procbodies_encontrados p'
      = list_to_set (nomes_procbody elems) ∪ procbodies_encontrados p.
Proof.
  induction elems as [|elem elems IH]; intros p p'; cbn [segundo_passe].
  - intros [= <-]. split; [done|]. simpl. split; set_solver.
  - intros (p1 & H1 & H2)%ligar_ok.
    apply segundo_passe_elem_efeito in H1 as (T1 & F1 & P1).
    apply IH in H2 as (T2 & F2 & P2).
    split; [by eapply mesmas_tabelas_trans|].
    rewrite F2, P2, F1, P1. unfold nomes_funcbody, nomes_procbody. simpl.
    split.
    + destruct elem; simpl; set_solver.
    + destruct elem; simpl; set_solver.
Qed.

(** C5: once the first two passes have succeeded, [checar_programa] fails
    with [MissingBody] exactly when some name of the function table is not
    among the function bodies processed or some name of the procedure table
    is not among the procedure bodies processed, and it succeeds otherwise.
    The tables are those built by the first pass, and the bodies processed
    are the [funcbody] and [procbody] nodes of the program. *)
Theorem C5_assinatura_sem_corpo (elems : list node) (st1 : estado) (p : passe2) :
  primeiro_passe elems (Estado [] [] [∅]) = Ok st1 →
  segundo_passe elems (Passe2 st1 ∅ ∅) = Ok p →
  ((∃ n, checar_programa elems = erro (MissingBody n))
   ↔ (∃ n, n ∈ Dict.chaves (tabela_funcoes (analisador p))
           ∧ n ∉ funcbodies_encontrados p)
     ∨ (∃ n, n ∈ Dict.chaves (tabela_proceds (analisador p))
             ∧ n ∉ procbodies_encontrados p))
  ∧ (checar_programa elems = Ok (analisador p)
     ∨ ∃ n, checar_programa elems = erro (MissingBody n))
  ∧ mesmas_tabelas st1 (analisador p)
  ∧ (∀ n, n ∈ funcbodies_encontrados p ↔ n ∈ nomes_funcbody elems)
  ∧ (∀ n, n ∈ procbodies_encontrados p ↔ n ∈ nomes_procbody elems).
Proof.
  intros H1 H2.
  assert (checar_programa elems = (terceiro_passe p;; Ok (analisador p))) as ->.
  { unfold checar_programa. by rewrite H1, ligar_Ok_l, H2, ligar_Ok_l. }
  destruct (terceiro_passe_spec p) as [Hiff Hcasos].
  destruct (segundo_passe_efeito _ _ _ H2) as (T & F & P). simpl in T, F, P.
  split; [|split; [|split; [done|split]]].
  - rewrite <- Hiff. destruct Hcasos as [->|[m ->]]; simpl.
    + split; by intros [? ?].
    + split; intros [n Hn]; exists n; unfold erro in *; simpl in *; congruence.
  - destruct Hcasos as [->|[m ->]]; [by left|right; by exists m].
  - intros n. rewrite F. set_solver.
  - intros n. rewrite P. set_solver.
Qed.

(** The program that declares [int f()] and gives it no body. *)
Lemma C5_assinatura_sem_corpo_exemplo :
  checar_programa [Funcdecl "f" "int" []] = erro (MissingBody "f").
Proof.
  destruct (C5_assinatura_sem_corpo [Funcdecl "f" "int" []]
              (Estado [("f", ("int", []))] [] [∅])
              (Passe2 (Estado [("f", ("int", []))] [] [∅]) ∅ ∅)
              eq_refl eq_refl) as ([_ Hfalha] & _).
  destruct Hfalha as [n Hn].
  - left. exists "f". split; [decidir|decidir].
  - rewrite Hn. vm_compute in Hn. injection Hn as <-. reflexivity.
Defined.

(** ** C9: the parameter list of a body node *)

(** Binding a parameter list with distinct names, none of them bound in
    the innermost scope, adds exactly its pairs to that scope. *)
Lemma declarar_parametros_topo (params : parametros) :
  ∀ (st : estado) (base : list (gmap string string)) (topo : gmap string string),
    escopos st = base ++ [topo] →
    NoDup params.*2 →
    (∀ pname, pname ∈ params.*2 → topo !! pname = None) →
    ∃ topo',
      declarar_parametros params st = Ok (com_escopos st (base ++ [topo']))
      ∧ ∀ pname tipo,
          topo' !! pname = Some tipo
          ↔ topo !! pname = Some tipo ∨ (tipo, pname) ∈ params.
Proof.
  unfold declarar_parametros.
  induction params as [|[t pn] params IH]; intros st base topo Hes Hnd Hlivre.
  - exists topo. split.
    + simpl. f_equal. rewrite <- Hes. by destruct st.
    + intros pname tipo. rewrite elem_of_nil. naive_solver.
  - simpl in Hnd. apply NoDup_cons in Hnd as [Hpn Hnd].
    cbn [para_cada]. simpl.
    rewrite (declarar_variavel_atual_topo st base topo) by done.
    rewrite decide_False; last first.
    { rewrite Hlivre; [by intros [? ?]|]. simpl. apply elem_of_cons. by left. }
    rewrite ligar_Ok_l.
    destruct (IH (com_escopos st (base ++ [<[pn := t]> topo])) base
                (<[pn := t]> topo) eq_refl Hnd) as (topo' & Hok & Hiff).
    { intros pname Hin. rewrite lookup_insert_ne; [|by intros ->].
      apply Hlivre. simpl. apply elem_of_cons. by right. }
    exists topo'. split; [exact Hok|].
    intros pname tipo. rewrite Hiff, elem_of_cons.
    destruct (decide (pn = pname)) as [<-|Hne].
    + rewrite lookup_insert_eq, Hlivre by (simpl; apply elem_of_cons; by left).
      naive_solver.
    + rewrite lookup_insert_ne by done. naive_solver.
Qed.

Lemma declarar_parametros_corpo (params : parametros) (st : estado) :
  NoDup params.*2 →
  ∃ esc,
    declarar_parametros params (abrir_escopo st)
    = Ok (com_escopos st (escopos st ++ [esc]))
    ∧ ∀ pname tipo, esc !! pname = Some tipo ↔ (tipo, pname) ∈ params.
Proof.
  intros Hnd.
  destruct (declarar_parametros_topo params (abrir_escopo st) (escopos st) ∅
              eq_refl Hnd) as (esc & Hok & Hiff); [done|].
  exists esc. split; [exact Hok|].
  intros pname tipo. rewrite Hiff, lookup_empty. naive_solver.
Qed.

(** A program made of one signature and its body is accepted exactly when
    the body is. *)
Lemma checar_programa_funcao (nome tipo_ret : string)
  (params_decl params_corpo : parametros) (body : list node) :
  checar_programa [Funcdecl nome tipo_ret params_decl;
                   Funcbody nome params_corpo body]
  = _checar_corpo_funcional nome params_corpo body true
      (Estado [(nome, (tipo_ret, params_decl))] [] [∅]).
Proof.
  unfold checar_programa, primeiro_passe.
  cbn -[String.eqb _checar_corpo_funcional]. unfold Dict.contem.
  cbn -[String.eqb _checar_corpo_funcional]. rewrite String.eqb_refl.
  cbn -[String.eqb _checar_corpo_funcional].
  destruct (_checar_corpo_funcional _ _ _ _ _) as [st'|e] eqn:Hc; [|done].
  destruct (_checar_corpo_funcional_tabelas _ _ _ _ _ _ Hc) as [Tf Tp].
  cbn -[String.eqb]. unfold terceiro_passe. cbn [analisador]. rewrite Tf, Tp.
  cbn. rewrite decide_True by set_solver. done.
Qed.

Lemma checar_programa_procedimento (nome : string)
  (params_decl params_corpo : parametros) (body : list node) :
  checar_programa [Procdecl nome params_decl; Procbody nome params_corpo body]
  = _checar_corpo_funcional nome params_corpo body false
      (Estado [] [(nome, params_decl)] [∅]).
Proof.
  unfold checar_programa, primeiro_passe.
  cbn -[String.eqb _checar_corpo_funcional]. unfold Dict.contem.
  cbn -[String.eqb _checar_corpo_funcional]. rewrite String.eqb_refl.
  cbn -[String.eqb _checar_corpo_funcional].
  destruct (_checar_corpo_funcional _ _ _ _ _) as [st'|e] eqn:Hc; [|done].
  destruct (_checar_corpo_funcional_tabelas _ _ _ _ _ _ Hc) as [Tf Tp].
  cbn -[String.eqb]. unfold terceiro_passe. cbn [analisador]. rewrite Tf, Tp.
  cbn. rewrite decide_True by set_solver. done.
Qed.

(** A function body that is a single [return]: the expression is typed in
    the scope of the body's own parameters and compared with the declared
    return type. *)
Lemma corpo_de_um_return (st : estado) (nome tipo_ret : string)
  (params_decl params : parametros) (esc : gmap string string) (e : expr) :
  Dict.get (tabela_funcoes st) nome = Some (tipo_ret, params_decl) →
  escopos st ≠ [] →
  declarar_parametros params (abrir_escopo st)
  = Ok (com_escopos st (escopos st ++ [esc])) →
  _checar_corpo_funcional nome params [Return e] true st
  = (texpr ← avaliar_expressao_tipo (com_escopos st (escopos st ++ [esc])) e;
     if String.eqb texpr tipo_ret then Ok st
     else erro (ReturnTypeMismatch nome texpr tipo_ret)).
Proof.
  intros Hget Hne Hp. unfold _checar_corpo_funcional.
  rewrite Hp, ligar_Ok_l. cbn [checar_corpo checar_comando_corpo negb].
  cbn [tabela_funcoes com_escopos]. rewrite Hget, ligar_Ok_l.
  destruct (avaliar_expressao_tipo _ e) as [texpr|err]; [|done].
  rewrite !ligar_Ok_l. destruct (String.eqb texpr tipo_ret); [|done].
  rewrite !ligar_Ok_l. cbn [fst snd].
  rewrite (fechar_escopo_interno _ (escopos st) esc) by done.
  rewrite ligar_Ok_l. simpl. f_equal. by destruct st.
Qed.

(** ** C9 (continued): the recorded parameter list is read only by calls *)

Lemma expr_ind_aninhada (P : expr → Prop) :
  P ENone →
  (∀ tipo valor, P (ELit tipo valor)) →
  (∀ nome, P (EVar nome)) →
  (∀ op e, P e → P (EUnop op e)) →
  (∀ op l r, P l → P r → P (EBinop op l r)) →
  (∀ nome args, Forall P args → P (ECall nome args)) →
  (∀ k, P (EOutro k)) →
  ∀ e, P e.
Proof.
  intros Hn Hl Hv Hu Hb Hc Ho. fix IH 1. intros e.
  destruct e as [|tipo valor|nome|op e|op l r|nome args|k].
  - apply Hn.
  - apply Hl.
  - apply Hv.
  - apply Hu, IH.
  - apply Hb; apply IH.
  - apply Hc. induction args as [|x l IHl]; constructor; [apply IH|exact IHl].
  - apply Ho.
Qed.

Lemma checar_args_ext (f g : expr → resultado string) (nome : string)
  (params : parametros) (args : list expr) :
  Forall (λ a, f a = g a) args →
  ∀ idx, checar_args f nome params idx args = checar_args g nome params idx args.
Proof.
  induction 1 as [|a args Ha _ IH]; intros idx; [done|].
  rewrite !checar_args_cons, Ha. destruct (g a) as [t|]; [|done].
  rewrite !ligar_Ok_l. destruct (params !! idx) as [[esp pn]|]; [|done].
  by rewrite IH.
Qed.

Section Concordam.
Variable nome : string.
Variables st st' : estado.
Hypothesis Hst : concordam_fora_de nome st st'.

Lemma avaliar_concordam (e : expr) :
  expr_sem_chamada nome e = true →
  avaliar_expressao_tipo st e = avaliar_expressao_tipo st' e.
Proof using Hst.
  destruct Hst as (Hes & Hf & Hp & _).
  induction e as [| | |op e IH|op l r IHl IHr|n args IH|]
    using expr_ind_aninhada; intros Hsem; try done.
  - simpl. unfold buscar_variavel. by rewrite Hes.
  - simpl in *. by rewrite (IH Hsem).
  - simpl in Hsem. apply andb_true_iff in Hsem as [Hl Hr].
    by rewrite !avaliar_binop_eq, (IHl Hl), (IHr Hr).
  - simpl in Hsem. apply andb_true_iff in Hsem as [Hn Hargs].
    apply negb_true_iff, String.eqb_neq in Hn.
    rewrite !avaliar_call_eq. unfold Dict.contem.
    rewrite <- (Hf n Hn), <- (Hp n Hn).
    destruct (Dict.get (tabela_funcoes st) n) as [[tr ps]|]; [|done].
    destruct (negb _); [done|]. f_equal.
    apply checar_args_ext. rewrite forallb_forall in Hargs.
    rewrite Forall_forall in IH. apply Forall_forall. intros a Ha.
    apply IH; [done|]. apply Hargs. by apply list_elem_of_In.
Qed.

Lemma chamada_concordam (n : string) (args : list expr) :
  negb (String.eqb n nome) && forallb (expr_sem_chamada nome) args = true →
  _checar_chamada_como_comando n args st
  = _checar_chamada_como_comando n args st'.
Proof using Hst.
  intros [Hn Hargs]%andb_true_iff.
  apply negb_true_iff, String.eqb_neq in Hn.
  destruct Hst as (Hes & Hf & Hp & _).
  unfold _checar_chamada_como_comando. rewrite <- (Hf n Hn), <- (Hp n Hn).
  assert (∀ ps idx, checar_args (avaliar_expressao_tipo st) n ps idx args
                    = checar_args (avaliar_expressao_tipo st') n ps idx args)
    as Hext.
  { intros ps idx. apply checar_args_ext. apply Forall_forall. intros a Ha.
    apply avaliar_concordam. rewrite forallb_forall in Hargs.
    apply Hargs. by apply list_elem_of_In. }
  destruct (Dict.get (tabela_funcoes st) n) as [[tr ps]|].
  - by rewrite Hext.
  - destruct (Dict.get (tabela_proceds st) n); [|done]. by rewrite Hext.
Qed.
End Concordam.

Lemma mesmo_resultado_ligar {A B} (R : A → A → Prop) (R' : B → B → Prop)
  (m m' : resultado A) (f f' : A → resultado B) :
  mesmo_resultado R m m' →
  (∀ a a', R a a' → mesmo_resultado R' (f a) (f' a')) →
  mesmo_resultado R' (m ≫= f) (m' ≫= f').
Proof.
  destruct m as [a|e], m' as [a'|e']; simpl; try done.
  intros Ha Hf. by apply Hf.
Qed.

Lemma mesmo_resultado_igual {A B} (R : B → B → Prop) (m : resultado A)
  (f f' : A → resultado B) :
  (∀ a, mesmo_resultado R (f a) (f' a)) →
  mesmo_resultado R (m ≫= f) (m ≫= f').
Proof. destruct m as [a|e]; simpl; [by intros Hf|done]. Qed.

Lemma com_escopos_concordam (nome : string) (st st' : estado)
  (es : list (gmap string string)) :
  concordam_fora_de nome st st' →
  concordam_fora_de nome (com_escopos st es) (com_escopos st' es).
Proof. intros (_ & ? & ? & ?). by repeat split. Qed.

Lemma abrir_escopo_concordam (nome : string) (st st' : estado) :
  concordam_fora_de nome st st' →
  concordam_fora_de nome (abrir_escopo st) (abrir_escopo st').
Proof.
  intros H. unfold abrir_escopo. destruct H as (Hes & H). rewrite Hes.
  apply com_escopos_concordam. by split.
Qed.

Lemma fechar_escopo_concordam (nome : string) (st st' : estado) :
  concordam_fora_de nome st st' →
  mesmo_resultado (concordam_fora_de nome) (fechar_escopo st) (fechar_escopo st').
Proof.
  intros H. unfold fechar_escopo. pose proof H as (Hes & _). rewrite <- Hes.
  destruct (_ =? _)%nat; [done|]. destruct (escopos st); [done|].
  by apply com_escopos_concordam.
Qed.

Lemma declarar_variavel_atual_concordam (nome n t : string) (st st' : estado) :
  concordam_fora_de nome st st' →
  mesmo_resultado (concordam_fora_de nome)
    (declarar_variavel_atual n t st) (declarar_variavel_atual n t st').
Proof.
  intros H. unfold declarar_variavel_atual. pose proof H as (Hes & _).
  rewrite <- Hes. destruct (last _); [|done]. case_decide; [done|].
  by apply com_escopos_concordam.
Qed.

Lemma para_cada_concordam {A} (nome : string)
  (f : A → estado → resultado estado) (xs : list A) :
  Forall (λ x, ∀ st st', concordam_fora_de nome st st' →
                 mesmo_resultado (concordam_fora_de nome) (f x st) (f x st')) xs →
  ∀ st st', concordam_fora_de nome st st' →
    mesmo_resultado (concordam_fora_de nome)
      (para_cada f xs st) (para_cada f xs st').
Proof.
  induction 1 as [|x xs Hx _ IH]; intros st st' Hst; simpl; [done|].
  eapply mesmo_resultado_ligar; [by apply Hx|]. intros a a' Ha. by apply IH.
Qed.

(** A branch: push, check the statements, pop. *)
Lemma bloco_concordam (nome : string) (cmds : list node) :
  Forall (λ x, ∀ st st', concordam_fora_de nome st st' →
                 mesmo_resultado (concordam_fora_de nome)
                   (checar_elemento x st) (checar_elemento x st')) cmds →
  ∀ st st', concordam_fora_de nome st st' →
    mesmo_resultado (concordam_fora_de nome)
      (para_cada checar_elemento cmds (abrir_escopo st) ≫= fechar_escopo)
      (para_cada checar_elemento cmds (abrir_escopo st') ≫= fechar_escopo).
Proof.
  intros Hall st st' Hst. eapply mesmo_resultado_ligar.
  - apply para_cada_concordam; [done|]. by apply abrir_escopo_concordam.
  - intros a a' Ha. by apply fechar_escopo_concordam.
Qed.

Lemma mesmo_resultado_refl {A} (R : A → A → Prop) (r : resultado A) :
  (∀ a, r = Ok a → R a a) → mesmo_resultado R r r.
Proof. destruct r; simpl; [by intros H; apply H|done]. Qed.

Lemma checar_vardecl_local_concordam (nome tipo n : string) (init : expr)
  (st st' : estado) :
  expr_sem_chamada nome init = true →
  concordam_fora_de nome st st' →
  mesmo_resultado (concordam_fora_de nome)
    (checar_vardecl_local tipo n init st) (checar_vardecl_local tipo n init st').
Proof.
  intros Hsem Hst. unfold checar_vardecl_local.
  eapply mesmo_resultado_ligar; [by apply declarar_variavel_atual_concordam|].
  intros a a' Ha. unfold checar_inicializador.
  rewrite (avaliar_concordam nome a a' Ha init Hsem).
  destruct init; try done;
    destruct (avaliar_expressao_tipo a' _) as [t|]; simpl; try done;
    by destruct (String.eqb _ tipo).
Qed.

Lemma checar_elemento_concordam (nome : string) (elem : node) :
  node_sem_chamada nome elem = true →
  ∀ st st', concordam_fora_de nome st st' →
    mesmo_resultado (concordam_fora_de nome)
      (checar_elemento elem st) (checar_elemento elem st').
Proof.
  induction elem as
    [tipo n init| | | | |n e|n args|e|cond body senao Hbody Hsenao
    |cond body Hbody|e|op|k] using node_ind_aninhada;
    intros Hsem st st' Hst; simpl in Hsem; try (simpl; exact Hst); try done.
  - by apply checar_vardecl_local_concordam.
  - simpl. unfold _checar_assign, buscar_variavel.
    rewrite (avaliar_concordam nome st st' Hst e Hsem).
    pose proof Hst as (<- & _). by apply mesmo_resultado_igual.
  - simpl. rewrite (chamada_concordam nome st st' Hst n args Hsem).
    by apply mesmo_resultado_igual.
  - apply andb_true_iff in Hsem as [[Hc Hb]%andb_true_iff Hs]. simpl.
    rewrite (avaliar_concordam nome st st' Hst cond Hc).
    apply mesmo_resultado_igual. intros tcond. destruct (negb _); [done|].
    assert (Forall (λ x, ∀ s s', concordam_fora_de nome s s' →
                       mesmo_resultado (concordam_fora_de nome)
                         (checar_elemento x s) (checar_elemento x s')) body)
      as Hbody'.
    { rewrite forallb_forall in Hb. rewrite Forall_forall in Hbody.
      apply Forall_forall. intros x Hx. apply Hbody; [done|].
      apply Hb. by apply list_elem_of_In. }
    eapply mesmo_resultado_ligar.
    { apply para_cada_concordam; [done|]. by apply abrir_escopo_concordam. }
    intros a a' Ha. eapply mesmo_resultado_ligar.
    { by apply fechar_escopo_concordam. }
    intros b b' Hb'. destruct senao as [cmds|]; [|done].
    apply bloco_concordam; [|done].
    rewrite forallb_forall in Hs. specialize (Hsenao cmds eq_refl).
    rewrite Forall_forall in Hsenao.
    apply Forall_forall. intros x Hx. apply Hsenao; [done|].
    apply Hs. by apply list_elem_of_In.
  - apply andb_true_iff in Hsem as [Hc Hb]. simpl.
    rewrite (avaliar_concordam nome st st' Hst cond Hc).
    apply mesmo_resultado_igual. intros tcond. destruct (negb _); [done|].
    apply bloco_concordam; [|done].
    rewrite forallb_forall in Hb. rewrite Forall_forall in Hbody.
    apply Forall_forall. intros x Hx. apply Hbody; [done|].
    apply Hb. by apply list_elem_of_In.
  - simpl. rewrite (avaliar_concordam nome st st' Hst e Hsem).
    by apply mesmo_resultado_igual.
  - simpl. unfold checar_jump. by destruct (_ || _).
  - simpl. unfold checar_outro, checar_jump.
    by repeat (destruct (kind_e k _); [done|]).
Qed.

Lemma concordam_tipo_retorno (nome f : string) (st st' : estado) :
  concordam_fora_de nome st st' →
  fst <$> Dict.get (tabela_funcoes st) f = fst <$> Dict.get (tabela_funcoes st') f.
Proof.
  intros (_ & Hf & _ & Hn). destruct (decide (f = nome)) as [->|Hne]; [done|].
  by rewrite Hf.
Qed.

Lemma checar_comando_corpo_concordam (nome f : string) (is_function : bool)
  (cmd : node) (st st' : estado) (enc : bool) :
  node_sem_chamada nome cmd = true →
  concordam_fora_de nome st st' →
  mesmo_resultado (λ ac ac', concordam_fora_de nome ac.1 ac'.1 ∧ ac.2 = ac'.2)
    (checar_comando_corpo f is_function cmd (st, enc))
    (checar_comando_corpo f is_function cmd (st', enc)).
Proof.
  intros Hsem Hst. pose proof (concordam_tipo_retorno nome f st st' Hst) as Hret.
  destruct (decide (e_return cmd)) as [Hr|Hr].
  - assert (mesmo_resultado eq
              (if negb is_function then erro (ReturnInProcedure f)
               else match Dict.get (tabela_funcoes st) f with
                    | None => Falha (KeyError f)
                    | Some (t, _) => Ok t
                    end)
              (if negb is_function then erro (ReturnInProcedure f)
               else match Dict.get (tabela_funcoes st') f with
                    | None => Falha (KeyError f)
                    | Some (t, _) => Ok t
                    end)) as Hretorno.
    { destruct (negb is_function); [done|].
      destruct (Dict.get (tabela_funcoes st) f) as [[t ps]|],
        (Dict.get (tabela_funcoes st') f) as [[t' ps']|]; simplify_eq/=; done. }
    unfold e_return in Hr. destruct cmd; simplify_eq/=.
    + eapply mesmo_resultado_ligar; [exact Hretorno|]. intros t ? <-.
      rewrite (avaliar_concordam nome st st' Hst e Hsem).
      apply mesmo_resultado_igual. intros texpr.
      by destruct (String.eqb texpr t).
    + eapply mesmo_resultado_ligar; [exact Hretorno|]. by intros t ? <-.
  - rewrite !checar_comando_corpo_nao_return by done.
    eapply mesmo_resultado_ligar; [by apply checar_elemento_concordam|].
    by intros a a' Ha.
Qed.

Lemma checar_corpo_concordam (nome f : string) (is_function : bool)
  (body : list node) :
  forallb (node_sem_chamada nome) body = true →
  ∀ st st' enc,
    concordam_fora_de nome st st' →
    mesmo_resultado (λ ac ac', concordam_fora_de nome ac.1 ac'.1 ∧ ac.2 = ac'.2)
      (checar_corpo f is_function body (st, enc))
      (checar_corpo f is_function body (st', enc)).
Proof.
  induction body as [|cmd body IH]; intros Hsem st st' enc Hst;
    cbn [checar_corpo].
  - done.
  - simpl in Hsem. apply andb_true_iff in Hsem as [Hcmd Hsem].
    eapply mesmo_resultado_ligar;
      [by apply checar_comando_corpo_concordam|].
    intros [s1 e1] [s1' e1'] [Hs1 He1]. simpl in Hs1, He1. subst e1'.
    by apply IH.
Qed.

(** With no call to [nome] in the body, checking a body in two states
    that differ only in the parameter list recorded for [nome] raises the
    same exception or succeeds in both. *)
Lemma _checar_corpo_funcional_concordam (nome f : string) (params : parametros)
  (body : list node) (is_function : bool) (st st' : estado) :
  forallb (node_sem_chamada nome) body = true →
  concordam_fora_de nome st st' →
  mesmo_resultado (concordam_fora_de nome)
    (_checar_corpo_funcional f params body is_function st)
    (_checar_corpo_funcional f params body is_function st').
Proof.
  intros Hsem Hst. unfold _checar_corpo_funcional.
  eapply mesmo_resultado_ligar.
  { apply para_cada_concordam; [|by apply abrir_escopo_concordam].
    apply Forall_forall. intros [t pn] _ s s' Hs.
    by apply declarar_variavel_atual_concordam. }
  intros s1 s1' Hs1. eapply mesmo_resultado_ligar.
  { by apply checar_corpo_concordam. }
  intros [s2 e2] [s2' e2'] [Hs2 He2]. simpl in Hs2, He2. subst e2'.
  eapply mesmo_resultado_ligar; [by apply fechar_escopo_concordam|].
  intros s3 s3' Hs3. simpl. by destruct (_ && _).
Qed.

(** A program of one signature and its body: with no call to the
    function in its body, the verdict is the same whatever parameter list
    the declaration carries. *)
Lemma checar_programa_ignora_declarados (nome tipo_ret : string)
  (params_decl params_decl' params_corpo : parametros) (body : list node) :
  forallb (node_sem_chamada nome) body = true →
  mesmo_resultado (λ _ _, True)
    (checar_programa [Funcdecl nome tipo_ret params_decl;
                      Funcbody nome params_corpo body])
    (checar_programa [Funcdecl nome tipo_ret params_decl';
                      Funcbody nome params_corpo body])
  ∧ mesmo_resultado (λ _ _, True)
      (checar_programa [Procdecl nome params_decl;
                        Procbody nome params_corpo body])
      (checar_programa [Procdecl nome params_decl';
                        Procbody nome params_corpo body]).
Proof.
  intros Hsem. rewrite !checar_programa_funcao, !checar_programa_procedimento.
  split.
  - pose proof (_checar_corpo_funcional_concordam nome nome params_corpo body true
                  (Estado [(nome, (tipo_ret, params_decl))] [] [∅])
                  (Estado [(nome, (tipo_ret, params_decl'))] [] [∅]) Hsem) as H.
    destruct (_checar_corpo_funcional _ _ _ _ _),
      (_checar_corpo_funcional _ _ _ _ _); simpl in *; try done;
      apply H; repeat split; simpl; intros;
      by rewrite ?String.eqb_refl, ?(proj2 (String.eqb_neq _ _)).
  - pose proof (_checar_corpo_funcional_concordam nome nome params_corpo body false
                  (Estado [] [(nome, params_decl)] [∅])
                  (Estado [] [(nome, params_decl')] [∅]) Hsem) as H.
    destruct (_checar_corpo_funcional _ _ _ _ _),
      (_checar_corpo_funcional _ _ _ _ _); simpl in *; try done;
      apply H; repeat split; simpl; intros;
      by rewrite ?String.eqb_refl, ?(proj2 (String.eqb_neq _ _)).
Qed.

(** C9: the parameter list written on a body node is bound as given into
    the scope of the body (distinct names assumed, as the binding itself
    requires), and the list recorded by the declaration plays no part: with
    any declared list and any body list, a function body returning a literal
    of the declared type is accepted, so is an empty procedure body, and a
    function body returning one of its own parameters is accepted exactly
    when the type written on the body for that parameter is the declared
    return type.  For any body that does not call the function or procedure
    itself, the verdict is the same whatever list the declaration
    recorded. *)
Theorem C9_parametros_do_corpo (nome tipo_ret : string)
  (params_decl params_corpo : parametros) (v : valor_lit) :
  NoDup params_corpo.*2 →
  (∀ st, ∃ esc,
     declarar_parametros params_corpo (abrir_escopo st)
     = Ok (com_escopos st (escopos st ++ [esc]))
     ∧ ∀ pname tipo, esc !! pname = Some tipo ↔ (tipo, pname) ∈ params_corpo)
  ∧ sucedeu (checar_programa
               [Funcdecl nome tipo_ret params_decl;
                Funcbody nome params_corpo [Return (ELit tipo_ret v)]]) = true
  ∧ sucedeu (checar_programa
               [Procdecl nome params_decl; Procbody nome params_corpo []]) = true
  ∧ (∀ tipo pname,
      (tipo, pname) ∈ params_corpo →
      sucedeu (checar_programa
                 [Funcdecl nome tipo_ret params_decl;
                  Funcbody nome params_corpo [Return (EVar pname)]]) = true
      ↔ tipo = tipo_ret)
  ∧ ∀ body params_decl',
      forallb (node_sem_chamada nome) body = true →
      mesmo_resultado (λ _ _, True)
        (checar_programa [Funcdecl nome tipo_ret params_decl;
                          Funcbody nome params_corpo body])
        (checar_programa [Funcdecl nome tipo_ret params_decl';
                          Funcbody nome params_corpo body])
      ∧ mesmo_resultado (λ _ _, True)
          (checar_programa [Procdecl nome params_decl;
                            Procbody nome params_corpo body])
          (checar_programa [Procdecl nome params_decl';
                            Procbody nome params_corpo body]).
Proof.
  intros Hnd. split; [|split; [|split; [|split]]];
    [| | | |intros body pd' Hsem; by apply checar_programa_ignora_declarados].
  - intros st. by apply declarar_parametros_corpo.
  - rewrite checar_programa_funcao.
    destruct (declarar_parametros_corpo params_corpo
                (Estado [(nome, (tipo_ret, params_decl))] [] [∅]) Hnd)
      as (esc & Hok & _).
    rewrite (corpo_de_um_return _ nome tipo_ret params_decl _ esc); try done.
    + simpl. by rewrite String.eqb_refl.
    + simpl. by rewrite String.eqb_refl.
  - rewrite checar_programa_procedimento.
    destruct (declarar_parametros_corpo params_corpo
                (Estado [] [(nome, params_decl)] [∅]) Hnd) as (esc & Hok & _).
    unfold _checar_corpo_funcional. rewrite Hok, ligar_Ok_l.
    cbn [checar_corpo]. rewrite ligar_Ok_l. cbn [fst snd].
    rewrite (fechar_escopo_interno _ [∅] esc) by done. done.
  - intros tipo pname Hin. rewrite checar_programa_funcao.
    destruct (declarar_parametros_corpo params_corpo
                (Estado [(nome, (tipo_ret, params_decl))] [] [∅]) Hnd)
      as (esc & Hok & Hesc).
    rewrite (corpo_de_um_return _ nome tipo_ret params_decl _ esc); try done;
      [|simpl; by rewrite String.eqb_refl].
    apply Hesc in Hin.
    cbn [avaliar_expressao_tipo]. unfold buscar_variavel. cbn [escopos com_escopos].
    rewrite reverse_snoc. cbn [buscar_em]. rewrite Hin, ligar_Ok_l.
    destruct (String.eqb_spec tipo tipo_ret); simpl; naive_solver.
Qed.

(** A declaration [int f(int a, int b)] with the body written for
    [f(boolean z)]. *)
Lemma C9_parametros_do_corpo_exemplo :
  sucedeu (checar_programa
             [Funcdecl "f" "int" [("int", "a"); ("int", "b")];
              Funcbody "f" [("boolean", "z")] [Return (int_lit 0)]]) = true
  ∧ sucedeu (checar_programa
               [Funcdecl "f" "int" [("int", "a"); ("int", "b")];
                Funcbody "f" [("boolean", "z")] [Return (EVar "z")]]) = false.
Proof.
  assert (NoDup [("boolean", "z")].*2) as Hnd by (repeat constructor; set_solver).
  destruct (C9_parametros_do_corpo "f" "int" [("int", "a"); ("int", "b")]
              [("boolean", "z")] (VInteiro 0) Hnd) as (_ & Hlit & _ & Hvar & _).
  split; [exact Hlit|].
  destruct (Hvar "boolean" "z") as [Hf _];
    [apply list_elem_of_singleton; reflexivity|].
  apply not_true_is_false. intros Hs. discriminate (Hf Hs).
Defined.

End SemanticoProps.

(** * Properties of the lexical scanner *)

Module LexicoProps.
Import Lexico.

(** ** Matches *)

Lemma span_app (p : N → bool) (s a b : texto) :
  span p s = (a, b) → s = a ++ b.
Proof.
  revert a b. induction s as [|c r IH]; intros a b; simpl.
  - by intros [= <- <-].
  - destruct (p c); [|by intros [= <- <-]].
    destruct (span p r) as [a' b'] eqn:E. intros [= <- <-].
    simpl. f_equal. by apply IH.
Qed.

Lemma span_Forall (p : N → bool) (s a b : texto) :
  span p s = (a, b) → Forall (λ c, p c = true) a.
Proof.
  revert a b. induction s as [|c r IH]; intros a b; simpl.
  - intros [= <- <-]. constructor.
  - destruct (p c) eqn:Hc; [|intros [= <- <-]; constructor].
    destruct (span p r) as [a' b'] eqn:E. intros [= <- <-].
    constructor; [done|]. by eapply IH.
Qed.

Lemma casar_op_some (c : N) (r txt b : texto) :
  casar_op c r = Some (txt, b) → c :: r = txt ++ b ∧ txt ≠ [].
Proof.
  unfold casar_op. destruct r as [|d r'].
  - destruct (e_op_simples c); [|done]. by intros [= <- <-].
  - destruct (_ && _); [by intros [= <- <-]|].
    destruct (e_op_simples c); [|done]. by intros [= <- <-].
Qed.

(** A match is a non-empty prefix of the input, and an [OUTRO] match is a
    single character. *)
Lemma casar_some (s : texto) (g : grupo) (txt resto : texto) :
  casar s = Some (g, txt, resto) →
  s = txt ++ resto ∧ txt ≠ [] ∧ (g = OUTRO → ∃ c, txt = [c] ∧ s = c :: resto).
Proof.
  destruct s as [|c r]; [done|]. unfold casar. intros [= H]. revert H.
  destruct (e_digito c).
  { destruct (span e_digito r) as [a b] eqn:E. apply span_app in E as ->.
    by intros [= <- <- <-]. }
  destruct (e_inicio_id c).
  { destruct (span e_resto_id r) as [a b] eqn:E. apply span_app in E as ->.
    by intros [= <- <- <-]. }
  destruct (casar_op c r) as [[t b]|] eqn:E.
  { apply casar_op_some in E as [E ?]. intros [= <- <- <-]. by rewrite E. }
  repeat (destruct (N.eqb c _); [by intros [= <- <- <-]|]).
  destruct (e_branco c).
  { destruct (span e_branco r) as [a b] eqn:E'. apply span_app in E' as ->.
    by intros [= <- <- <-]. }
  destruct (N.eqb c nova_linha); [by intros [= <- <- <-]|].
  intros [= <- <- <-]. repeat split; [done|]. intros _. by exists c.
Qed.


Lemma finditer_ate_estavel (n : nat) :
  ∀ m s, (length s ≤ n)%nat → (length s ≤ m)%nat →
         finditer_ate n s = finditer_ate m s.
Proof.
  induction n as [|n IH]; intros m s Hn Hm.
  - destruct s; [by destruct m|simpl in Hn; lia].
  - destruct m as [|m]; [destruct s; [done|simpl in Hm; lia]|].
    cbn [finditer_ate].
    destruct (casar s) as [[[g txt] resto]|] eqn:E; [|done].
    apply casar_some in E as (-> & Hne & _). rewrite length_app in Hn, Hm.
    destruct txt; [done|]. simpl in Hn, Hm. f_equal. apply IH; lia.
Qed.

(** The equation of [finditer]: the bound never cuts the sequence short. *)
Lemma finditer_eq (s : texto) :
  finditer s =
    match casar s with
    | None => []
    | Some (g, txt, resto) => (g, txt) :: finditer resto
    end.
Proof.
  unfold finditer. destruct s as [|c r]; [done|]. cbn [finditer_ate length].
  destruct (casar (c :: r)) as [[[g txt] resto]|] eqn:E; [|done].
  apply casar_some in E as (Heq & Hne & _). f_equal.
  apply (f_equal length) in Heq. rewrite length_app in Heq. simpl in Heq.
  apply finditer_ate_estavel; destruct txt; simpl in Heq; try done; lia.
Qed.

(** Induction on the input along its matches. *)
Lemma finditer_ind (P : texto → Prop) :
  P [] →
  (∀ s g txt resto, casar s = Some (g, txt, resto) → P resto → P s) →
  ∀ s, P s.
Proof.
  intros Hnil Hpasso s.
  induction (Nat.lt_wf_0_projected (@length N) s) as [s _ IH].
  destruct (casar s) as [[[g txt] resto]|] eqn:E.
  - apply (Hpasso s g txt resto E). apply IH.
    apply casar_some in E as (-> & Hne & _). rewrite length_app.
    destruct txt; [done|]. simpl. lia.
  - destruct s; [done|discriminate].
Qed.

(** Every character of the input belongs to exactly one match. *)
Lemma finditer_cobre (s : texto) : concat (finditer s).*2 = s.
Proof.
  induction s as [|s g txt resto E IH] using finditer_ind.
  - done.
  - rewrite finditer_eq, E. rewrite fmap_cons. cbn [concat snd]. rewrite IH.
    by apply casar_some in E as (-> & _).
Qed.

Lemma finditer_outro (s : texto) :
  Forall (λ m, m.1 = OUTRO → ∃ c, m.2 = [c]) (finditer s).
Proof.
  induction s as [|s g txt resto E IH] using finditer_ind.
  - constructor.
  - rewrite finditer_eq, E. constructor; [|done]. simpl.
    apply casar_some in E as (_ & _ & H). intros Hg.
    destruct (H Hg) as (c & -> & _). by exists c.
Qed.

(** A match of the sequence is the match found at the head of what the
    matches before it leave. *)
Lemma finditer_divide (antes : list (grupo * texto)) :
  ∀ s m depois,
    finditer s = antes ++ m :: depois →
    s = concat antes.*2 ++ m.2 ++ concat depois.*2
    ∧ casar (m.2 ++ concat depois.*2) = Some (m.1, m.2, concat depois.*2).
Proof.
  induction antes as [|a antes IH]; intros s [g txt] depois; simpl.
  - rewrite finditer_eq.
    destruct (casar s) as [[[g' txt'] resto]|] eqn:E; [|done].
    intros [= -> -> Hd]. pose proof (finditer_cobre resto) as Hc.
    rewrite Hd in Hc. rewrite Hc.
    apply casar_some in E as Hs. destruct Hs as (-> & _). done.
  - rewrite finditer_eq.
    destruct (casar s) as [[[g' txt'] resto]|] eqn:E; [|done].
    intros [= <- Hd]. apply IH in Hd as [Hr Hm]. simpl in *.
    split; [|done]. apply casar_some in E as (-> & _).
    by rewrite Hr, <- app_assoc.
Qed.

(** ** The loop *)

Lemma ordenada_snoc {A} (R : A → A → Prop) (l : list A) (x : A) :
  StronglySorted R l → Forall (λ y, R y x) l → StronglySorted R (l ++ [x]).
Proof.
  induction 1 as [|y l Hl IH Hy]; intros Hx; simpl.
  - repeat constructor.
  - apply Forall_cons in Hx as [Hyx Hx]. constructor; [by apply IH|].
    apply Forall_app. split; [done|]. by constructor.
Qed.

(** [mapM] succeeds on a text of digits. *)
Lemma mapM_digitos (txt : texto) :
  Forall (λ c, e_digito c = true) txt → is_Some (mapM valor_decimal txt).
Proof.
  intros Htxt. apply mapM_is_Some. eapply Forall_impl; [exact Htxt|].
  intros c. unfold e_digito, compose.
  destruct (valor_decimal c); [by eexists|done].
Qed.

Lemma fold_digitos_nao_negativo (ds : list N) (acc : Z) :
  0 ≤ acc → 0 ≤ fold_left (λ acc d, 10 * acc + Z.of_N d) ds acc.
Proof.
  revert acc. induction ds as [|d ds IH]; intros acc Hacc; simpl; [done|].
  apply IH. lia.
Qed.

(** [int] converts exactly the texts within the limit, when the text is a
    [NUM] match; what it returns is not negative. *)
Lemma int_ok (txt : texto) :
  txt ≠ [] → Forall (λ c, e_digito c = true) txt →
  (length txt ≤ int_max_str_digits)%nat →
  ∃ n, int txt = Ok n ∧ 0 ≤ n.
Proof.
  intros Hne Htxt Hlen. unfold int.
  rewrite bool_decide_eq_false_2 by lia.
  destruct (mapM_digitos txt Htxt) as [ds Hds].
  destruct txt; [done|]. rewrite Hds. eexists. split; [done|].
  by apply fold_digitos_nao_negativo.
Qed.

Lemma int_longo (txt : texto) :
  (int_max_str_digits < length txt)%nat → int txt = Falha ValueError.
Proof. intros Hlen. unfold int. by rewrite bool_decide_eq_true_2. Qed.

Lemma int_nao_negativo (txt : texto) (n : Z) : int txt = Ok n → 0 ≤ n.
Proof.
  unfold int. case_bool_decide; [done|].
  destruct txt; [done|]. destruct (mapM _ _); [|done].
  intros [= <-]. by apply fold_digitos_nao_negativo.
Qed.

Lemma int_falha (txt : texto) (e : excecao) : int txt = Falha e → e = ValueError.
Proof.
  unfold int. case_bool_decide; [by intros [= <-]|].
  destruct txt; [by intros [= <-]|].
  destruct (mapM _ _); [done|by intros [= <-]].
Qed.

(** A [NUM] match is a non-empty run of digits. *)
Lemma casar_num (s : texto) (txt resto : texto) :
  casar s = Some (NUM, txt, resto) →
  txt ≠ [] ∧ Forall (λ c, e_digito c = true) txt.
Proof.
  destruct s as [|c r]; [done|]. unfold casar. intros [= H]. revert H.
  destruct (e_digito c) eqn:Hd.
  { destruct (span e_digito r) as [a b] eqn:E. intros [= <- <-].
    split; [done|]. constructor; [done|]. by eapply span_Forall. }
  destruct (e_inicio_id c); [destruct (span e_resto_id r); by intros [=]|].
  destruct (casar_op c r) as [[t b]|]; [by intros [=]|].
  repeat (destruct (N.eqb c _); [by intros [=]|]).
  destruct (e_branco c); [destruct (span e_branco r); by intros [=]|].
  destruct (N.eqb c nova_linha); by intros [=].
Qed.

Lemma finditer_num (s : texto) :
  Forall (λ m, m.2 ≠ [] ∧ (m.1 = NUM → Forall (λ c, e_digito c = true) m.2))
    (finditer s).
Proof.
  induction s as [|s g txt resto E IH] using finditer_ind.
  - constructor.
  - rewrite finditer_eq, E. constructor; [|done]. simpl. split.
    + by apply casar_some in E as (_ & ? & _).
    + intros ->. by apply casar_num in E as [_ ?].
Qed.

(** The kind given to a reserved word is not the end marker. *)
Lemma reservada_nao_eof (txt : texto) :
  txt ∈ PALAVRAS_RESERVADAS → upper txt ≠ codigos "EOF".
Proof.
  intros Htxt. unfold PALAVRAS_RESERVADAS in Htxt. simpl in Htxt.
  repeat (apply elem_of_cons in Htxt as [->|Htxt]; [by vm_compute|]).
  by apply elem_of_nil in Htxt.
Qed.

Lemma acrescentar_invariante (lx : lexer) (tipo : texto) (valor : Token.valor_t) :
  tipo ≠ codigos "EOF" → invariante lx → invariante (acrescentar lx tipo valor).
Proof.
  intros Htipo (Heof & Hord & Hlim). unfold invariante, acrescentar. simpl.
  split; [|split].
  - apply Forall_app. split; [done|]. by repeat constructor.
  - apply ordenada_snoc; [done|]. done.
  - apply Forall_app. split; [done|]. by repeat constructor.
Qed.

(** One iteration keeps the invariant and does not move the line back. *)
Lemma passo_invariante (m : grupo * texto) (lx lx' : lexer) :
  invariante lx → passo m lx = Ok lx' →
  invariante lx' ∧ linha lx ≤ linha lx'.
Proof.
  intros Hinv. destruct m as [g txt]. unfold passo.
  intros (lx1 & H1 & [= <-])%ligar_ok.
  assert (invariante lx1 ∧ linha lx ≤ linha lx1) as [(Heof & Hord & Hlim) Hl].
  { destruct g; simplify_eq/=;
      try (split; [apply acrescentar_invariante; [by vm_compute|done]
                  |simpl; lia]).
    - apply ligar_ok in H1 as (n & _ & [= <-]).
      split; [apply acrescentar_invariante; [by vm_compute|done]|simpl; lia].
    - case_bool_decide as Hres; simplify_eq/=.
      + split; [|lia]. apply acrescentar_invariante; [|done].
        by apply reservada_nao_eof.
      + split; [apply acrescentar_invariante; [by vm_compute|done]|lia].
    - split; [done|lia].
    - destruct Hinv as (Heof & Hord & Hlim). split; [|lia].
      split; [done|split; [done|]]. simpl.
      eapply Forall_impl; [exact Hlim|]. simpl. intros; lia. }
  split; [|done]. by split.
Qed.

(** The loop body gets past a match exactly when the match is accepted;
    otherwise it raises the lexical error or [int]'s [ValueError]. *)
Lemma passo_aceito (m : grupo * texto) (lx : lexer) :
  m.2 ≠ [] ∧ (m.1 = NUM → Forall (λ c, e_digito c = true) m.2) →
  casamento_aceito m → ∃ lx', passo m lx = Ok lx'.
Proof.
  destruct m as [g txt]. simpl. intros [Hne Hdig] [Hg Hlen]. simpl in *.
  unfold passo. destruct g; try done; try (eexists; reflexivity).
  - destruct (int_ok txt Hne (Hdig eq_refl) (Hlen eq_refl)) as (n & -> & _).
    eexists. reflexivity.
  - case_bool_decide; eexists; reflexivity.
Qed.

Lemma passo_outro (txt : texto) (lx : lexer) :
  passo (OUTRO, txt) lx = Falha (ErroLexico txt (linha lx) (coluna lx)).
Proof. reflexivity. Qed.

Lemma passo_numero_longo (txt : texto) (lx : lexer) :
  (int_max_str_digits < length txt)%nat →
  passo (NUM, txt) lx = Falha ValueError.
Proof. intros Hlen. unfold passo. by rewrite int_longo. Qed.

Lemma percorrer_aceitos (ms : list (grupo * texto)) :
  Forall (λ m, m.2 ≠ [] ∧ (m.1 = NUM → Forall (λ c, e_digito c = true) m.2))
    ms →
  Forall casamento_aceito ms →
  ∀ lx, invariante lx →
    ∃ lx', percorrer ms lx = Ok lx' ∧ invariante lx' ∧ linha lx ≤ linha lx'.
Proof.
  induction 1 as [|m ms Hm _ IH]; intros Hac lx Hinv; cbn [percorrer].
  - exists lx. split; [done|]. split; [done|lia].
  - apply Forall_cons in Hac as [Hac1 Hac].
    destruct (passo_aceito m lx Hm Hac1) as [lx1 H1]. rewrite H1.
    destruct (passo_invariante _ _ _ Hinv H1) as [Hinv1 Hl1].
    destruct (IH Hac lx1 Hinv1) as (lx' & H' & Hinv' & Hl').
    exists lx'. split; [done|]. split; [done|lia].
Qed.

Lemma percorrer_app (antes depois : list (grupo * texto)) (lx : lexer) :
  percorrer (antes ++ depois) lx = (lx' ← percorrer antes lx; percorrer depois lx').
Proof.
  revert lx. induction antes as [|m antes IH]; intros lx; [done|].
  cbn [percorrer app]. destruct (passo m lx) as [lx1|e]; [|done].
  apply IH.
Qed.

(** A match is accepted, or it is the catch-all, or it is a number that
    is too long. *)
Lemma casamento_aceito_casos (m : grupo * texto) :
  casamento_aceito m
  ∨ m.1 = OUTRO
  ∨ (m.1 = NUM ∧ (int_max_str_digits < length m.2)%nat).
Proof.
  unfold casamento_aceito. destruct (decide (m.1 = OUTRO)) as [|Hg]; [auto|].
  destruct (decide (m.1 = NUM)) as [Hn|Hn].
  - destruct (decide (length m.2 ≤ int_max_str_digits)%nat); [auto|].
    right. right. split; [done|lia].
  - left. split; [done|]. by intros ?.
Qed.

(** All the matches of a sequence are accepted, or there is a first one
    that is not. *)
Lemma primeiro_recusado (ms : list (grupo * texto)) :
  Forall casamento_aceito ms
  ∨ ∃ antes m depois,
      ms = antes ++ m :: depois ∧ Forall casamento_aceito antes
      ∧ (m.1 = OUTRO ∨ (m.1 = NUM ∧ (int_max_str_digits < length m.2)%nat)).
Proof.
  induction ms as [|m ms IH]; [left; constructor|].
  destruct (casamento_aceito_casos m) as [Hm|Hm].
  - destruct IH as [Hall|(antes & m' & depois & -> & Hantes & Hm')].
    + left. by constructor.
    + right. exists (m :: antes), m', depois. split; [done|].
      split; [by constructor|done].
  - right. exists [], m, ms. split; [done|]. split; [constructor|done].
Qed.

Lemma invariante_inicial : invariante lexer_inicial.
Proof. repeat split; constructor. Qed.

(** The three ways a scan ends: every match is accepted and the tokens
    are returned; or the first match that is not accepted is the
    catch-all, and the lexical error is raised; or it is a number that is
    too long, and [int] raises. *)
Lemma analisar_casos (codigo : texto) :
  (Forall casamento_aceito (finditer codigo)
   ∧ ∃ lx, percorrer (finditer codigo) lexer_inicial = Ok lx
           ∧ invariante lx
           ∧ analisar codigo
             = Ok (tokens lx
                   ++ [Token.Novo (codigos "EOF") Token.VNone
                         (linha lx) (coluna lx)]))
  ∨ (∃ antes c depois lx,
       finditer codigo = antes ++ (OUTRO, [c]) :: depois
       ∧ Forall casamento_aceito antes
       ∧ percorrer antes lexer_inicial = Ok lx
       ∧ analisar codigo = Falha (ErroLexico [c] (linha lx) (coluna lx)))
  ∨ (∃ antes txt depois lx,
       finditer codigo = antes ++ (NUM, txt) :: depois
       ∧ Forall casamento_aceito antes
       ∧ (int_max_str_digits < length txt)%nat
       ∧ percorrer antes lexer_inicial = Ok lx
       ∧ analisar codigo = Falha ValueError).
Proof.
  pose proof (finditer_num codigo) as Hnum.
  destruct (primeiro_recusado (finditer codigo))
    as [Hall|(antes & [g txt] & depois & Hms & Hantes & Hm)].
  - left. split; [done|].
    destruct (percorrer_aceitos _ Hnum Hall _ invariante_inicial)
      as (lx & Hp & Hinv & _).
    exists lx. split; [done|]. split; [done|].
    unfold analisar. by rewrite Hp.
  - right. rewrite Hms in Hnum. apply Forall_app in Hnum as [Hnum _].
    destruct (percorrer_aceitos _ Hnum Hantes _ invariante_inicial)
      as (lx & Hp & _ & _).
    simpl in Hm. destruct Hm as [->|[-> Hlen]].
    + left. pose proof (finditer_outro codigo) as Hum.
      rewrite Hms in Hum. apply Forall_app in Hum as [_ Hum].
      apply Forall_cons in Hum as [Hum _]. destruct (Hum eq_refl) as [c Hc].
      simpl in Hc. subst txt. exists antes, c, depois, lx.
      split; [done|]. split; [done|]. split; [done|].
      unfold analisar. rewrite Hms, percorrer_app, Hp. reflexivity.
    + right. exists antes, txt, depois, lx.
      split; [done|]. split; [done|]. split; [done|]. split; [done|].
      unfold analisar. rewrite Hms, percorrer_app, Hp.
      cbn [percorrer]. rewrite ligar_Ok_l, passo_numero_longo by done.
      reflexivity.
Qed.

(** ** C8: how a scan ends *)



(** A line of the example source, a number written with digits of two
    scripts, and the character the scanner has no pattern for. *)
Example analisar_exemplo :
  analisar (codigos "x = soma(3, 4);")
  = Ok [Token.Novo (codigos "ID") (Token.VTexto (codigos "x")) 1 1;
        Token.Novo (codigos "ATRIB") (Token.VTexto (codigos "=")) 1 3;
        Token.Novo (codigos "ID") (Token.VTexto (codigos "soma")) 1 5;
        Token.Novo (codigos "LPAREN") (Token.VTexto (codigos "(")) 1 9;
        Token.Novo (codigos "NUM") (Token.VNum 3) 1 10;
        Token.Novo (codigos "VIRG") (Token.VTexto (codigos ",")) 1 11;
        Token.Novo (codigos "NUM") (Token.VNum 4) 1 13;
        Token.Novo (codigos "RPAREN") (Token.VTexto (codigos ")")) 1 14;
        Token.Novo (codigos "PTO_V") (Token.VTexto (codigos ";")) 1 15;
        Token.Novo (codigos "EOF") Token.VNone 1 16]
  ∧ analisar ([1635%N] ++ codigos "1 x")
    = Ok [Token.Novo (codigos "NUM") (Token.VNum 31) 1 1;
          Token.Novo (codigos "ID") (Token.VTexto (codigos "x")) 1 4;
          Token.Novo (codigos "EOF") Token.VNone 1 5]
  ∧ analisar (codigos "a != b ! c") = Falha (ErroLexico (codigos "!") 1 8).
Proof. split; [|split]; vm_compute; reflexivity. Qed.

End LexicoProps.

(** * Further properties of the semantic analyser *)

Module SemanticoExtras.
Import Semantico SemanticoVoc SemanticoProps.

(** ** Scopes *)

Lemma buscar_variavel_abrir (st : estado) (n : string) :
  buscar_variavel (abrir_escopo st) n = buscar_variavel st n.
Proof.
  unfold buscar_variavel, abrir_escopo. simpl. rewrite reverse_snoc. simpl.
  by rewrite lookup_empty.
Qed.

Lemma fechar_abrir (st : estado) :
  escopos st ≠ [] → fechar_escopo (abrir_escopo st) = Ok st.
Proof.
  intros Hne.
  rewrite (fechar_escopo_interno (abrir_escopo st) (escopos st) ∅) by done.
  f_equal. by destruct st.
Qed.

(** X1: opening a scope changes what no name resolves to, and closing it
    again gives back the state unchanged; closing when only the global scope
    is left does nothing, so the global scope is never removed. *)
Theorem X1_abrir_fechar (st : estado) :
  escopos st ≠ [] →
  fechar_escopo (abrir_escopo st) = Ok st
  ∧ (∀ n, buscar_variavel (abrir_escopo st) n = buscar_variavel st n)
  ∧ (length (escopos st) = 1%nat → fechar_escopo st = Ok st)
  ∧ (∀ st', fechar_escopo st = Ok st' → escopos st' ≠ []).
Proof.
  intros Hne. split; [by apply fechar_abrir|].
  split; [apply buscar_variavel_abrir|]. split.
  - intros Hum. unfold fechar_escopo. by rewrite Hum.
  - intros st'. unfold fechar_escopo.
    destruct (length (escopos st) =? 1)%nat eqn:E; [by intros [= <-]|].
    destruct (escopos st) as [|g [|e es]] eqn:Hes; [done|done|].
    intros [= <-]. simpl. done.
Qed.

Lemma X1_abrir_fechar_exemplo :
  fechar_escopo (abrir_escopo estado_inicial) = Ok estado_inicial
  ∧ fechar_escopo estado_inicial = Ok estado_inicial.
Proof.
  destruct (X1_abrir_fechar estado_inicial) as (H1 & _ & H2 & _); [done|].
  split; [exact H1|]. apply H2. reflexivity.
Defined.

Lemma last_decompor {A} (l : list A) (x : A) :
  last l = Some x → ∃ base, l = base ++ [x].
Proof.
  intros H. destruct l as [|y l] using rev_ind; [done|].
  rewrite last_snoc in H. injection H as ->. by eexists.
Qed.

(** X2: a successful declaration binds the name to its type for lookup,
    leaves what every other name resolves to as it was, and changes neither
    the depth of the scope stack nor the signature tables; with no scope on
    the stack it raises [IndexError]. *)
Theorem X2_declarar_preserva (nome tipo : string) (st st' : estado) :
  declarar_variavel_atual nome tipo st = Ok st' →
  buscar_variavel st' nome = Some tipo
  ∧ (∀ n, n ≠ nome → buscar_variavel st' n = buscar_variavel st n)
  ∧ length (escopos st') = length (escopos st)
  ∧ mesmas_tabelas st st'
  ∧ declarar_variavel_atual nome tipo (com_escopos st []) = Falha IndexError.
Proof.
  intros Hd. split; [|split; [|split; [|split]]]; [| | | |done].
  - pose proof Hd as Hd'. unfold declarar_variavel_atual in Hd'.
    destruct (last (escopos st)) as [atual|] eqn:Hl; [|done].
    apply last_decompor in Hl as [base Hes]. clear Hd'.
    rewrite (declarar_variavel_atual_topo st base atual) in Hd by done.
    case_decide; [done|]. injection Hd as <-.
    unfold buscar_variavel. simpl. rewrite reverse_snoc. simpl.
    by rewrite lookup_insert_eq.
  - intros n Hne. pose proof Hd as Hd'. unfold declarar_variavel_atual in Hd'.
    destruct (last (escopos st)) as [atual|] eqn:Hl; [|done].
    apply last_decompor in Hl as [base Hes]. clear Hd'.
    rewrite (declarar_variavel_atual_topo st base atual) in Hd by done.
    case_decide; [done|]. injection Hd as <-.
    unfold buscar_variavel. simpl. rewrite Hes, !reverse_snoc. simpl.
    by rewrite lookup_insert_ne.
  - unfold declarar_variavel_atual in Hd. destruct (last _); [|done].
    case_decide; [done|]. injection Hd as <-. simpl. apply length_insert.
  - by eapply declarar_variavel_atual_tabelas.
Qed.

Lemma X2_declarar_preserva_exemplo :
  let st := Estado [] [] [{["x" := "int"]}; ∅] in
  ∃ st', declarar_variavel_atual "y" "boolean" st = Ok st'
         ∧ buscar_variavel st' "y" = Some "boolean"
         ∧ buscar_variavel st' "x" = Some "int".
Proof.
  intros st. eexists. split; [reflexivity|].
  edestruct (X2_declarar_preserva "y" "boolean" st) as (Hy & Hx & _);
    [reflexivity|].
  split; [exact Hy|]. rewrite Hx by discriminate. reflexivity.
Defined.

(** ** Registration *)

(** X3: registering a signature, as a function or as a procedure, fails
    with [DuplicateSignature] exactly when the name is already in either
    table; when it succeeds the name resolves to the registered signature,
    every other name and the scope stack are untouched, and registering the
    same name again, as either kind, fails. *)
Theorem X3_registro (st : estado) (nome tipo_ret : string)
  (params params' : parametros) :
  (Dict.contem (tabela_funcoes st) nome || Dict.contem (tabela_proceds st) nome
   = true →
     registrar_funcao nome tipo_ret params st = erro (DuplicateSignature nome)
     ∧ registrar_procedimento nome params st = erro (DuplicateSignature nome))
  ∧ (Dict.contem (tabela_funcoes st) nome || Dict.contem (tabela_proceds st) nome
     = false →
     ∃ stf stp,
       registrar_funcao nome tipo_ret params st = Ok stf
       ∧ registrar_procedimento nome params st = Ok stp
       ∧ Dict.get (tabela_funcoes stf) nome = Some (tipo_ret, params)
       ∧ Dict.get (tabela_proceds stp) nome = Some params
       ∧ (∀ n, n ≠ nome →
            Dict.get (tabela_funcoes stf) n = Dict.get (tabela_funcoes st) n
            ∧ Dict.get (tabela_proceds stp) n = Dict.get (tabela_proceds st) n)
       ∧ tabela_proceds stf = tabela_proceds st
       ∧ tabela_funcoes stp = tabela_funcoes st
       ∧ escopos stf = escopos st ∧ escopos stp = escopos st
       ∧ registrar_funcao nome tipo_ret params' stf = erro (DuplicateSignature nome)
       ∧ registrar_procedimento nome params' stf = erro (DuplicateSignature nome)
       ∧ registrar_funcao nome tipo_ret params' stp = erro (DuplicateSignature nome)
       ∧ registrar_procedimento nome params' stp = erro (DuplicateSignature nome)).
Proof.
  unfold registrar_funcao, registrar_procedimento. split.
  - by intros ->.
  - intros Hlivre. rewrite Hlivre. do 2 eexists.
    split; [reflexivity|]. split; [reflexivity|]. simpl.
    rewrite !dict_get_set, !dict_contem_set, !String.eqb_refl. simpl.
    rewrite orb_true_r. repeat split; try done.
    + rewrite dict_get_set. by rewrite (proj2 (String.eqb_neq _ _)).
    + rewrite dict_get_set. by rewrite (proj2 (String.eqb_neq _ _)).
Qed.

Lemma X3_registro_exemplo :
  ∃ stf, registrar_funcao "f" "int" [] estado_inicial = Ok stf
         ∧ registrar_procedimento "f" [] stf = erro (DuplicateSignature "f").
Proof.
  destruct (X3_registro estado_inicial "f" "int" [] []) as [_ H].
  destruct (H eq_refl) as (stf & stp & Hf & _ & _ & _ & _ & _ & _ & _ & _ & _ & Hp & _).
  exists stf. split; [exact Hf|exact Hp].
Defined.

(** ** The first pass *)

Lemma primeiro_passe_cons (elem : node) (resto : list node) (st : estado) :
  primeiro_passe (elem :: resto) st
  = (st1 ← primeiro_passe_elem elem st; primeiro_passe resto st1).
Proof. reflexivity. Qed.


Lemma dict_contem_false {V} (d : Dict.t V) (n : string) :
  Dict.contem d n = false ↔ Dict.get d n = None.
Proof. unfold Dict.contem. by destruct (Dict.get d n). Qed.

(** What a successful first pass adds to the global scope and to the two
    tables: the declarations of the program, and nothing else. *)
Lemma primeiro_passe_efeito (elems : list node) :
  ∀ st st' g r, escopos st = g :: r →
    primeiro_passe elems st = Ok st' →
    ∃ g', escopos st' = g' :: r
      ∧ (∀ n t, g' !! n = Some t
                ↔ g !! n = Some t ∨ ∃ e, Vardecl t n e ∈ elems)
      ∧ (∀ n t ps, Dict.get (tabela_funcoes st') n = Some (t, ps)
                   ↔ Dict.get (tabela_funcoes st) n = Some (t, ps)
                     ∨ Funcdecl n t ps ∈ elems)
      ∧ (∀ n ps, Dict.get (tabela_proceds st') n = Some ps
                 ↔ Dict.get (tabela_proceds st) n = Some ps
                   ∨ Procdecl n ps ∈ elems).
Proof.
  induction elems as [|elem elems IH]; intros st st' g r Hes.
  { intros [= <-]. exists g. split; [done|].
    setoid_rewrite elem_of_nil. naive_solver. }
  rewrite primeiro_passe_cons. intros (st1 & H1 & H2)%ligar_ok.
  setoid_rewrite elem_of_cons.
  destruct elem as
    [tipo nome init|nome tipo params|nome params| | | | | | | | | |k];
    try (injection H1 as <-; destruct (IH _ _ _ _ Hes H2) as (g' & ? & ? & ? & ?);
         exists g'; naive_solver).
  - cbn [primeiro_passe_elem] in H1. rewrite Hes in H1.
    destruct (decide (is_Some (g !! nome))) as [|Hn]; [done|].
    apply eq_None_not_Some in Hn. injection H1 as <-.
    destruct (IH (com_escopos st (<[nome := tipo]> g :: r)) st'
                (<[nome := tipo]> g) r eq_refl H2) as (g' & Hg' & Hv & Hf & Hp).
    exists g'. split; [done|]. split; [|split].
    + intros n t. rewrite Hv, lookup_insert_Some. naive_solver.
    + intros n t ps. rewrite Hf. simpl. naive_solver.
    + intros n ps. rewrite Hp. simpl. naive_solver.
  - cbn [primeiro_passe_elem] in H1. unfold registrar_funcao in H1.
    destruct (_ || _) eqn:Hc; [done|]. injection H1 as <-.
    apply orb_false_iff in Hc as [Hc _]. apply dict_contem_false in Hc.
    eapply IH in H2 as (g' & Hg' & Hv & Hf & Hp); [|exact Hes].
    exists g'. split; [done|]. split; [|split].
    + intros n t. rewrite Hv. naive_solver.
    + intros n t ps. rewrite Hf. simpl. rewrite dict_get_set.
      destruct (String.eqb_spec nome n) as [->|Hne]; naive_solver.
    + intros n ps. rewrite Hp. simpl. naive_solver.
  - cbn [primeiro_passe_elem] in H1. unfold registrar_procedimento in H1.
    destruct (_ || _) eqn:Hc; [done|]. injection H1 as <-.
    apply orb_false_iff in Hc as [_ Hc]. apply dict_contem_false in Hc.
    eapply IH in H2 as (g' & Hg' & Hv & Hf & Hp); [|exact Hes].
    exists g'. split; [done|]. split; [|split].
    + intros n t. rewrite Hv. naive_solver.
    + intros n t ps. rewrite Hf. simpl. naive_solver.
    + intros n ps. rewrite Hp. simpl. rewrite dict_get_set.
      destruct (String.eqb_spec nome n) as [->|Hne]; naive_solver.
  - cbn [primeiro_passe_elem] in H1. destruct (_ || _); [done|].
    injection H1 as <-. destruct (IH _ _ _ _ Hes H2) as (g' & ? & ? & ? & ?).
    exists g'. naive_solver.
Qed.

(** X4: after a successful first pass every signature of the program is
    in its table, wherever the declaration stands in the program, and every
    global variable resolves to its declared type; conversely the tables and
    the global scope hold nothing that the program does not declare.  A call
    may therefore precede the declaration of its callee. *)
Theorem X4_primeiro_passe_registra (elems : list node) (st : estado) :
  primeiro_passe elems (Estado [] [] [∅]) = Ok st →
  (∀ n t ps, Dict.get (tabela_funcoes st) n = Some (t, ps)
             ↔ Funcdecl n t ps ∈ elems)
  ∧ (∀ n ps, Dict.get (tabela_proceds st) n = Some ps ↔ Procdecl n ps ∈ elems)
  ∧ (∀ n t, buscar_variavel st n = Some t ↔ ∃ e, Vardecl t n e ∈ elems)
  ∧ length (escopos st) = 1%nat.
Proof.
  intros H.
  destruct (primeiro_passe_efeito elems (Estado [] [] [∅]) st ∅ [] eq_refl H)
    as (g & Hes & Hv & Hf & Hp).
  split; [|split; [|split]].
  - intros n t ps. rewrite Hf. simpl. naive_solver.
  - intros n ps. rewrite Hp. simpl. naive_solver.
  - intros n t. unfold buscar_variavel. rewrite Hes. simpl.
    trans (g !! n = Some t); [by destruct (g !! n)|].
    rewrite Hv, lookup_empty. naive_solver.
  - by rewrite Hes.
Qed.

Lemma X4_primeiro_passe_registra_exemplo :
  ∃ st, primeiro_passe (Call "f" [] :: [Funcdecl "f" "int" []])
          (Estado [] [] [∅]) = Ok st
        ∧ Dict.get (tabela_funcoes st) "f" = Some ("int", []).
Proof.
  destruct (X4_primeiro_passe_registra (Call "f" [] :: [Funcdecl "f" "int" []])
              (Estado [("f", ("int", []))] [] [∅]) eq_refl) as (Hf & _).
  eexists. split; [reflexivity|]. apply Hf.
  apply elem_of_cons. right. apply elem_of_cons. by left.
Defined.


(** ** What statement checks leave behind *)

Lemma para_cada_elemento_quadro (cmds : list node) (st st' : estado) :
  para_cada checar_elemento cmds st = Ok st' → quadro st st'.
Proof.
  apply para_cada_quadro. apply Forall_forall. intros x _.
  apply checar_elemento_quadro.
Qed.

Lemma bloco_elemento_restaura (cmds : list node) (st st1 st2 : estado) :
  escopos st ≠ [] →
  para_cada checar_elemento cmds (abrir_escopo st) = Ok st1 →
  fechar_escopo st1 = Ok st2 →
  st2 = st.
Proof.
  apply bloco_restaura. apply Forall_forall. intros x _.
  apply checar_elemento_quadro.
Qed.

(** A checked [if] or [while] statement leaves a non-empty scope stack
    exactly as it was. *)
Lemma checar_elemento_ramos_restaura (elem : node) (st st' : estado) :
  kind_of elem = Some "if" ∨ kind_of elem = Some "while" →
  escopos st ≠ [] →
  checar_elemento elem st = Ok st' →
  st' = st.
Proof.
  intros Hk Hne. destruct elem; simpl in Hk; try (by destruct Hk); simpl.
  - intros (tcond & _ & H)%ligar_ok. destruct (negb _); [done|].
    apply ligar_ok in H as (st1 & Hb & (st2 & Hf & H)%ligar_ok).
    assert (st2 = st) as -> by by eapply bloco_elemento_restaura.
    destruct senao as [cmds|]; [|by injection H as <-].
    apply ligar_ok in H as (st3 & Hb' & Hf').
    by eapply bloco_elemento_restaura.
  - intros (tcond & _ & H)%ligar_ok. destruct (negb _); [done|].
    apply ligar_ok in H as (st1 & Hb & Hf).
    by eapply bloco_elemento_restaura.
  - unfold checar_outro, checar_jump.
    repeat (destruct (kind_e kind _); [done|]). by intros [= <-].
Qed.

(** X6: a statement accepted by the single-statement checker never
    changes the signature tables, the depth of the scope stack or any scope
    below the innermost one, and can only add bindings to the innermost
    scope; an accepted [if] or [while] changes nothing at all, so what its
    branches declare is gone when it ends. *)
Theorem X6_elemento_preserva (elem : node) (st st' : estado)
  (base : list (gmap string string)) (topo : gmap string string) :
  escopos st = base ++ [topo] →
  checar_elemento elem st = Ok st' →
  mesmas_tabelas st st'
  ∧ (∃ topo', escopos st' = base ++ [topo'] ∧ topo ⊆ topo')
  ∧ (kind_of elem = Some "if" ∨ kind_of elem = Some "while" → st' = st).
Proof.
  intros Hes Hc. destruct (checar_elemento_quadro elem st st' Hc) as [Ht Hq].
  split; [done|]. split; [by apply Hq|].
  intros Hk. eapply checar_elemento_ramos_restaura; [done| |done].
  rewrite Hes. by destruct base.
Qed.

Lemma X6_elemento_preserva_exemplo :
  checar_elemento
    (While (bool_lit true) [Vardecl "int" "y" ENone; Assign "y" (int_lit 1)])
    estado_inicial
  = Ok estado_inicial.
Proof.
  destruct (checar_elemento
              (While (bool_lit true)
                 [Vardecl "int" "y" ENone; Assign "y" (int_lit 1)])
              estado_inicial) as [st'|e] eqn:E; [|by vm_compute in E].
  destruct (X6_elemento_preserva _ estado_inicial st' [] ∅ eq_refl E)
    as (_ & _ & Hst).
  f_equal. apply Hst. by right.
Defined.

(** ** What a body check leaves behind *)

Lemma _checar_corpo_funcional_restaura (nome : string) (params : parametros)
  (body : list node) (is_function : bool) (st st' : estado) :
  escopos st ≠ [] →
  _checar_corpo_funcional nome params body is_function st = Ok st' →
  st' = st.
Proof.
  intros Hne. unfold _checar_corpo_funcional.
  intros (st1 & Hp & ([st2 enc] & Hc & (st3 & Hf & H)%ligar_ok)%ligar_ok)%ligar_ok.
  destruct (_ && _); [done|]. injection H as <-. simpl in Hf.
  destruct (declarar_parametros_quadro _ _ _ Hp) as [Ht1 Hq1].
  destruct (Hq1 (escopos st) ∅ eq_refl) as (t1 & Hes1 & _).
  destruct (checar_corpo_quadro _ _ _ _ _ _ _ Hc) as [Ht2 Hq2].
  destruct (Hq2 _ _ Hes1) as (t2 & Hes2 & _).
  rewrite (fechar_escopo_interno st2 (escopos st) t2) in Hf by done.
  injection Hf as <-. apply estado_eq; [|done].
  eapply mesmas_tabelas_trans; [exact Ht1|]. destruct Ht2 as [? ?]. by split.
Qed.

(** X7: an accepted function or procedure body leaves the analyser state
    exactly as it found it: the scope of the parameters and locals is
    popped, the enclosing scopes and both tables are untouched. *)
Theorem X7_corpo_restaura (nome : string) (params : parametros)
  (body : list node) (is_function : bool) (st st' : estado) :
  escopos st ≠ [] →
  _checar_corpo_funcional nome params body is_function st = Ok st' →
  st' = st.
Proof. apply _checar_corpo_funcional_restaura. Qed.

Lemma X7_corpo_restaura_exemplo :
  let st := Estado [("soma", ("int", [("int", "a"); ("int", "b")]))] []
              [{["x" := "int"]}] in
  _checar_corpo_funcional "soma" [("int", "a"); ("int", "b")]
    [Vardecl "int" "t" (EVar "a"); Return (EBinop "+" (EVar "t") (EVar "b"))]
    true st
  = Ok st.
Proof.
  intros st.
  destruct (_checar_corpo_funcional _ _ _ _ st) as [st'|e] eqn:E;
    [|by vm_compute in E].
  f_equal. by apply (X7_corpo_restaura _ _ _ _ st st' ltac:(done) E).
Defined.

(** ** Where a [return] may stand *)

Lemma para_cada_sucede_cada {A} (f : A → estado → resultado estado)
  (xs : list A) :
  ∀ st st', para_cada f xs st = Ok st' →
    Forall (λ x, ∃ s s', f x s = Ok s') xs.
Proof.
  induction xs as [|x xs IH]; intros st st'; simpl; [constructor|].
  intros (st1 & H1 & H2)%ligar_ok. constructor; [by eauto|by eapply IH].
Qed.

Lemma existsb_false_Forall {A} (p : A → bool) (xs : list A) :
  Forall (λ x, p x = false) xs → existsb p xs = false.
Proof. induction 1 as [|x xs Hx _ IH]; simpl; [done|]. by rewrite Hx. Qed.

(** The single-statement checker accepts no statement that holds a
    [return], at any depth. *)
Lemma checar_elemento_sem_return (elem : node) :
  ∀ st st', checar_elemento elem st = Ok st' → contem_return elem = false.
Proof.
  assert (∀ cmds s s',
            Forall (λ x, ∀ st st', checar_elemento x st = Ok st' →
                           contem_return x = false) cmds →
            para_cada checar_elemento cmds s = Ok s' →
            existsb contem_return cmds = false) as Hramo.
  { intros cmds s s' Hall Hb. apply para_cada_sucede_cada in Hb.
    apply existsb_false_Forall, Forall_forall. intros x Hx.
    rewrite Forall_forall in Hall, Hb. destruct (Hb x Hx) as (s1 & s2 & Hs).
    by eapply Hall. }
  induction elem as
    [tipo nome init| | | | |nome e|nome args|e|cond body senao Hbody Hsenao
    |cond body Hbody|e|op|k] using node_ind_aninhada; intros st st';
    simpl; try done.
  - intros (tcond & _ & H)%ligar_ok. destruct (negb _); [done|].
    apply ligar_ok in H as (st1 & Hb & (st2 & Hf & H)%ligar_ok).
    apply orb_false_iff. split; [by eapply Hramo|].
    destruct senao as [cmds|]; [|done].
    apply ligar_ok in H as (st3 & Hb' & _). eapply Hramo; [|exact Hb'].
    by apply Hsenao.
  - intros (tcond & _ & H)%ligar_ok. destruct (negb _); [done|].
    apply ligar_ok in H as (st1 & Hb & _). by eapply Hramo.
  - unfold checar_outro, checar_jump.
    repeat (destruct (kind_e k _); [done|]). done.
Qed.

Lemma checar_corpo_returns (nome : string) (is_function : bool)
  (body : list node) :
  ∀ ac ac', checar_corpo nome is_function body ac = Ok ac' →
    Forall (λ cmd, if decide (e_return cmd)
                   then is_function = true ∧ ∃ e, cmd = Return e
                   else contem_return cmd = false) body.
Proof.
  induction body as [|cmd body IH]; intros [st enc] ac'; cbn [checar_corpo];
    [constructor|].
  intros ([st1 enc1] & Hc & Hresto)%ligar_ok. constructor; [|by eapply IH].
  case_decide as Hr.
  - unfold e_return in Hr. destruct cmd; simplify_eq/=.
    + destruct is_function; [by eauto|done].
    + by apply ligar_ok in Hc as (? & _ & ?).
  - rewrite checar_comando_corpo_nao_return in Hc by done.
    apply ligar_ok in Hc as (s & Hc & _). by eapply checar_elemento_sem_return.
Qed.

(** X8: no accepted statement holds a [return] inside a branch of an
    [if] or the body of a [while]: the single-statement checker rejects
    every statement that contains one, at any depth, so in an accepted
    function body every [return] is a direct statement of the body. *)
Theorem X8_return_so_direto (nome : string) (params : parametros)
  (body : list node) (st st' : estado) :
  _checar_corpo_funcional nome params body true st = Ok st' →
  Forall (λ cmd, (∃ e, cmd = Return e) ∨ contem_return cmd = false) body
  ∧ Exists (λ cmd, ∃ e, cmd = Return e) body
  ∧ ∀ elem s s', checar_elemento elem s = Ok s' → contem_return elem = false.
Proof.
  unfold _checar_corpo_funcional.
  intros (st1 & Hp & ([st2 enc] & Hc & (st3 & Hf & H)%ligar_ok)%ligar_ok)%ligar_ok.
  pose proof (checar_corpo_returns _ _ _ _ _ Hc) as Hall.
  split; [|split; [|apply checar_elemento_sem_return]].
  - eapply Forall_impl; [exact Hall|]. intros cmd Hcmd. simpl in Hcmd.
    case_decide; [left; by destruct Hcmd|by right].
  - simpl in H. destruct enc; [|done].
    destruct (decide (Forall (λ cmd, ¬ e_return cmd) body)) as [Hsem|Hcom].
    + by destruct (checar_corpo_sem_return _ _ _ Hsem _ _ _ _ Hc).
    + apply not_Forall_Exists in Hcom; [|apply _].
      apply Exists_exists in Hcom as (cmd & Hin & Hr).
      apply Exists_exists. exists cmd. split; [done|].
      rewrite Forall_forall in Hall. specialize (Hall cmd Hin). simpl in *.
      case_decide; [by destruct Hall|]. by destruct Hr.
Qed.

Lemma X8_return_so_direto_exemplo :
  let st := Estado [("f", ("int", []))] [] [∅] in
  sucedeu (_checar_corpo_funcional "f" []
             [While (bool_lit true) [If (bool_lit true) [Return (int_lit 1)] None];
              Return (int_lit 0)] true st) = false.
Proof.
  intros st.
  destruct (_checar_corpo_funcional _ _ _ _ st) as [st'|e] eqn:E; [|done].
  destruct (X8_return_so_direto _ _ _ _ _ E) as (Hall & _).
  apply Forall_cons in Hall as [[[e He]|Hc] _]; discriminate.
Defined.

(** X9: in a procedure body a direct [return] is rejected with
    [ReturnInProcedure] as soon as the statements before it have been
    accepted, whatever its expression; so an accepted procedure body holds
    no [return] at all, direct or nested. *)
Theorem X9_procedimento_sem_return (nome : string) (antes : list node)
  (e : expr) (depois : list node) (s : estado) (enc : bool)
  (ac : estado * bool) :
  checar_corpo nome false antes (s, enc) = Ok ac →
  checar_corpo nome false (antes ++ Return e :: depois) (s, enc)
  = erro (ReturnInProcedure nome)
  ∧ ∀ params body st st',
      _checar_corpo_funcional nome params body false st = Ok st' →
      Forall (λ cmd, contem_return cmd = false) body.
Proof.
  intros Hantes. split.
  - revert s enc ac Hantes. induction antes as [|cmd antes IH];
      intros s enc ac; cbn [checar_corpo app].
    + done.
    + intros ([s1 e1] & H1 & H2)%ligar_ok. rewrite H1, ligar_Ok_l.
      by eapply IH.
  - intros params body st st' Hc. unfold _checar_corpo_funcional in Hc.
    apply ligar_ok in Hc as (st1 & Hp & ([st2 enc2] & Hc & _)%ligar_ok).
    eapply Forall_impl; [exact (checar_corpo_returns _ _ _ _ _ Hc)|].
    intros cmd Hcmd. simpl in Hcmd. case_decide; [by destruct Hcmd|done].
Qed.

Lemma X9_procedimento_sem_return_exemplo :
  let st := Estado [] [("p", [])] [{["x" := "int"]}; ∅] in
  checar_corpo "p" false [Assign "x" (int_lit 1); Return ENone; Print ENone]
    (st, false)
  = erro (ReturnInProcedure "p").
Proof.
  intros st.
  by destruct (X9_procedimento_sem_return "p" [Assign "x" (int_lit 1)] ENone
                 [Print ENone] st false (st, false) eq_refl) as [H _].
Defined.

(** ** Accepted programs *)

Lemma segundo_passe_elem_quadro (elem : node) (p p' : passe2) :
  segundo_passe_elem elem p = Ok p' → quadro (analisador p) (analisador p').
Proof.
  destruct elem; simpl.
  - intros (? & _ & [= <-])%ligar_ok. apply quadro_refl.
  - intros [= <-]. apply quadro_refl.
  - intros [= <-]. apply quadro_refl.
  - destruct (negb _); [done|]. intros (st' & Hc & [= <-])%ligar_ok. simpl.
    split; [by eapply _checar_corpo_funcional_tabelas|].
    intros base topo Hes.
    rewrite (_checar_corpo_funcional_restaura _ _ _ _ _ _ ltac:(rewrite Hes; by destruct base) Hc).
    by exists topo.
  - destruct (negb _); [done|]. intros (st' & Hc & [= <-])%ligar_ok. simpl.
    split; [by eapply _checar_corpo_funcional_tabelas|].
    intros base topo Hes.
    rewrite (_checar_corpo_funcional_restaura _ _ _ _ _ _ ltac:(rewrite Hes; by destruct base) Hc).
    by exists topo.
  - intros (? & _ & [= <-])%ligar_ok. apply quadro_refl.
  - intros (? & _ & [= <-])%ligar_ok. apply quadro_refl.
  - done.
  - intros (t & _ & H)%ligar_ok. destruct (negb _); [done|].
    apply ligar_ok in H as (st1 & H1 & H).
    apply para_cada_elemento_quadro in H1.
    destruct senao as [cmds|].
    + apply ligar_ok in H as (st2 & H2 & [= <-]).
      apply para_cada_elemento_quadro in H2. simpl. by eapply quadro_trans.
    + by injection H as <-.
  - intros (t & _ & H)%ligar_ok. destruct (negb _); [done|].
    apply ligar_ok in H as (st1 & H1 & [= <-]).
    by apply para_cada_elemento_quadro in H1.
  - intros (? & (? & _ & [= <-])%ligar_ok & [= <-])%ligar_ok. apply quadro_refl.
  - intros (st' & Hj & [= <-])%ligar_ok.
    by apply (checar_elemento_quadro (Jump op)) in Hj.
  - destruct (kind_e kind "vardecl"); [intros [= <-]; apply quadro_refl|].
    destruct (_ || _); [done|]. intros (st' & Ho & [= <-])%ligar_ok.
    by apply (checar_elemento_quadro (Outro kind)) in Ho.
Qed.

Lemma segundo_passe_quadro (elems : list node) :
  ∀ p p', segundo_passe elems p = Ok p' →
    quadro (analisador p) (analisador p').
Proof.
  induction elems as [|elem elems IH]; intros p p'; cbn [segundo_passe].
  - intros [= <-]. apply quadro_refl.
  - intros (p1 & H1 & H2)%ligar_ok.
    eapply quadro_trans; [by eapply segundo_passe_elem_quadro|by eapply IH].
Qed.

(** Every body the second pass gets through names a signature of the
    matching table. *)
Lemma segundo_passe_corpos_declarados (elems : list node) :
  ∀ p p', segundo_passe elems p = Ok p' →
    (∀ n, n ∈ nomes_funcbody elems →
          Dict.contem (tabela_funcoes (analisador p)) n = true)
    ∧ (∀ n, n ∈ nomes_procbody elems →
            Dict.contem (tabela_proceds (analisador p)) n = true).
Proof.
  induction elems as [|elem elems IH]; intros p p'; cbn [segundo_passe].
  { intros _. split; by intros n ?%elem_of_nil. }
  intros (p1 & H1 & H2)%ligar_ok.
  destruct (segundo_passe_elem_quadro _ _ _ H1) as [[Tf Tp] _].
  destruct (IH _ _ H2) as [Hf Hp]. rewrite Tf in Hf. rewrite Tp in Hp.
  unfold nomes_funcbody, nomes_procbody.
  destruct elem; simpl; try done.
  - split; [|done]. intros n [->|Hin]%elem_of_cons; [|by apply Hf].
    simpl in H1. by destruct (Dict.contem _ _).
  - split; [done|]. intros n [->|Hin]%elem_of_cons; [|by apply Hp].
    simpl in H1. by destruct (Dict.contem _ _).
Qed.

(** X10: in an accepted program the function bodies are exactly the
    declared functions and the procedure bodies exactly the declared
    procedures; the state left on the analyser has the tables of the first
    pass, each name resolving to the signature the program declares, and a
    scope stack holding the global scope alone. *)
Theorem X10_programa_aceito (elems : list node) (st : estado) :
  checar_programa elems = Ok st →
  (∀ n, n ∈ nomes_funcbody elems ↔ ∃ t ps, Funcdecl n t ps ∈ elems)
  ∧ (∀ n, n ∈ nomes_procbody elems ↔ ∃ ps, Procdecl n ps ∈ elems)
  ∧ (∀ n t ps, Dict.get (tabela_funcoes st) n = Some (t, ps)
               ↔ Funcdecl n t ps ∈ elems)
  ∧ (∀ n ps, Dict.get (tabela_proceds st) n = Some ps ↔ Procdecl n ps ∈ elems)
  ∧ length (escopos st) = 1%nat.
Proof.
  unfold checar_programa.
  intros (st1 & H1 & (p & H2 & ([] & H3 & [= <-])%ligar_ok)%ligar_ok)%ligar_ok.
  destruct (primeiro_passe_efeito elems (Estado [] [] [∅]) st1 ∅ [] eq_refl H1)
    as (g & Hes & _ & Hf & Hp). simpl in Hf, Hp.
  destruct (segundo_passe_efeito _ _ _ H2) as ([Tf Tp] & Fb & Pb).
  simpl in Tf, Tp, Fb, Pb.
  destruct (segundo_passe_corpos_declarados _ _ _ H2) as [Df Dp].
  simpl in Df, Dp.
  destruct (segundo_passe_quadro _ _ _ H2) as [_ Hq]. simpl in Hq.
  destruct (Hq [] g Hes) as (g' & Hes' & _).
  unfold terceiro_passe in H3.
  apply ligar_ok in H3 as ([] & Hcf & Hcp).
  apply exigir_corpos_ok in Hcf, Hcp. rewrite Forall_forall in Hcf, Hcp.
  rewrite Tf in Hcf. rewrite Tp in Hcp. rewrite Fb in Hcf. rewrite Pb in Hcp.
  split; [|split; [|split; [|split]]].
  - intros n. split.
    + intros Hin%Df. unfold Dict.contem in Hin.
      destruct (Dict.get (tabela_funcoes st1) n) as [[t ps]|] eqn:E; [|done].
      exists t, ps. apply Hf in E. naive_solver.
    + intros (t & ps & Hin).
      assert (Dict.get (tabela_funcoes st1) n = Some (t, ps)) as E
        by (apply Hf; by right).
      assert (n ∈ Dict.chaves (tabela_funcoes st1)) as Hk.
      { apply dict_contem_chaves. unfold Dict.contem. by rewrite E. }
      specialize (Hcf n Hk). set_solver.
  - intros n. split.
    + intros Hin%Dp. unfold Dict.contem in Hin.
      destruct (Dict.get (tabela_proceds st1) n) as [ps|] eqn:E; [|done].
      exists ps. apply Hp in E. naive_solver.
    + intros (ps & Hin).
      assert (Dict.get (tabela_proceds st1) n = Some ps) as E
        by (apply Hp; by right).
      assert (n ∈ Dict.chaves (tabela_proceds st1)) as Hk.
      { apply dict_contem_chaves. unfold Dict.contem. by rewrite E. }
      specialize (Hcp n Hk). set_solver.
  - intros n t ps. rewrite Tf, Hf. naive_solver.
  - intros n ps. rewrite Tp, Hp. naive_solver.
  - by rewrite Hes'.
Qed.

Lemma X10_programa_aceito_exemplo :
  sucedeu (checar_programa
             [Funcdecl "f" "int" []; Funcbody "f" [] [Return (int_lit 0)];
              Funcbody "g" [] [Return (int_lit 0)]]) = false.
Proof.
  destruct (checar_programa _) as [st|e] eqn:E; [|done].
  destruct (X10_programa_aceito _ st E) as (Hf & _).
  destruct (proj1 (Hf "g")) as (t & ps & Hin).
  - unfold nomes_funcbody. simpl. set_solver.
  - set_solver.
Defined.

(** ** Expressions and calls *)

Lemma pertence_false (op : string) (l : list string) :
  op ∉ l → pertence op l = false.
Proof.
  intros Hn. destruct (pertence op l) eqn:E; [|done].
  by apply pertence_elem_of in E.
Qed.

(** X11: with both operands typed, a logical operator ([&&], [||]) yields
    [boolean] exactly when both operands are [boolean]; an operator outside
    the three operator lists is rejected with [UnknownOperator] whatever
    the operand types; the unary [!] yields [boolean] exactly on a
    [boolean] operand, and every other unary operator, or a missing one, is
    rejected with [UnknownOperator]. *)
Theorem X11_operadores (st : estado) (op : string) (uop : option string)
  (l r : expr) (tl tr : string) :
  avaliar_expressao_tipo st l = Ok tl →
  avaliar_expressao_tipo st r = Ok tr →
  (op ∈ logicos →
     avaliar_expressao_tipo st (EBinop op l r)
     = if decide (tl = "boolean" ∧ tr = "boolean") then Ok "boolean"
       else erro (OperandType op))
  ∧ (op ∉ aritmeticos ++ relacionais ++ logicos →
     avaliar_expressao_tipo st (EBinop op l r) = erro (UnknownOperator (Some op)))
  ∧ avaliar_expressao_tipo st (EUnop uop l)
    = if decide (uop = Some "!")
      then if decide (tl = "boolean") then Ok "boolean"
           else erro (OperandType "!")
      else erro (UnknownOperator uop).
Proof.
  intros Hl Hr. split; [|split].
  - intros Hop.
    assert (pertence op aritmeticos = false ∧ pertence op relacionais = false)
      as [Ha Hrel].
    { unfold logicos in Hop. set_unfold in Hop.
      destruct Hop as [->|[->|[]]]; by split. }
    apply pertence_elem_of in Hop.
    rewrite avaliar_binop_eq, Hl, ligar_Ok_l, Hr, ligar_Ok_l, Ha, Hrel, Hop.
    destruct (String.eqb_spec tl "boolean"), (String.eqb_spec tr "boolean"),
      (decide (tl = "boolean" ∧ tr = "boolean")); simpl;
      try reflexivity; exfalso; tauto.
  - intros Hop. rewrite !not_elem_of_app in Hop. destruct Hop as (Ha & Hrel & Hlog).
    rewrite avaliar_binop_eq, Hl, ligar_Ok_l, Hr, ligar_Ok_l.
    by rewrite !pertence_false.
  - simpl. rewrite Hl, ligar_Ok_l. destruct (decide (uop = Some "!")) as [->|Hu].
    + simpl. destruct (String.eqb_spec tl "boolean"), (decide (tl = "boolean"));
        try reflexivity; contradiction.
    + by rewrite kind_e_false.
Qed.

Lemma X11_operadores_exemplo :
  avaliar_expressao_tipo estado_inicial (EBinop "&&" (bool_lit true) (int_lit 1))
  = erro (OperandType "&&")
  ∧ avaliar_expressao_tipo estado_inicial (EBinop "%" (int_lit 1) (int_lit 1))
    = erro (UnknownOperator (Some "%"))
  ∧ avaliar_expressao_tipo estado_inicial (EUnop (Some "-") (int_lit 1))
    = erro (UnknownOperator (Some "-")).
Proof.
  destruct (X11_operadores estado_inicial "&&" None (bool_lit true) (int_lit 1)
              "boolean" "int" eq_refl eq_refl) as (H1 & _ & _).
  destruct (X11_operadores estado_inicial "%" (Some "-") (int_lit 1) (int_lit 1)
              "int" "int" eq_refl eq_refl) as (_ & H2 & H3).
  split; [|split].
  - apply H1. decidir.
  - apply H2. decidir.
  - exact H3.
Defined.

(** X12: in a state where every variable in scope and every function
    return type is [int] or [boolean], an expression that type-checks has
    type [int] or [boolean], provided that, when it is itself a literal, the
    literal carries one of the two types. *)
Theorem X12_tipo_int_ou_boolean (st : estado) (e : expr) (t : string) :
  ambiente_valido st →
  (∀ tipo v, e = ELit tipo v → tipo_valido tipo) →
  avaliar_expressao_tipo st e = Ok t →
  tipo_valido t.
Proof.
  intros [Hesc Hfun] Hlit. destruct e as [|tipo v|n|op e|op l r|n args|k].
  - done.
  - intros [= <-]. by eapply Hlit.
  - simpl. unfold buscar_variavel.
    assert (∀ es, Forall (λ esc : gmap string string,
                            ∀ m t0, esc !! m = Some t0 → tipo_valido t0) es →
                  ∀ t', buscar_em es n = Some t' → tipo_valido t') as Hb.
    { induction 1 as [|esc es Hx _ IH]; simpl; [done|].
      intros t'. destruct (esc !! n) eqn:E; [|by apply IH].
      intros [= <-]. by eapply Hx. }
    destruct (buscar_em _ n) as [t'|] eqn:E; [|done]. intros [= <-].
    eapply Hb; [|exact E]. by apply Forall_reverse.
  - simpl. intros (t1 & _ & H)%ligar_ok. destruct (kind_e op "!"); [|done].
    destruct (_ =? _)%string; [|done]. injection H as <-. by right.
  - rewrite avaliar_binop_eq.
    intros (t1 & _ & (t2 & _ & H)%ligar_ok)%ligar_ok.
    repeat (destruct (pertence op _)); try done;
      destruct (_ || _) in H || destruct (_ =? _)%string in H; try done;
      injection H as <-; by (left + right).
  - rewrite avaliar_call_eq.
    destruct (Dict.get (tabela_funcoes st) n) as [[tr ps]|] eqn:E.
    + destruct (negb _); [done|]. intros (? & _ & [= <-])%ligar_ok.
      by eapply Hfun.
    + by destruct (Dict.contem _ _).
  - simpl. intros H. by apply avaliar_outro_falha in H.
Qed.

Lemma X12_tipo_int_ou_boolean_exemplo :
  let st := Estado [("f", ("boolean", []))] [] [{["x" := "int"]}] in
  avaliar_expressao_tipo st (ECall "f" []) = Ok "boolean"
  ∧ tipo_valido "boolean".
Proof.
  intros st. split; [reflexivity|].
  apply (X12_tipo_int_ou_boolean st (ECall "f" []) "boolean").
  - split.
    + apply Forall_singleton.
      intros m t0 [<- <-]%lookup_singleton_Some. unfold tipo_valido. tauto.
    + intros m t0 ps. subst st. cbn -[String.eqb].
      destruct (String.eqb "f" m); [|done].
      intros [= <- <-]. unfold tipo_valido. tauto.
  - discriminate.
  - reflexivity.
Defined.

(** X13: a call used as a statement.  On a function name it has exactly
    the outcome of the same call used as an expression, error included, the
    returned type being dropped; on a procedure name it is accepted exactly
    when the argument count is the parameter count and every argument has
    the type of its parameter; on a name in neither table it fails with
    [UndeclaredCallee]. *)
Theorem X13_chamada_como_comando (st : estado) (nome : string) (args : list expr) :
  (is_Some (Dict.get (tabela_funcoes st) nome) →
     _checar_chamada_como_comando nome args st
     = (avaliar_expressao_tipo st (ECall nome args);; Ok tt))
  ∧ (Dict.get (tabela_funcoes st) nome = None →
     ∀ params, Dict.get (tabela_proceds st) nome = Some params →
       _checar_chamada_como_comando nome args st = Ok tt
       ↔ length params = length args
         ∧ Forall2 (λ arg p, avaliar_expressao_tipo st arg = Ok p.1) args params)
  ∧ (Dict.get (tabela_funcoes st) nome = None →
     Dict.get (tabela_proceds st) nome = None →
     _checar_chamada_como_comando nome args st = erro (UndeclaredCallee nome)).
Proof.
  unfold _checar_chamada_como_comando. rewrite avaliar_call_eq.
  split; [|split].
  - intros [[tr ps] ->]. destruct (negb _); [done|].
    by destruct (checar_args _ _ _ _ _) as [[]|].
  - intros -> params ->.
    destruct (Nat.eqb_spec (length params) (length args)) as [Heq|Hne]; simpl.
    + pose proof (checar_args_ok (avaliar_expressao_tipo st) nome params args 0)
        as Hok. rewrite drop_0 in Hok. rewrite Hok by lia. naive_solver.
    + split; [done|]. by intros [? _].
  - by intros -> ->.
Qed.

Lemma X13_chamada_como_comando_exemplo :
  let st := Estado [("soma", ("int", [("int", "a"); ("int", "b")]))]
              [("mostra", [("int", "v")])] [∅] in
  _checar_chamada_como_comando "soma" [int_lit 1] st = erro (ArityMismatch "soma")
  ∧ _checar_chamada_como_comando "mostra" [int_lit 1] st = Ok tt.
Proof.
  intros st.
  destruct (X13_chamada_como_comando st "soma" [int_lit 1]) as (Hf & _).
  destruct (X13_chamada_como_comando st "mostra" [int_lit 1]) as (_ & Hp & _).
  split.
  - rewrite Hf by by eexists. reflexivity.
  - apply (Hp eq_refl [("int", "v")] eq_refl). split; [reflexivity|].
    repeat constructor.
Defined.

(** X14: with the right number of arguments, the argument reported by a
    call is the first one whose type is not its parameter's, under its
    one-based position, with the type found and the type expected; the
    arguments after it are not examined. *)
Theorem X14_primeiro_argumento_errado (st : estado) (nome tipo_retorno : string)
  (params : parametros) (antes : list expr) (arg : expr) (depois : list expr)
  (t : string) (p : string * string) :
  Dict.get (tabela_funcoes st) nome = Some (tipo_retorno, params) →
  length params = length (antes ++ arg :: depois) →
  Forall2 (λ a q, avaliar_expressao_tipo st a = Ok q.1) antes
    (take (length antes) params) →
  params !! length antes = Some p →
  avaliar_expressao_tipo st arg = Ok t →
  t ≠ p.1 →
  avaliar_expressao_tipo st (ECall nome (antes ++ arg :: depois))
  = erro (ArgumentTypeMismatch nome (S (length antes)) t p.1)
  ∧ _checar_chamada_como_comando nome (antes ++ arg :: depois) st
    = erro (ArgumentTypeMismatch nome (S (length antes)) t p.1).
Proof.
  intros Hget Hlen Hantes Hp Harg Hne.
  pose proof (checar_args_primeiro_errado (avaliar_expressao_tipo st) nome
                params antes arg depois 0 t p) as H.
  rewrite drop_0 in H. specialize (H Hantes Hp Harg Hne). simpl in H.
  unfold _checar_chamada_como_comando. rewrite avaliar_call_eq, Hget.
  rewrite (proj2 (Nat.eqb_eq _ _) Hlen). simpl. rewrite H. done.
Qed.

Lemma X14_primeiro_argumento_errado_exemplo :
  let st := Estado [("soma", ("int", [("int", "a"); ("int", "b")]))] [] [∅] in
  avaliar_expressao_tipo st (ECall "soma" [int_lit 1; bool_lit true])
  = erro (ArgumentTypeMismatch "soma" 2 "boolean" "int").
Proof.
  intros st.
  refine (proj1 (X14_primeiro_argumento_errado st "soma" "int"
                   [("int", "a"); ("int", "b")] [int_lit 1] (bool_lit true) []
                   "boolean" ("int", "b") _ _ _ _ _ _));
    [reflexivity|reflexivity| |reflexivity|reflexivity|discriminate].
  repeat constructor.
Defined.

End SemanticoExtras.

(** * Further properties of the lexical scanner *)

Module LexicoExtras.
Import Lexico LexicoVoc LexicoProps.

(** ** Lines and columns *)









(** ** The texts the scanner accepts *)

Lemma aceita_validos (txt t : texto) :
  Forall (λ c, caractere_valido c = true) txt → aceita (txt ++ t) = aceita t.
Proof.
  induction 1 as [|c txt Hc _ IH]; [done|].
  simpl. by rewrite Hc, IH.
Qed.

Lemma validos_de (p : N → bool) (txt : texto) :
  (∀ c, p c = true → caractere_valido c = true) →
  Forall (λ c, p c = true) txt → Forall (λ c, caractere_valido c = true) txt.
Proof. intros Hp Ht. eapply Forall_impl; [exact Ht|exact Hp]. Qed.

Lemma valido_digito (c : N) : e_digito c = true → caractere_valido c = true.
Proof. unfold caractere_valido. by intros ->. Qed.

Lemma valido_inicio_id (c : N) :
  e_inicio_id c = true → caractere_valido c = true.
Proof. unfold caractere_valido. intros ->. by rewrite orb_true_r. Qed.

(** The ASCII digits are decimal digits. *)
Lemma digito_ascii (c : N) : entre "0" "9" c = true → e_digito c = true.
Proof.
  unfold entre, e_digito, valor_decimal, zeros_decimais. intros H.
  cbn [List.find]. change (48 + 9)%N with (cp "9").
  change 48%N with (cp "0"). by rewrite H.
Qed.

Lemma valido_resto_id (c : N) :
  e_resto_id c = true → caractere_valido c = true.
Proof.
  unfold caractere_valido, e_resto_id, e_inicio_id.
  destruct (entre "A" "Z" c), (entre "a" "z" c), (N.eqb c (cp "_"));
    rewrite ?orb_true_r; try done.
  simpl. rewrite orb_false_r. intros ->%digito_ascii. done.
Qed.

Lemma valido_op_simples (c : N) :
  e_op_simples c = true → caractere_valido c = true.
Proof. unfold caractere_valido. intros ->. by rewrite !orb_true_r. Qed.

Lemma valido_branco (c : N) : e_branco c = true → caractere_valido c = true.
Proof. unfold caractere_valido. intros ->. by rewrite !orb_true_r. Qed.

(** A match other than [OUTRO] is a stretch of text that the character test
    lets through; an [OUTRO] match is a character that fails it. *)
Lemma casar_aceita (s : texto) (g : grupo) (txt resto : texto) :
  casar s = Some (g, txt, resto) →
  if decide (g = OUTRO)
  then ∃ c, txt = [c]
            ∧ caractere_valido c || N.eqb c (cp "!") && inicia_com_igual resto
              = false
  else ∀ t, aceita (txt ++ t) = aceita t.
Proof.
  destruct s as [|c r]; [done|]. unfold casar. intros [= H]. revert H.
  destruct (e_digito c) eqn:Hd.
  { destruct (span e_digito r) as [a b] eqn:E. intros [= <- <- <-].
    rewrite decide_False by done. intros t. apply aceita_validos.
    constructor; [by apply valido_digito|].
    eapply validos_de; [apply valido_digito|by eapply span_Forall]. }
  destruct (e_inicio_id c) eqn:Hi.
  { destruct (span e_resto_id r) as [a b] eqn:E. intros [= <- <- <-].
    rewrite decide_False by done. intros t. apply aceita_validos.
    constructor; [by apply valido_inicio_id|].
    eapply validos_de; [apply valido_resto_id|by eapply span_Forall]. }
  destruct (casar_op c r) as [[t b]|] eqn:E.
  { intros [= <- <- <-]. rewrite decide_False by done. intros t'.
    unfold casar_op in E. destruct r as [|d r'].
    - destruct (e_op_simples c) eqn:Ho; [|done]. injection E as <- <-.
      apply aceita_validos. constructor; [by apply valido_op_simples|done].
    - destruct (existsb _ _ && N.eqb d (cp "=")) eqn:Hdois.
      + injection E as <- <-. apply andb_true_iff in Hdois as [Hc Hdd].
        apply N.eqb_eq in Hdd as ->. simpl in Hc.
        repeat (match type of Hc with
                | context [N.eqb c ?x] =>
                    destruct (N.eqb_spec c x) as [->|?]; [done|]
                end). done.
      + destruct (e_op_simples c) eqn:Ho; [|done]. injection E as <- <-.
        apply aceita_validos. constructor; [by apply valido_op_simples|done]. }
  assert (e_op_simples c = false) as Ho.
  { unfold casar_op in E. destruct r as [|d r']; [by destruct (e_op_simples c)|].
    destruct (_ && _); [done|]. by destruct (e_op_simples c). }
  repeat (match goal with
          | |- context [N.eqb c ?x] =>
              destruct (N.eqb_spec c x) as [->|?]
          end;
          [intros [= <- <- <-]; rewrite decide_False by done; by intros t|]).
  destruct (e_branco c) eqn:Hb.
  { destruct (span e_branco r) as [a b] eqn:E'. intros [= <- <- <-].
    rewrite decide_False by done. intros t. apply aceita_validos.
    constructor; [by apply valido_branco|].
    eapply validos_de; [apply valido_branco|by eapply span_Forall]. }
  intros [= <- <- <-]. rewrite decide_True by done. exists c. split; [done|].
  unfold caractere_valido. rewrite Hd, Hi, Ho, Hb. cbn [orb existsb].
  repeat (match goal with
          | |- context [N.eqb c ?x] =>
              rewrite (proj2 (N.eqb_neq c x)) by assumption
          end).
  cbn [orb]. destruct (N.eqb_spec c (cp "!")) as [->|?]; [|done].
  cbn [andb]. unfold casar_op in E. destruct r as [|d r']; [done|].
  simpl. destruct (N.eqb d (cp "=")); [|done]. by vm_compute in E.
Qed.

Lemma finditer_aceita (s : texto) :
  Forall (λ m, m.1 ≠ OUTRO) (finditer s) ↔ aceita s = true.
Proof.
  induction s as [|s g txt resto E IH] using finditer_ind.
  - rewrite finditer_eq. simpl. split; [done|constructor].
  - rewrite finditer_eq, E. pose proof (casar_aceita _ _ _ _ E) as Ha.
    apply casar_some in E as (-> & _ & _).
    destruct (decide (g = OUTRO)) as [->|Hg].
    + destruct Ha as (c & -> & Hc). simpl. rewrite Hc. simpl. split; [|done].
      by intros [? _]%Forall_cons.
    + rewrite Ha, <- IH. split.
      * by intros [_ ?]%Forall_cons.
      * intros ?. by constructor.
Qed.

Lemma prefixo_aceito (antes : list (grupo * texto)) :
  ∀ s m depois,
    finditer s = antes ++ m :: depois →
    Forall (λ m, m.1 ≠ OUTRO) antes →
    aceita (concat antes.*2) = true.
Proof.
  induction antes as [|[g txt] antes IH]; intros s m depois; [done|].
  rewrite finditer_eq.
  destruct (casar s) as [[[g' txt'] resto]|] eqn:E; [|done].
  simpl. intros [= -> -> Hd] [Hg Hantes]%Forall_cons. simpl in Hg.
  apply casar_aceita in E. rewrite decide_False in E by done.
  rewrite E. by eapply IH.
Qed.

(** All the matches are accepted exactly when the character test lets
    the text through and no number is too long. *)
Lemma finditer_aceitos (s : texto) :
  Forall casamento_aceito (finditer s) ↔ aceita s = true ∧ numeros_curtos s.
Proof.
  rewrite <- finditer_aceita. unfold numeros_curtos, casamento_aceito.
  rewrite !Forall_forall. naive_solver.
Qed.

(** X16: the scanner returns tokens exactly for the texts in which no
    number has more digits than [int] converts and every character is a
    decimal digit of any script, an ASCII letter, an underscore, one of
    [+ - * / < > = ( ) { } , ;], a blank, a tab, a carriage return or a line
    feed, or an exclamation mark directly followed by [=].  When it raises
    the lexical error, it does so at the first character that is none of
    these; when it raises [ValueError], some number is too long. *)
Theorem X16_textos_aceitos (codigo : texto) :
  ((∃ toks, analisar codigo = Ok toks)
   ↔ aceita codigo = true ∧ numeros_curtos codigo)
  ∧ (∀ txt l col, analisar codigo = Falha (ErroLexico txt l col) →
       ∃ pre c suf,
         codigo = pre ++ c :: suf
         ∧ txt = [c]
         ∧ aceita pre = true
         ∧ caractere_valido c || N.eqb c (cp "!") && inicia_com_igual suf
           = false)
  ∧ (analisar codigo = Falha ValueError → ¬ numeros_curtos codigo)
  ∧ (∀ e, analisar codigo = Falha e →
       e = ValueError ∨ ∃ c l col, e = ErroLexico [c] l col).
Proof.
  rewrite <- finditer_aceitos.
  destruct (analisar_casos codigo)
    as [(Hall & lx & Hp & _ & Ha)
       |[(antes & c & depois & lx & Hms & Hantes & Hp & Ha)
        |(antes & txt & depois & lx & Hms & Hantes & Hlen & Hp & Ha)]].
  - split; [split; [done|by eexists]|].
    split; [intros ???; congruence|]. split; intros; congruence.
  - split.
    { split; [intros [? ?]; congruence|].
      rewrite Hms. intros [_ [[? _] _]%Forall_cons]%Forall_app. done. }
    split.
    + intros txt l col He. rewrite Ha in He. injection He as <- <- <-.
      destruct (finditer_divide _ _ _ _ Hms) as [Hs Hc].
      exists (concat antes.*2), c, (concat depois.*2).
      split; [done|]. split; [done|].
      split.
      { eapply prefixo_aceito; [exact Hms|].
        eapply Forall_impl; [exact Hantes|]. by intros ? [? _]. }
      apply casar_aceita in Hc. cbn [fst snd] in Hc.
      rewrite decide_True in Hc by done.
      by destruct Hc as (c' & [= <-] & Hc).
    + split; [congruence|]. intros e He. rewrite Ha in He.
      injection He as <-. right. by do 3 eexists.
  - split.
    { split; [intros [? ?]; congruence|].
      rewrite Hms. intros [_ [[_ Hn] _]%Forall_cons]%Forall_app.
      simpl in Hn. specialize (Hn eq_refl). lia. }
    split; [intros ???; congruence|]. split.
    + intros _ Hcurtos. unfold numeros_curtos in Hcurtos. rewrite Hms in Hcurtos.
      apply Forall_app in Hcurtos as [_ [Hn _]%Forall_cons].
      simpl in Hn. specialize (Hn eq_refl). lia.
    + intros e He. rewrite Ha in He. injection He as <-. by left.
Qed.

Lemma X16_textos_aceitos_exemplo :
  (∃ toks, analisar ([1635%N] ++ codigos "a != b") = Ok toks)
  ∧ ∃ pre c suf,
      codigos "a ! b" = pre ++ c :: suf
      ∧ codigos "!" = [c]
      ∧ aceita pre = true
      ∧ caractere_valido c || N.eqb c (cp "!") && inicia_com_igual suf = false.
Proof.
  split.
  - apply (proj1 (X16_textos_aceitos ([1635%N] ++ codigos "a != b"))).
    split; [vm_compute; reflexivity|].
    apply (bool_decide_unpack _). vm_compute. exact I.
  - destruct (X16_textos_aceitos (codigos "a ! b")) as (_ & He & _).
    apply (He (codigos "!") 1 3). vm_compute. reflexivity.
Defined.

(** ** The shape of the tokens *)

Lemma reservada_tipo (txt : texto) :
  txt ∈ PALAVRAS_RESERVADAS →
  upper txt ∈ tipos_de_token
  ∧ upper txt ≠ codigos "NUM"
  ∧ upper txt ≠ codigos "ID".
Proof.
  intros Htxt. unfold PALAVRAS_RESERVADAS in Htxt. simpl in Htxt.
  repeat (apply elem_of_cons in Htxt as [->|Htxt];
          [split; [apply (bool_decide_unpack _); vm_compute; exact I
                  |split; by vm_compute]|]).
  by apply elem_of_nil in Htxt.
Qed.

Lemma acrescentar_bem_formado (lx : lexer) (tipo : texto)
    (valor : Token.valor_t) :
  estado_bem_formado lx →
  token_bem_formado (Token.Novo tipo valor (linha lx) (coluna lx)) →
  estado_bem_formado (acrescentar lx tipo valor).
Proof.
  intros (Htoks & Hl & Hc) Htok. unfold estado_bem_formado, acrescentar. simpl.
  split; [|done]. apply Forall_app. split; [done|]. by constructor.
Qed.

Lemma token_fixo (tipo : texto) (valor : Token.valor_t) (l c : Z) :
  tipo ∈ tipos_de_token → tipo ≠ codigos "NUM" → tipo ≠ codigos "ID" → 1 ≤ l → 1 ≤ c →
  token_bem_formado (Token.Novo tipo valor l c).
Proof. intros. unfold token_bem_formado. simpl. naive_solver. Qed.

Lemma passo_bem_formado (m : grupo * texto) (lx lx' : lexer) :
  m.2 ≠ [] →
  estado_bem_formado lx → passo m lx = Ok lx' → estado_bem_formado lx'.
Proof.
  destruct m as [g txt]. simpl. intros Htxt Hbem. unfold passo.
  intros (lx1 & H1 & [= <-])%ligar_ok.
  assert (Forall token_bem_formado (tokens lx1)
          ∧ 1 ≤ linha lx1 ∧ 0 ≤ coluna lx1) as (Htoks & Hl & Hc).
  { assert (∀ tipo valor,
              token_bem_formado (Token.Novo tipo valor (linha lx) (coluna lx)) →
              Forall token_bem_formado (tokens (acrescentar lx tipo valor))
              ∧ 1 ≤ linha (acrescentar lx tipo valor)
              ∧ 0 ≤ coluna (acrescentar lx tipo valor)) as Hacr.
    { intros tipo valor Htok.
      destruct (acrescentar_bem_formado lx tipo valor Hbem Htok)
        as (? & ? & ?). split; [done|]. split; [done|lia]. }
    pose proof Hbem as (Htoks & Hl & Hc).
    destruct g; simplify_eq/=;
      try (apply Hacr;
           apply token_fixo; [apply (bool_decide_unpack _); vm_compute; exact I
                             |by vm_compute|by vm_compute|done|done]).
    - apply ligar_ok in H1 as (n & Hn & [= <-]).
      apply Hacr. unfold token_bem_formado. simpl. split.
      { apply (bool_decide_unpack _); vm_compute; exact I. }
      split; [intros _; eexists; split; [done|]; by eapply int_nao_negativo|].
      split; [by vm_compute|]. done.
    - case_bool_decide as Hres; simplify_eq/=.
      + apply Hacr.
        destruct (reservada_tipo _ Hres) as (? & ? & ?). by apply token_fixo.
      + apply Hacr. unfold token_bem_formado. simpl. split.
        { apply (bool_decide_unpack _); vm_compute; exact I. }
        split; [by vm_compute|]. split; [|done]. intros _. by eexists.
    - split; [done|]. split; [done|lia].
    - split; [done|]. simpl. lia. }
  split; [done|]. simpl. split; [done|]. destruct txt; [done|]. simpl. lia.
Qed.

Lemma percorrer_bem_formado (ms : list (grupo * texto)) :
  Forall (λ m, m.2 ≠ []) ms →
  ∀ lx lx', estado_bem_formado lx → percorrer ms lx = Ok lx' →
    estado_bem_formado lx'.
Proof.
  induction 1 as [|m ms Hm _ IH]; intros lx lx' Hbem; cbn [percorrer].
  - by intros [= <-].
  - intros (lx1 & H1 & H2)%ligar_ok. eapply IH; [|exact H2].
    by eapply passo_bem_formado.
Qed.

(** X17: every token the scanner returns is well formed: its kind is one
    of the eleven fixed kinds or an upper-cased reserved word, a number
    token carries a non-negative integer, an identifier token carries a text
    that is no reserved word, and its line and column are at least 1. *)
Theorem X17_tokens_bem_formados (codigo : texto) (toks : list Token.t) :
  analisar codigo = Ok toks → Forall token_bem_formado toks.
Proof.
  unfold analisar. intros (lx & Hp & [= <-])%ligar_ok.
  assert (estado_bem_formado lexer_inicial) as Hini.
  { split; [constructor|]. simpl. lia. }
  assert (Forall (λ m : grupo * texto, m.2 ≠ []) (finditer codigo)) as Hne.
  { eapply Forall_impl; [apply finditer_num|]. by intros ? [? _]. }
  pose proof (percorrer_bem_formado _ Hne _ _ Hini Hp) as (Htoks & Hl & Hc).
  simpl. apply Forall_app. split; [done|]. constructor; [|constructor].
  apply token_fixo; [apply (bool_decide_unpack _); vm_compute; exact I
                    |by vm_compute|by vm_compute|done|done].
Qed.

Lemma X17_tokens_bem_formados_exemplo :
  Forall token_bem_formado
    [Token.Novo (codigos "INT") (Token.VTexto (codigos "int")) 1 1;
     Token.Novo (codigos "ID") (Token.VTexto (codigos "x")) 1 5;
     Token.Novo (codigos "ATRIB") (Token.VTexto (codigos "=")) 1 7;
     Token.Novo (codigos "NUM") (Token.VNum 7) 1 9;
     Token.Novo (codigos "EOF") Token.VNone 1 12].
Proof.
  apply (X17_tokens_bem_formados (codigos "int x = 007")).
  vm_compute. reflexivity.
Defined.

(** ** Longest match *)

Lemma span_resto (p : N → bool) (s a b : texto) (d : N) :
  span p s = (a, d :: b) → p d = false.
Proof.
  revert a. induction s as [|c r IH]; intros a; simpl; [done|].
  destruct (p c) eqn:Hc; [|by intros [= <- <- <-]].
  destruct (span p r) as [a' b'] eqn:E. intros [= <- ->]. by eapply IH.
Qed.

Lemma casar_op_none (c d : N) (r : texto) :
  casar_op c (d :: r) = None →
  existsb (N.eqb c) [cp "="; cp "!"; cp ">"; cp "<"] && N.eqb d (cp "=") = false.
Proof. unfold casar_op. by destruct (_ && _). Qed.

(** The character after a match could not have extended it. *)
Lemma casar_maximo (s : texto) (g : grupo) (txt resto : texto)
    (d : N) :
  casar s = Some (g, txt, d :: resto) → continua g txt d = false.
Proof.
  destruct s as [|c r]; [done|]. unfold casar. intros [= H]. revert H.
  destruct (e_digito c).
  { destruct (span e_digito r) as [a b] eqn:E. intros [= <- <- ->].
    by eapply span_resto. }
  destruct (e_inicio_id c).
  { destruct (span e_resto_id r) as [a b] eqn:E. intros [= <- <- ->].
    by eapply span_resto. }
  destruct (casar_op c r) as [[t b]|] eqn:E.
  { intros [= <- <- ->]. unfold casar_op in E. destruct r as [|d0 r'].
    - by destruct (e_op_simples c).
    - destruct (existsb _ _ && N.eqb d0 (cp "=")) eqn:Hdois.
      + by injection E as <- ->.
      + destruct (e_op_simples c); [|done]. by injection E as <- <- <-. }
  repeat (destruct (N.eqb c _);
          [intros [= <- <- ->]; by try apply casar_op_none in E|]).
  destruct (e_branco c).
  { destruct (span e_branco r) as [a b] eqn:E'. intros [= <- <- ->].
    by eapply span_resto. }
  destruct (N.eqb c nova_linha); intros [= <- <- ->]; [done|].
  by apply casar_op_none in E.
Qed.

(** X18: every match is as long as it can be: of two adjacent matches of
    the scanner's pattern, the second starts with a character that could not
    have extended the first.  So a number is never followed directly by a
    decimal digit, an identifier by an ASCII letter, an ASCII digit or an
    underscore, a run of blanks by a blank, nor a single [=], [!], [>] or
    [<] by [=]. *)
Theorem X18_maior_casamento (s : texto)
    (antes depois : list (grupo * texto)) (m1 m2 : grupo * texto) :
  finditer s = antes ++ m1 :: m2 :: depois →
  ∃ d r, m2.2 = d :: r ∧ continua m1.1 m1.2 d = false.
Proof.
  intros Hms.
  destruct (finditer_divide antes s m1 (m2 :: depois) Hms) as [_ H1].
  destruct (finditer_divide (antes ++ [m1]) s m2 depois) as [_ H2].
  { by rewrite <- app_assoc. }
  apply casar_some in H2 as (_ & Hne & _).
  destruct (m2.2) as [|d r] eqn:E2; [done|].
  exists d, r. split; [done|].
  rewrite fmap_cons in H1. cbn [concat] in H1. rewrite E2 in H1.
  rewrite <- !app_comm_cons in H1. by eapply casar_maximo.
Qed.

Lemma X18_maior_casamento_exemplo :
  ∃ d r, (ID, [cp "a"; cp "b"]).2 = d :: r
         ∧ continua (NUM, [cp "1"; cp "2"]).1 (NUM, [cp "1"; cp "2"]).2 d = false.
Proof.
  apply (X18_maior_casamento (codigos "x=12ab;")
           [(ID, [cp "x"]); (ATRIB, [cp "="])] [(PTO_V, [cp ";"])]).
  vm_compute. reflexivity.
Defined.

End LexicoExtras.
